(** * NBA finals odds engine: rating model, seeding, series and bracket
      simulation, Monte Carlo aggregation

    A shallow embedding of [nba_playoff_odds/elo.py], [models.py],
    [bracket.py] and [simulation.py].

    Conventions of the embedding.
    - A Python [float] that carries a rating, a probability or a random
      draw is a real number ([R]); arithmetic is exact, so rounding,
      overflow of [10.0 ** x] and the special values of binary64 are
      outside this model.  Where a property depends on them,
      [expected_home_win_prob] is also embedded in binary64 (module
      [Binary64]), and statements about the exact model are restricted
      to ranges of ratings in which the code keeps them.  A win
      percentage, the quotient of two integers, is an exact rational
      ([Q]), which keeps the seeding executable.
    - A Python [int] is [Z], a [str] is [string] (ASCII text).
    - A [dict] with integer or string keys is a [gmap]; a [Counter], whose
      insertion order decides ties in [most_common], is an association
      list.
    - The rating dictionaries and the playoff field passed to
      [run_monte_carlo] are objects of a store addressed by location, so
      that copying and in-place update are visible.
    - A raised exception is the [Err] case of [result]. *)

From Stdlib Require Import Reals Lra ZArith QArith String Ascii Permutation Sorted.
From Stdlib Require PrimFloat.
From stdpp Require Import gmap strings pretty list.

Local Open Scope Z_scope.

(** ** Exceptions

    [TypeError] stands for the failure of a call that is handed an
    object of the wrong kind, here a location of the store that does not
    hold what the callee expects. *)

Inductive error :=
  | ValueError (msg : string)
  | KeyError
  | TypeError.

Inductive result (A : Type) :=
  | Ok (a : A)
  | Err (e : error).
Arguments Ok {A} a.
Arguments Err {A} e.

#[global] Instance result_ret : MRet result := λ A, Ok.
#[global] Instance result_bind : MBind result := λ A B f m,
  match m with
  | Ok a => f a
  | Err e => Err e
  end.

(** [d[k]] of a dictionary: raises [KeyError] when the key is absent. *)
Definition getitem `{Countable K} {V} (d : gmap K V) (k : K) : result V :=
  match d !! k with
  | Some v => Ok v
  | None => Err KeyError
  end.

(** ** The random module

    [random.Random] is library code: the generator is a parameter of the
    development.  A generator object is mutated by every draw, which is
    modelled by returning its next state. *)
Class RandomGen := {
  rng : Type;
  (** [random.Random(seed)] *)
  Random : Z → rng;
  (** [g.random()] *)
  random : rng → R * rng;
  (** [g.randint(a, b)] *)
  randint : Z → Z → rng → Z * rng
}.

(** [x < y] and [x >= y] on floats, as booleans. *)
Definition Rltb (x y : R) : bool := if Rlt_dec x y then true else false.
Definition Rgeb (x y : R) : bool := if Rge_dec x y then true else false.

(** ** models.py *)

Module TeamStanding.
Record t := mk {
  season : Z;
  team_id : Z;
  team_name : string;
  conference : string;
  wins : Z;
  losses : Z
}.

(** [(self.wins / total) if total else 0.0] *)
Definition win_pct (self : t) : Q :=
  let total := wins self + losses self in
  if total =? 0 then 0%Q else (inject_Z (wins self) / inject_Z total)%Q.
End TeamStanding.

Module SeededTeam.
Record t := mk {
  team_id : Z;
  team_name : string;
  conference : string;
  seed : Z
}.
End SeededTeam.

(** ** elo.py *)

Module Elo.
Local Open Scope R_scope.

Definition expected_home_win_prob (home_elo away_elo home_court_adv : R) : R :=
  let adjusted_home := home_elo + home_court_adv in
  let exponent := (away_elo - adjusted_home) / 400 in
  1 / (1 + Rpower 10 exponent).

Definition update_elo (home_elo away_elo : R) (home_won : bool)
    (k_factor home_court_adv : R) : R * R :=
  let exp_home := expected_home_win_prob home_elo away_elo home_court_adv in
  let actual_home := if home_won then 1 else 0 in
  let delta := k_factor * (actual_home - exp_home) in
  (home_elo + delta, away_elo - delta).
End Elo.

(** ** Python built-ins used by bracket.py *)

Module Py.

(** [str.isspace] on ASCII: tab, line feed, vertical tab, form feed,
    carriage return, the four separators 28..31 and the space. *)
Definition isspace (c : ascii) : bool :=
  let n := nat_of_ascii c in
  ((9 <=? n) && (n <=? 13) || (28 <=? n) && (n <=? 32))%nat.

Definition isupper (c : ascii) : bool :=
  let n := nat_of_ascii c in ((65 <=? n) && (n <=? 90))%nat.

Definition islower (c : ascii) : bool :=
  let n := nat_of_ascii c in ((97 <=? n) && (n <=? 122))%nat.

Definition iscased (c : ascii) : bool := isupper c || islower c.

Definition upper (c : ascii) : ascii :=
  if islower c then ascii_of_nat (nat_of_ascii c - 32) else c.

Definition lower (c : ascii) : ascii :=
  if isupper c then ascii_of_nat (nat_of_ascii c + 32) else c.

Fixpoint lstrip (s : string) : string :=
  match s with
  | EmptyString => EmptyString
  | String c rest => if isspace c then lstrip rest else s
  end.

Definition rstrip (s : string) : string := String.rev (lstrip (String.rev s)).

(** [s.strip()] *)
Definition strip (s : string) : string := rstrip (lstrip s).

(** [s.title()]: a character that follows a cased character is lowered,
    any other character is put in title case. *)
Fixpoint title_from (previous_is_cased : bool) (s : string) : string :=
  match s with
  | EmptyString => EmptyString
  | String c rest =>
      String (if previous_is_cased then lower c else upper c)
             (title_from (iscased c) rest)
  end.

Definition title (s : string) : string := title_from false s.

(** [sorted(l, key=key)], where [lt] is [<] on the keys.  The sort is
    stable: an element is inserted in front of the first element that
    is not smaller than it, so elements with equal keys
    keep the order they had in [l]. *)
Section sorted.
Context {A K : Type} (key : A → K) (lt : K → K → bool).

Fixpoint insert_sorted (x : A) (l : list A) : list A :=
  match l with
  | [] => [x]
  | y :: l' => if lt (key y) (key x) then y :: insert_sorted x l' else x :: l
  end.

Definition sorted (l : list A) : list A := foldr insert_sorted [] l.
End sorted.

End Py.

(** ** bracket.py: seeding *)

Module Bracket.

(** The sort key [(-s.win_pct, -s.wins, s.losses, s.team_name)]. *)
Definition sort_key (s : TeamStanding.t) : Q * Z * Z * string :=
  ((- TeamStanding.win_pct s)%Q, - TeamStanding.wins s,
   TeamStanding.losses s, TeamStanding.team_name s).

(** Comparison of two key tuples, as Python compares tuples: the first
    component on which they differ decides. *)
Definition key_compare (a b : Q * Z * Z * string) : comparison :=
  let '(p1, w1, l1, n1) := a in
  let '(p2, w2, l2, n2) := b in
  match (p1 ?= p2)%Q with
  | Eq => match w1 ?= w2 with
          | Eq => match l1 ?= l2 with
                  | Eq => String.compare n1 n2
                  | c => c
                  end
          | c => c
          end
  | c => c
  end.

Definition key_lt (a b : Q * Z * Z * string) : bool :=
  match key_compare a b with Lt => true | _ => false end.

Definition normalize_conference (conference : string) : string :=
  Py.title (Py.strip conference).

(** The first loop: rows are appended to the list of their normalized
    conference, rows of any other conference are dropped. *)
Definition group_by_conference (standings : list TeamStanding.t)
    : gmap string (list TeamStanding.t) :=
  foldl (λ conference_groups row,
           let conference := normalize_conference (TeamStanding.conference row) in
           if bool_decide (conference = "East" ∨ conference = "West")
           then <[conference := default [] (conference_groups !! conference) ++ [row]]>
                  conference_groups
           else conference_groups)
        ∅ standings.

Definition seed_rows (conference : string) (rows : list TeamStanding.t)
    : list SeededTeam.t :=
  imap (λ i t, SeededTeam.mk (TeamStanding.team_id t) (TeamStanding.team_name t)
                 conference (Z.of_nat i + 1)) rows.

Definition build_playoff_field (standings : list TeamStanding.t)
    : result (gmap string (list SeededTeam.t)) :=
  let conference_groups := group_by_conference standings in
  let field :=
    foldl (λ field conference,
             let rows := take 8 (Py.sorted sort_key key_lt
                                   (default [] (conference_groups !! conference))) in
             <[conference := seed_rows conference rows]> field)
          ∅ ["East"; "West"]%string in
  if (length (default [] (field !! "East"%string)) <? 8)%nat
     || (length (default [] (field !! "West"%string)) <? 8)%nat
  then Err (ValueError
    "Could not build playoff field: both conferences need at least 8 teams in standings")
  else Ok field.

(** ** bracket.py: series and bracket simulation *)

(** [ratings.get(team_id, 1500.0)] *)
Definition rating_of (ratings : gmap Z R) (team_id : Z) : R :=
  default 1500%R (ratings !! team_id).

Section simulation.
Context `{RandomGen}.

(** The variables of the loop of [_simulate_series]: the two win
    counters, and the rating dictionary and the generator it mutates. *)
Record series_state := SeriesState {
  high_wins : Z;
  low_wins : Z;
  cur_ratings : gmap Z R;
  cur_rng : rng
}.

(** One pass through the body of the loop, after the test on the win
    counters. *)
Definition play_game (high_seed low_seed : SeededTeam.t) (k_factor home_court_adv : R)
    (high_is_home : bool) (s : series_state) : series_state :=
  let home := if high_is_home then high_seed else low_seed in
  let away := if high_is_home then low_seed else high_seed in
  let home_elo := rating_of (cur_ratings s) (SeededTeam.team_id home) in
  let away_elo := rating_of (cur_ratings s) (SeededTeam.team_id away) in
  let home_prob := Elo.expected_home_win_prob home_elo away_elo home_court_adv in
  let '(draw, g) := random (cur_rng s) in
  let home_won := Rltb draw home_prob in
  let '(new_home, new_away) :=
    Elo.update_elo home_elo away_elo home_won k_factor home_court_adv in
  let ratings := <[SeededTeam.team_id away := new_away]>
                   (<[SeededTeam.team_id home := new_home]> (cur_ratings s)) in
  let high_team_won :=
    (SeededTeam.team_id home =? SeededTeam.team_id high_seed) && home_won
    || (SeededTeam.team_id away =? SeededTeam.team_id high_seed) && negb home_won in
  if high_team_won
  then SeriesState (high_wins s + 1) (low_wins s) ratings g
  else SeriesState (high_wins s) (low_wins s + 1) ratings g.

Definition schedule_high_home : list bool :=
  [true; true; false; false; true; false; true].

(** The [for] loop over a schedule, with its [break]. *)
Fixpoint series_loop (high_seed low_seed : SeededTeam.t) (k_factor home_court_adv : R)
    (schedule : list bool) (s : series_state) : series_state :=
  match schedule with
  | [] => s
  | high_is_home :: rest =>
      if (high_wins s =? 4) || (low_wins s =? 4) then s
      else series_loop high_seed low_seed k_factor home_court_adv rest
             (play_game high_seed low_seed k_factor home_court_adv high_is_home s)
  end.

(** The state in which [_simulate_series] leaves its loop. *)
Definition series_final (high_seed low_seed : SeededTeam.t) (ratings : gmap Z R)
    (g : rng) (k_factor home_court_adv : R) : series_state :=
  series_loop high_seed low_seed k_factor home_court_adv schedule_high_home
    (SeriesState 0 0 ratings g).

(** Returns the winner together with the rating dictionary and the
    generator as the call leaves them. *)
Definition _simulate_series (high_seed low_seed : SeededTeam.t) (ratings : gmap Z R)
    (g : rng) (k_factor home_court_adv : R) : SeededTeam.t * gmap Z R * rng :=
  let s := series_final high_seed low_seed ratings g k_factor home_court_adv in
  (if high_wins s >? low_wins s then high_seed else low_seed, cur_ratings s, cur_rng s).

Definition _series_with_home_court (team_a team_b : SeededTeam.t) (ratings : gmap Z R)
    (g : rng) (k_factor home_court_adv : R) : SeededTeam.t * gmap Z R * rng :=
  if SeededTeam.seed team_a <? SeededTeam.seed team_b then
    _simulate_series team_a team_b ratings g k_factor home_court_adv
  else if SeededTeam.seed team_b <? SeededTeam.seed team_a then
    _simulate_series team_b team_a ratings g k_factor home_court_adv
  else
    _simulate_series
      (if Rgeb (rating_of ratings (SeededTeam.team_id team_a))
               (rating_of ratings (SeededTeam.team_id team_b))
       then team_a else team_b)
      (if Rgeb (rating_of ratings (SeededTeam.team_id team_a))
               (rating_of ratings (SeededTeam.team_id team_b))
       then team_b else team_a)
      ratings g k_factor home_court_adv.

(** [{t.seed: t for t in teams}]: a later team replaces an earlier one
    with the same seed. *)
Definition index_by_seed (teams : list SeededTeam.t) : gmap Z SeededTeam.t :=
  foldl (λ by_seed t, <[SeededTeam.seed t := t]> by_seed) ∅ teams.

(** The body of the loop of [simulate_playoffs] over the conferences:
    the seven series of one conference. *)
Definition conference_bracket (playoff_field : gmap string (list SeededTeam.t))
    (conference : string) (ratings : gmap Z R) (g : rng) (k_factor home_court_adv : R)
    : result (SeededTeam.t * gmap Z R * rng) :=
  teams ← getitem playoff_field conference;
  let by_seed := index_by_seed teams in
  s1 ← getitem by_seed 1; s8 ← getitem by_seed 8;
  let '(qf1, ratings, g) := _simulate_series s1 s8 ratings g k_factor home_court_adv in
  s4 ← getitem by_seed 4; s5 ← getitem by_seed 5;
  let '(qf2, ratings, g) := _simulate_series s4 s5 ratings g k_factor home_court_adv in
  s2 ← getitem by_seed 2; s7 ← getitem by_seed 7;
  let '(qf3, ratings, g) := _simulate_series s2 s7 ratings g k_factor home_court_adv in
  s3 ← getitem by_seed 3; s6 ← getitem by_seed 6;
  let '(qf4, ratings, g) := _simulate_series s3 s6 ratings g k_factor home_court_adv in
  let '(sf1, ratings, g) := _series_with_home_court qf1 qf2 ratings g k_factor home_court_adv in
  let '(sf2, ratings, g) := _series_with_home_court qf3 qf4 ratings g k_factor home_court_adv in
  Ok (_series_with_home_court sf1 sf2 ratings g k_factor home_court_adv).

(** The end of [simulate_playoffs]: the series between the two
    conference champions. *)
Definition finals_series (east west : SeededTeam.t) (ratings : gmap Z R)
    (g : rng) (k_factor home_court_adv : R) : SeededTeam.t * gmap Z R * rng :=
  let east_rating := rating_of ratings (SeededTeam.team_id east) in
  let west_rating := rating_of ratings (SeededTeam.team_id west) in
  if Rgeb east_rating west_rating then
    _simulate_series east west ratings g k_factor home_court_adv
  else
    _simulate_series west east ratings g k_factor home_court_adv.

Definition simulate_playoffs (playoff_field : gmap string (list SeededTeam.t))
    (ratings : gmap Z R) (g : rng) (k_factor home_court_adv : R)
    : result (SeededTeam.t * SeededTeam.t * SeededTeam.t * gmap Z R * rng) :=
  '(conf_champs, ratings, g) ←
    foldl (λ acc conference,
             '(conf_champs, ratings, g) ← acc;
             '(champ, ratings, g) ←
               conference_bracket playoff_field conference ratings g
                 k_factor home_court_adv;
             Ok (<[conference := champ]> conf_champs, ratings, g))
          (Ok (∅ : gmap string SeededTeam.t, ratings, g))
          ["East"; "West"]%string;
  east ← getitem conf_champs "East"%string;
  west ← getitem conf_champs "West"%string;
  let '(champion, ratings, g) :=
    finals_series east west ratings g k_factor home_court_adv in
  Ok (champion, east, west, ratings, g).

End simulation.

End Bracket.

(** ** The store

    Objects that [run_monte_carlo] receives by reference, or creates and
    passes on by reference. *)

Inductive object :=
  | RatingsObj (d : gmap Z R)
  | FieldObj (f : gmap string (list SeededTeam.t)).

Abbreviation loc := positive.
Abbreviation store := (gmap loc object).

Definition load_ratings (h : store) (l : loc) : result (gmap Z R) :=
  match h !! l with
  | Some (RatingsObj d) => Ok d
  | _ => Err TypeError
  end.

Definition load_field (h : store) (l : loc)
    : result (gmap string (list SeededTeam.t)) :=
  match h !! l with
  | Some (FieldObj f) => Ok f
  | _ => Err TypeError
  end.

(** [dict(d)]: a new dictionary object with the entries of [d]. *)
Definition dict_copy (l : loc) (h : store) : result (loc * store) :=
  d ← load_ratings h l;
  let l' := fresh (dom h) in
  Ok (l', <[l' := RatingsObj d]> h).

(** ** collections.Counter *)

Module Counter.
Section counter.
Context {K : Type} `{EqDecision K}.

(** The entries in insertion order. *)
Definition t := list (K * Z).

(** [c[k] += 1] *)
Fixpoint incr (k : K) (c : t) : t :=
  match c with
  | [] => [(k, 1)]
  | (k', n) :: rest =>
      if decide (k = k') then (k', n + 1) :: rest else (k', n) :: incr k rest
  end.

(** [c.most_common(n)]: the [n] entries with the largest counts, largest
    first, entries with equal counts in insertion order. *)
Definition most_common (n : nat) (c : t) : list (K * Z) :=
  take n (Py.sorted (λ kv : K * Z, - kv.2) Z.ltb c).

Definition total (c : t) : Z := foldr (λ kv acc, kv.2 + acc) 0 c.
End counter.
Arguments t K : clear implicits.
End Counter.

(** ** simulation.py *)

Module Simulation.
Section run.
Context `{RandomGen}.

Record tally := Tally {
  champ_counts : Counter.t Z;
  conference_counts : list (string * Counter.t Z);
  finals_counts : Counter.t string
}.

Record outputs := Outputs {
  championship_odds : list (Z * (string * R));
  conference_odds : list (string * list (Z * (string * R)));
  finals_top_10 : list (string * R)
}.

(** [{t.team_id: t.team_name for conference in ("East", "West")
      for t in playoff_field[conference]}] *)
Definition build_team_lookup (playoff_field : gmap string (list SeededTeam.t))
    : result (gmap Z string) :=
  foldl (λ acc conference,
           team_lookup ← acc;
           teams ← getitem playoff_field conference;
           Ok (foldl (λ d t, <[SeededTeam.team_id t := SeededTeam.team_name t]> d)
                 team_lookup teams))
        (Ok ∅) ["East"; "West"]%string.

(** [conference_counts[conference][team_id] += 1] *)
Fixpoint incr_conference (conference : string) (team_id : Z)
    (conference_counts : list (string * Counter.t Z))
    : result (list (string * Counter.t Z)) :=
  match conference_counts with
  | [] => Err KeyError
  | (c, counter) :: rest =>
      if decide (conference = c) then Ok ((c, Counter.incr team_id counter) :: rest)
      else rest' ← incr_conference conference team_id rest; Ok ((c, counter) :: rest')
  end.

(** [simulate_playoffs] called with references to the field and to the
    rating dictionary: the dictionary object is updated in place. *)
Definition call_simulate_playoffs (playoff_field ratings : loc) (g : rng)
    (k_factor home_court_adv : R) (h : store)
    : result (SeededTeam.t * SeededTeam.t * SeededTeam.t * store) :=
  field ← load_field h playoff_field;
  d ← load_ratings h ratings;
  '(champion, east_champ, west_champ, d', _) ←
    Bracket.simulate_playoffs field d g k_factor home_court_adv;
  Ok (champion, east_champ, west_champ, <[ratings := RatingsObj d']> h).

(** The four tally statements that end the body of the loop. *)
Definition record_outcome (counts : tally) (champion east_champ west_champ : SeededTeam.t)
    : result tally :=
  let champ_counts := Counter.incr (SeededTeam.team_id champion) (champ_counts counts) in
  conference_counts ←
    incr_conference "East" (SeededTeam.team_id east_champ) (conference_counts counts);
  conference_counts ←
    incr_conference "West" (SeededTeam.team_id west_champ) conference_counts;
  let finals_counts :=
    Counter.incr (SeededTeam.team_name east_champ +:+ " vs " +:+ SeededTeam.team_name west_champ)
      (finals_counts counts) in
  Ok (Tally champ_counts conference_counts finals_counts).

(** The body of the loop over the trials. *)
Definition run_trial (playoff_field base_ratings : loc) (k_factor home_court_adv : R)
    (acc : tally * rng * store) : result (tally * rng * store) :=
  let '(counts, parent_rng, h) := acc in
  let '(sim_seed, parent_rng) := randint 0 (10 ^ 9) parent_rng in
  let sim_rng := Random sim_seed in
  '(sim_ratings, h) ← dict_copy base_ratings h;
  '(champion, east_champ, west_champ, h) ←
    call_simulate_playoffs playoff_field sim_ratings sim_rng k_factor home_court_adv h;
  counts ← record_outcome counts champion east_champ west_champ;
  Ok (counts, parent_rng, h).

(** [for _ in range(n)] *)
Fixpoint run_trials (n : nat) (playoff_field base_ratings : loc)
    (k_factor home_court_adv : R) (acc : tally * rng * store)
    : result (tally * rng * store) :=
  match n with
  | O => Ok acc
  | S n' =>
      acc' ← run_trial playoff_field base_ratings k_factor home_court_adv acc;
      run_trials n' playoff_field base_ratings k_factor home_court_adv acc'
  end.

(** [{team_id: (team_lookup[team_id], count / n_simulations)
      for team_id, count in counter.items()}] *)
Fixpoint odds_of_counter (team_lookup : gmap Z string) (n_simulations : Z)
    (counter : Counter.t Z) : result (list (Z * (string * R))) :=
  match counter with
  | [] => Ok []
  | (team_id, count) :: rest =>
      name ← getitem team_lookup team_id;
      rest' ← odds_of_counter team_lookup n_simulations rest;
      Ok ((team_id, (name, (IZR count / IZR n_simulations)%R)) :: rest')
  end.

Fixpoint odds_of_conferences (team_lookup : gmap Z string) (n_simulations : Z)
    (conference_counts : list (string * Counter.t Z))
    : result (list (string * list (Z * (string * R)))) :=
  match conference_counts with
  | [] => Ok []
  | (conference, counter) :: rest =>
      odds ← odds_of_counter team_lookup n_simulations counter;
      rest' ← odds_of_conferences team_lookup n_simulations rest;
      Ok ((conference, odds) :: rest')
  end.

(** The statements after the loop: the counts become odds. *)
Definition odds_of_tally (team_lookup : gmap Z string) (n_simulations : Z)
    (counts : tally) : result outputs :=
  championship_odds ←
    odds_of_counter team_lookup n_simulations (champ_counts counts);
  conference_odds ←
    odds_of_conferences team_lookup n_simulations (conference_counts counts);
  let finals_top_10 :=
    map (λ kv : string * Z, (kv.1, (IZR kv.2 / IZR n_simulations)%R))
        (Counter.most_common 10 (finals_counts counts)) in
  Ok (Outputs championship_odds conference_odds finals_top_10).

Definition empty_tally : tally :=
  Tally [] [("East"%string, []); ("West"%string, [])] [].

Definition run_monte_carlo (playoff_field base_ratings : loc) (n_simulations : Z)
    (k_factor home_court_adv : R) (seed : Z) (h : store) : result (outputs * store) :=
  if n_simulations <=? 0 then Err (ValueError "n_simulations must be greater than 0")
  else
    field ← load_field h playoff_field;
    team_lookup ← build_team_lookup field;
    let parent_rng := Random seed in
    '(counts, _, h) ←
      run_trials (Z.to_nat n_simulations) playoff_field base_ratings
        k_factor home_court_adv (empty_tally, parent_rng, h);
    out ← odds_of_tally team_lookup n_simulations counts;
    Ok (out, h).

End run.
End Simulation.

(** ** A generator for examples

    Every draw of [random()] is [0.0], the least value the function can
    return, so the home team wins every game; [randint(a, b)] returns
    [a]. *)
Definition home_always_wins : RandomGen := {|
  rng := unit;
  Random := λ _, tt;
  random := λ _, (0%R, tt);
  randint := λ a _ _, (a, tt)
|}.

(** A generator that reads its draws from a script: the state is the
    number of draws made so far. *)
Definition scripted (draw : nat → R) : RandomGen := {|
  rng := nat;
  Random := λ _, 0%nat;
  random := λ i, (draw i, S i);
  randint := λ a _ i, (a, i)
|}.

(** ** Orders *)

Module Order.

(** A three-way comparison that behaves like one of a total preorder:
    swapping the arguments reverses the result, [Lt] is transitive, and
    arguments that compare [Eq] compare alike with everything. *)
Record order_like {A : Type} (cmp : A → A → comparison) : Prop := {
  cmp_antisym : ∀ a b, cmp b a = CompOpp (cmp a b);
  cmp_lt_trans : ∀ a b c, cmp a b = Lt → cmp b c = Lt → cmp a c = Lt;
  cmp_eq_compat : ∀ a b c, cmp a b = Eq → cmp a c = cmp b c
}.

(** The comparison of pairs: the first components decide unless they
    compare [Eq]. *)
Definition lex {A B : Type} (cmp1 : A → A → comparison) (cmp2 : B → B → comparison)
    (x y : A * B) : comparison :=
  match cmp1 x.1 y.1 with
  | Eq => cmp2 x.2 y.2
  | c => c
  end.

(** [x] may stand in front of [y] in a list sorted by [key]. *)
Definition le_by {A K : Type} (key : A → K) (cmp : K → K → comparison)
    (x y : A) : Prop :=
  cmp (key x) (key y) ≠ Gt.

(** [<] read off a three-way comparison. *)
Definition ltb_of {A : Type} (cmp : A → A → comparison) (a b : A) : bool :=
  match cmp a b with Lt => true | _ => false end.

End Order.

(** ** Notions used to state the properties *)

Module Spec.
Section spec.
Context `{RandomGen}.

(** The rule of the specification for the roles of two series winners:
    the team with the lower seed number is the higher seed of the next
    series; with equal seed numbers the team whose current rating is
    higher is. *)
Definition seed_then_rating (high low : SeededTeam.t) (ratings : gmap Z R) : Prop :=
  SeededTeam.seed high < SeededTeam.seed low
  ∨ (SeededTeam.seed high = SeededTeam.seed low
     ∧ (Bracket.rating_of ratings (SeededTeam.team_id high)
        >= Bracket.rating_of ratings (SeededTeam.team_id low))%R).

(** Roles given by the current ratings alone. *)
Definition rating_only (high low : SeededTeam.t) (ratings : gmap Z R) : Prop :=
  (Bracket.rating_of ratings (SeededTeam.team_id high)
   >= Bracket.rating_of ratings (SeededTeam.team_id low))%R.

(** [compose] plays the series between two winners with roles that
    satisfy [rule]. *)
Definition resolves_by (rule : SeededTeam.t → SeededTeam.t → gmap Z R → Prop)
    (compose : SeededTeam.t → SeededTeam.t → gmap Z R → rng → R → R
               → SeededTeam.t * gmap Z R * rng) : Prop :=
  ∀ (team_a team_b : SeededTeam.t) (ratings : gmap Z R) (g : rng)
    (k_factor home_court_adv : R),
  ∃ high low : SeededTeam.t,
    ((high = team_a ∧ low = team_b) ∨ (high = team_b ∧ low = team_a))
    ∧ rule high low ratings
    ∧ compose team_a team_b ratings g k_factor home_court_adv
      = Bracket._simulate_series high low ratings g k_factor home_court_adv.

(** A conference list in which every seed from 1 to 8 occurs. *)
Definition has_seeds_1_to_8 (teams : list SeededTeam.t) : Prop :=
  Forall (λ s, s ∈ SeededTeam.seed <$> teams) (seqZ 1 8).

(** The invariant of the loop of [_simulate_series]: no side has more
    than four wins, and at most one side has four. *)
Definition series_inv (s : Bracket.series_state) : Prop :=
  0 ≤ Bracket.high_wins s ≤ 4 ∧ 0 ≤ Bracket.low_wins s ≤ 4
  ∧ (Bracket.high_wins s < 4 ∨ Bracket.low_wins s < 4).

Definition undecided (s : Bracket.series_state) : Prop :=
  Bracket.high_wins s < 4 ∧ Bracket.low_wins s < 4.

(** The win counters of a series in which the home team wins every game
    and the two teams have different identifiers. *)
Fixpoint home_wins_loop (schedule : list bool) (wins : Z * Z) : Z * Z :=
  match schedule with
  | [] => wins
  | high_is_home :: rest =>
      if (wins.1 =? 4) || (wins.2 =? 4) then wins
      else home_wins_loop rest
             (if high_is_home then (wins.1 + 1, wins.2) else (wins.1, wins.2 + 1))
  end.

(** The win counters and the number of draws of a series whose games
    are decided by [home_won], a function of the number of the draw and
    of the side that is at home. *)
Fixpoint outcome_loop (schedule : list bool) (home_won : nat → bool → bool)
    (i : nat) (wins : Z * Z) : Z * Z * nat :=
  match schedule with
  | [] => (wins, i)
  | high_is_home :: rest =>
      if (wins.1 =? 4) || (wins.2 =? 4) then (wins, i)
      else outcome_loop rest home_won (S i)
             (if Bool.eqb high_is_home (home_won i high_is_home)
              then (wins.1 + 1, wins.2) else (wins.1, wins.2 + 1))
  end.

End spec.

(** The rows of a conference: those whose conference, with surrounding
    white space removed and put in title case, is the given name. *)
Definition qualifying (conference : string) (standings : list TeamStanding.t)
    : list TeamStanding.t :=
  filter (λ row, Bracket.normalize_conference (TeamStanding.conference row) = conference)
         standings.

(** The order of the specification on standings: descending by win
    percentage, then descending by win count, then ascending by loss
    count, then ascending by team name. *)
Definition ranks_before (a b : TeamStanding.t) : Prop :=
  (TeamStanding.win_pct b < TeamStanding.win_pct a)%Q
  ∨ ((TeamStanding.win_pct a == TeamStanding.win_pct b)%Q
     ∧ (TeamStanding.wins b < TeamStanding.wins a
        ∨ (TeamStanding.wins a = TeamStanding.wins b
           ∧ (TeamStanding.losses a < TeamStanding.losses b
              ∨ (TeamStanding.losses a = TeamStanding.losses b
                 ∧ String.compare (TeamStanding.team_name a) (TeamStanding.team_name b)
                   ≠ Gt))))).

(** The rows that the sort key does not separate from [row]. *)
Abbreviation same_rank row :=
  (λ other, Bracket.key_compare (Bracket.sort_key other) (Bracket.sort_key row) = Eq).

(** [teams] are the seeded teams of [conference] made from the first
    eight rows of [ranked], with seeds 1 to 8 in that order. *)
Definition seeded_from (conference : string) (ranked : list TeamStanding.t)
    (teams : list SeededTeam.t) : Prop :=
  length teams = 8%nat
  ∧ ∀ (i : nat) (t : SeededTeam.t), teams !! i = Some t →
      ∃ row, ranked !! i = Some row
        ∧ SeededTeam.seed t = Z.of_nat i + 1
        ∧ SeededTeam.team_id t = TeamStanding.team_id row
        ∧ SeededTeam.team_name t = TeamStanding.team_name row
        ∧ SeededTeam.conference t = conference.

(** ** The aggregation without a store

    What [run_monte_carlo] computes when every trial is handed the
    entries of the baseline dictionary themselves: no trial can see what
    another one did to its ratings. *)
Section independent.
Context `{RandomGen}.

Definition trial (field : gmap string (list SeededTeam.t)) (baseline : gmap Z R)
    (k_factor home_court_adv : R) (acc : Simulation.tally * rng)
    : result (Simulation.tally * rng * gmap Z R) :=
  let '(counts, parent_rng) := acc in
  let '(sim_seed, parent_rng) := randint 0 (10 ^ 9) parent_rng in
  '(champion, east_champ, west_champ, drifted, _) ←
    Bracket.simulate_playoffs field baseline (Random sim_seed) k_factor home_court_adv;
  counts ← Simulation.record_outcome counts champion east_champ west_champ;
  Ok (counts, parent_rng, drifted).

Fixpoint trials (n : nat) (field : gmap string (list SeededTeam.t))
    (baseline : gmap Z R) (k_factor home_court_adv : R)
    (acc : Simulation.tally * rng) : result (Simulation.tally * rng) :=
  match n with
  | O => Ok acc
  | S n' =>
      '(counts, parent_rng, _) ← trial field baseline k_factor home_court_adv acc;
      trials n' field baseline k_factor home_court_adv (counts, parent_rng)
  end.

Definition independent_trials (field : gmap string (list SeededTeam.t))
    (baseline : gmap Z R) (n_simulations : Z) (k_factor home_court_adv : R)
    (seed : Z) : result Simulation.outputs :=
  if n_simulations <=? 0 then Err (ValueError "n_simulations must be greater than 0")
  else
    team_lookup ← Simulation.build_team_lookup field;
    '(counts, _) ←
      trials (Z.to_nat n_simulations) field baseline k_factor home_court_adv
        (Simulation.empty_tally, Random seed);
    Simulation.odds_of_tally team_lookup n_simulations counts.

End independent.

(** The store holds the field and the baseline dictionary at the two
    locations the caller passes. *)
Definition holds_inputs (playoff_field base_ratings : loc)
    (field : gmap string (list SeededTeam.t)) (baseline : gmap Z R) (h : store) : Prop :=
  h !! playoff_field = Some (FieldObj field)
  ∧ h !! base_ratings = Some (RatingsObj baseline).

(** The tally after [i] trials on a field with the given conference
    lists: every counter has counted [i] outcomes, and its keys are
    identifiers of teams of its conference. *)
Definition tally_inv (east_teams west_teams : list SeededTeam.t) (i : Z)
    (counts : Simulation.tally) : Prop :=
  ∃ east_counter west_counter : Counter.t Z,
    Simulation.conference_counts counts
    = [("East"%string, east_counter); ("West"%string, west_counter)]
    ∧ Counter.total east_counter = i
    ∧ Counter.total west_counter = i
    ∧ Counter.total (Simulation.champ_counts counts) = i
    ∧ east_counter.*1 ⊆ SeededTeam.team_id <$> east_teams
    ∧ west_counter.*1 ⊆ SeededTeam.team_id <$> west_teams
    ∧ (Simulation.champ_counts counts).*1
      ⊆ SeededTeam.team_id <$> (east_teams ++ west_teams)
    ∧ NoDup east_counter.*1
    ∧ NoDup west_counter.*1
    ∧ NoDup (Simulation.champ_counts counts).*1.

(** What a call returns or raises, without the store it leaves. *)
Definition outcome {A : Type} (r : result (A * store)) : result A :=
  match r with
  | Ok (a, _) => Ok a
  | Err e => Err e
  end.

(** [d[key]] of a dictionary kept as an association list. *)
Fixpoint assoc {K V : Type} `{EqDecision K} (key : K) (d : list (K * V)) : option V :=
  match d with
  | [] => None
  | (k, v) :: rest => if decide (key = k) then Some v else assoc key rest
  end.

(** The sum of the probabilities of a dictionary of odds. *)
Definition total_probability (odds : list (Z * (string * R))) : R :=
  foldr (λ entry acc, (entry.2.2 + acc)%R) 0%R odds.

(** The probability of a team, 0 when the dictionary has no entry for
    it. *)
Definition probability_of (odds : list (Z * (string * R))) (team_id : Z) : R :=
  match assoc team_id odds with
  | Some (_, p) => p
  | None => 0%R
  end.

(** The sum of [probability_of] over the teams of a list. *)
Definition total_over_teams (odds : list (Z * (string * R)))
    (teams : list SeededTeam.t) : R :=
  foldr (λ t acc, (probability_of odds (SeededTeam.team_id t) + acc)%R) 0%R teams.

End Spec.

(** ** Example data *)

Module Examples.

(** The field of the tests: team [base + seed] with the name of its
    conference followed by its seed. *)
Definition conference_teams (conference : string) (base : Z) : list SeededTeam.t :=
  (λ seed, SeededTeam.mk (base + seed) (conference +:+ " " +:+ pretty seed)
             conference seed) <$> seqZ 1 8.

(** Standings of a season: ten rows in the East with falling win
    counts, eight in the West, under several spellings of the
    conference, and one row of another league. *)
Definition standing (team_id : Z) (conference : string) (wins : Z) : TeamStanding.t :=
  TeamStanding.mk 2024 team_id ("Team " +:+ pretty team_id) conference wins (82 - wins).

Definition standings : list TeamStanding.t :=
  ((λ i, standing (100 + i) " east " (40 + i)) <$> seqZ 1 10)
  ++ [standing 300 "G League" 60]
  ++ ((λ i, standing (200 + i) "WEST" (30 + 2 * i)) <$> seqZ 1 8).

Definition east_teams : list SeededTeam.t := conference_teams "East" 100.
Definition west_teams : list SeededTeam.t := conference_teams "West" 200.

Definition test_field : gmap string (list SeededTeam.t) :=
  <["East"%string := east_teams]> (<["West"%string := west_teams]> ∅).

(** Ratings that differ between the conferences only: every team of
    the East is rated lower than every team of the West. *)
Definition conference_ratings : gmap Z R :=
  list_to_map (((λ i, (100 + i, 1400%R)) <$> seqZ 1 8)
               ++ ((λ i, (200 + i, 1600%R)) <$> seqZ 1 8)).

(** A script of draws for one run of the bracket: the home team wins
    the 49 games of the East, loses the 49 games of the West, and wins
    the games of the final. *)
Definition upset_draws (i : nat) : R :=
  if (i <? 49)%nat then 0%R else if (i <? 98)%nat then (3 / 4)%R else 0%R.

Definition east_seed (seed : Z) : SeededTeam.t :=
  SeededTeam.mk (100 + seed) ("East " +:+ pretty seed) "East" seed.
Definition west_seed (seed : Z) : SeededTeam.t :=
  SeededTeam.mk (200 + seed) ("West " +:+ pretty seed) "West" seed.

(** A store of the caller: the field at location 1, the baseline
    ratings at location 2. *)
Definition test_store : store :=
  <[1%positive := FieldObj test_field]>
    (<[2%positive := RatingsObj conference_ratings]> ∅).

End Examples.

(** ** Definitions for the further properties *)

#[global] Instance TeamStanding_eq_dec : EqDecision TeamStanding.t.
Proof. solve_decision. Defined.

#[global] Instance SeededTeam_eq_dec : EqDecision SeededTeam.t.
Proof. solve_decision. Defined.

Module More.

(** Two rating dictionaries that agree on every team outside [ids]. *)
Definition agree_except (ids : gset Z) (ratings ratings' : gmap Z R) : Prop :=
  ∀ team_id, team_id ∉ ids → ratings' !! team_id = ratings !! team_id.

(** The sum of the ratings of a list of teams, a team without an entry
    counting with the default of 1500. *)
Definition total_rating (ids : list Z) (ratings : gmap Z R) : R :=
  foldr (λ team_id acc, (Bracket.rating_of ratings team_id + acc)%R) 0%R ids.

(** The ratings of the teams [ids] are redistributed among them:
    every other entry is untouched, and when [ids] lists each team once
    the total of their ratings is kept. *)
Definition conserved (ids : list Z) (ratings ratings' : gmap Z R) : Prop :=
  agree_except (list_to_set ids) ratings ratings'
  ∧ (NoDup ids → total_rating ids ratings' = total_rating ids ratings).

(** A field on which the bracket can be run: both conferences are
    present and each has every seed from 1 to 8. *)
Definition playable (field : gmap string (list SeededTeam.t)) : Prop :=
  ∃ east_teams west_teams,
    field !! "East"%string = Some east_teams
    ∧ field !! "West"%string = Some west_teams
    ∧ Spec.has_seeds_1_to_8 east_teams
    ∧ Spec.has_seeds_1_to_8 west_teams.

(** [t] is the team that the conference list [teams] assigns to its
    seed, a seed from 1 to 8: the last team of the list with that seed. *)
Definition seeded_entry (teams : list SeededTeam.t) (t : SeededTeam.t) : Prop :=
  Bracket.index_by_seed teams !! SeededTeam.seed t = Some t
  ∧ 1 ≤ SeededTeam.seed t ≤ 8.

End More.

(** ** Notions for the counters of the aggregation *)

Module Counts.

(** [counter[key]] read without writing: the count of a key, 0 for a
    key without an entry. *)
Definition count_of {K : Type} `{EqDecision K} (key : K) (counter : Counter.t K) : Z :=
  default 0 (Spec.assoc key counter).

Definition positive_counts {K : Type} (counter : Counter.t K) : Prop :=
  Forall (λ kv, 0 < kv.2) counter.

(** The label under which a final between two conference champions is
    counted. *)
Definition matchup (east_champ west_champ : SeededTeam.t) : string :=
  (SeededTeam.team_name east_champ +:+ " vs " +:+ SeededTeam.team_name west_champ)%string.

(** How often [team_id] is counted as a conference champion, over all
    conferences. *)
Definition conference_count (team_id : Z)
    (conference_counts : list (string * Counter.t Z)) : Z :=
  foldr (λ cc acc, count_of team_id cc.2 + acc) 0 conference_counts.

(** What the counters hold after [i] trials, beyond [Spec.tally_inv]:
    the finals counter has counted [i] finals under labels of an East
    and a West team, no counter has an entry without a count, and no
    team is counted as champion more often than as conference
    champion. *)
Definition counted (east_teams west_teams : list SeededTeam.t) (i : Z)
    (counts : Simulation.tally) : Prop :=
  Counter.total (Simulation.finals_counts counts) = i
  ∧ NoDup (Simulation.finals_counts counts).*1
  ∧ Forall (λ kv : string * Z,
              ∃ east_champ west_champ,
                east_champ ∈ east_teams ∧ west_champ ∈ west_teams
                ∧ kv.1 = matchup east_champ west_champ)
           (Simulation.finals_counts counts)
  ∧ positive_counts (Simulation.champ_counts counts)
  ∧ positive_counts (Simulation.finals_counts counts)
  ∧ Forall (λ cc : string * Counter.t Z, positive_counts cc.2)
           (Simulation.conference_counts counts)
  ∧ ∀ team_id,
      count_of team_id (Simulation.champ_counts counts)
      ≤ conference_count team_id (Simulation.conference_counts counts).

(** The sum of the probabilities of a list of matchups. *)
Definition total_of (entries : list (string * R)) : R :=
  foldr (λ entry acc, (entry.2 + acc)%R) 0%R entries.

(** The entry of an odds dictionary that belongs to an entry of a
    counter. *)
Definition odds_entry (team_lookup : gmap Z string) (n_simulations : Z)
    (kv : Z * Z) (entry : Z * (string * R)) : Prop :=
  entry.1 = kv.1
  ∧ team_lookup !! kv.1 = Some entry.2.1
  ∧ entry.2.2 = (IZR kv.2 / IZR n_simulations)%R.

End Counts.

(** ** models.py: game results

    [game_date] is a naive [datetime], as the storage loads it: the
    instant in microseconds, by which such datetimes compare. *)

Module GameResult.
Record t := mk {
  game_id : Z;
  season : Z;
  game_date : Z;
  home_team_id : Z;
  home_team_name : string;
  away_team_id : Z;
  away_team_name : string;
  home_score : Z;
  away_score : Z;
  postseason : bool
}.
End GameResult.

#[global] Instance GameResult_eq_dec : EqDecision GameResult.t.
Proof. solve_decision. Defined.

(** ** pipeline.py: the ratings of the regular season *)

Module Pipeline.

(** [lambda g: (g.game_date, g.game_id)] *)
Definition game_key (g : GameResult.t) : Z * Z :=
  (GameResult.game_date g, GameResult.game_id g).

(** Comparison of two key tuples, as Python compares tuples. *)
Definition key_compare : Z * Z → Z * Z → comparison := Order.lex Z.compare Z.compare.

Definition key_lt : Z * Z → Z * Z → bool := Order.ltb_of key_compare.

(** The body of the loop over the games: both ratings are read, with
    1500 for a team without an entry, and the two results of
    [update_elo] are stored, the one of the home team first. *)
Definition rate_game (k_factor home_court_adv : R) (ratings : gmap Z R)
    (game : GameResult.t) : gmap Z R :=
  let home_elo := default 1500%R (ratings !! GameResult.home_team_id game) in
  let away_elo := default 1500%R (ratings !! GameResult.away_team_id game) in
  let home_won := GameResult.away_score game <? GameResult.home_score game in
  let '(new_home, new_away) :=
    Elo.update_elo home_elo away_elo home_won k_factor home_court_adv in
  <[GameResult.away_team_id game := new_away]>
    (<[GameResult.home_team_id game := new_home]> ratings).

Definition build_regular_season_ratings (games : list GameResult.t)
    (k_factor home_court_adv : R) : gmap Z R :=
  foldl (rate_game k_factor home_court_adv) ∅ (Py.sorted game_key key_lt games).

(** The teams of a list of games. *)
Definition teams_of (games : list GameResult.t) : gset Z :=
  list_to_set (games ≫= λ g, [GameResult.home_team_id g; GameResult.away_team_id g]).

(** No game of the list is between a team and itself. *)
Definition two_sided (games : list GameResult.t) : Prop :=
  Forall (λ g, GameResult.home_team_id g ≠ GameResult.away_team_id g) games.

(** No two different games of the list have the same date and the same
    identifier. *)
Definition distinct_keys (games : list GameResult.t) : Prop :=
  ∀ x y, x ∈ games → y ∈ games → game_key x = game_key y → x = y.

Section season.
Context `{RandomGen}.

(** The statements of [run_daily_pipeline] between the loading of the
    rows and the writing of the results: the ratings are built from the
    games, the field from the standings, and both objects are handed to
    [run_monte_carlo]. *)
Definition simulate_season (games : list GameResult.t) (standings : list TeamStanding.t)
    (n_simulations : Z) (k_factor home_court_adv : R) (seed : Z)
    : result Simulation.outputs :=
  let ratings := build_regular_season_ratings games k_factor home_court_adv in
  let h : store := {[ 1%positive := RatingsObj ratings ]} in
  field ← Bracket.build_playoff_field standings;
  let h := <[2%positive := FieldObj field]> h in
  Spec.outcome
    (Simulation.run_monte_carlo 2%positive 1%positive n_simulations
       k_factor home_court_adv seed h).

End season.

(** Three games of one evening and the next, listed out of order. *)
Definition example_games : list GameResult.t :=
  [ GameResult.mk 12 2024 200 3 "Cranes" 1 "Aces" 98 104 false;
    GameResult.mk 10 2024 100 1 "Aces" 2 "Bears" 110 101 false;
    GameResult.mk 11 2024 100 2 "Bears" 3 "Cranes" 95 95 false ]%string.

End Pipeline.

(** ** Notions for conference labels *)

Module Labels.

(** [s.lower()] on ASCII. *)
Fixpoint lower_string (s : string) : string :=
  match s with
  | EmptyString => EmptyString
  | String c rest => String (Py.lower c) (lower_string rest)
  end.

(** A word of lower-case letters. *)
Fixpoint all_lower (w : string) : bool :=
  match w with
  | EmptyString => true
  | String c rest => Py.islower c && all_lower rest
  end.

(** A capital letter: the characters that [title] puts into it at the
    start of a word are the cased ones that [lower] sends to its small
    letter. *)
Definition capital (d : ascii) : Prop :=
  ∀ c, (Py.upper c = d ↔ Py.lower c = Py.lower d)
       ∧ (Py.upper c = d → Py.iscased c = true).

End Labels.

(** ** Notions for ratings that read alike *)

Module Agreement.

(** Two rating dictionaries from which the teams [ids] read the same
    ratings, a team without an entry reading 1500. *)
Definition agree_on (ids : list Z) (ratings1 ratings2 : gmap Z R) : Prop :=
  ∀ team_id, team_id ∈ ids →
    Bracket.rating_of ratings1 team_id = Bracket.rating_of ratings2 team_id.

(** The identifiers of the teams of a field. *)
Definition field_ids (field : gmap string (list SeededTeam.t)) : list Z :=
  SeededTeam.team_id
  <$> (default [] (field !! "East"%string) ++ default [] (field !! "West"%string)).

Section related.
Context `{RandomGen}.

(** Two states of a series that differ at most in ratings that the
    teams [ids] do not read. *)
Definition related (ids : list Z) (s1 s2 : Bracket.series_state) : Prop :=
  Bracket.high_wins s1 = Bracket.high_wins s2
  ∧ Bracket.low_wins s1 = Bracket.low_wins s2
  ∧ Bracket.cur_rng s1 = Bracket.cur_rng s2
  ∧ agree_on ids (Bracket.cur_ratings s1) (Bracket.cur_ratings s2).

(** Two results of a series with the same winner and generator. *)
Definition same_series (ids : list Z) (x1 x2 : SeededTeam.t * gmap Z R * rng) : Prop :=
  x1.1.1 = x2.1.1 ∧ x1.2 = x2.2 ∧ agree_on ids x1.1.2 x2.1.2.

(** Two outcomes of a bracket that are the same exception, or results
    with the same winner and generator. *)
Definition same_bracket (ids : list Z)
    (x1 x2 : result (SeededTeam.t * gmap Z R * rng)) : Prop :=
  match x1, x2 with
  | Ok y1, Ok y2 => same_series ids y1 y2
  | Err e1, Err e2 => e1 = e2
  | _, _ => False
  end.

(** What [simulate_playoffs] returns or raises, without the ratings it
    leaves. *)
Definition verdict
    (x : result (SeededTeam.t * SeededTeam.t * SeededTeam.t * gmap Z R * rng))
    : result (SeededTeam.t * SeededTeam.t * SeededTeam.t * rng) :=
  match x with
  | Ok (champion, east_champ, west_champ, _, g) => Ok (champion, east_champ, west_champ, g)
  | Err e => Err e
  end.

End related.

(** A second store of a caller: the field of the tests at location 5,
    and at location 7 the ratings of the tests with an entry for a team
    that is not in the field. *)
Definition other_ratings : gmap Z R := <[999 := 1234%R]> Examples.conference_ratings.

Definition other_store : store :=
  <[5%positive := FieldObj Examples.test_field]>
    (<[7%positive := RatingsObj other_ratings]> ∅).

End Agreement.

(** ** Notions for the rounds of the bracket *)

Module Rounds.
Section rounds.
Context `{RandomGen}.

(** What a series leaves: its winner, the rating dictionary and the
    generator. *)
Local Abbreviation series_result := (SeededTeam.t * gmap Z R * rng)%type.





End rounds.
End Rounds.

(** ** elo.py in binary64

    [expected_home_win_prob] on the floats of the machine: [+], [-] and
    [/] are the operations of IEEE 754 binary64 (Rocq's primitive
    floats), [/] raises [ZeroDivisionError] on a zero divisor, and
    [10.0 ** y] is [float_pow] of CPython: its special cases are decided
    before the C library is asked, and an infinite result of the
    library's [pow] on finite operands is the range error that becomes
    [OverflowError].  The library's [pow] itself is a parameter. *)

Module Binary64.
Import PrimFloat.
Local Open Scope float_scope.

Inductive arith_error := OverflowError | ZeroDivisionError.

Inductive outcome :=
  | Returns (x : float)
  | Raises (e : arith_error).

(** [pow] of the C library. *)
Class Libm := { libm_pow : float → float → float }.


Section elo.
Context `{Libm}.

(** [10.0 ** iw] *)
Definition pow10 (iw : float) : outcome :=
  if iw =? 0 then Returns 1
  else if is_nan iw then Returns iw
  else if is_infinity iw then Returns (if 0 <? iw then infinity else 0)
  else
    let ix := libm_pow 10 iw in
    if is_infinity ix then Raises OverflowError else Returns ix.

(** [x / y] *)
Definition truediv (x y : float) : outcome :=
  if y =? 0 then Raises ZeroDivisionError else Returns (x / y).

Definition expected_home_win_prob (home_elo away_elo home_court_adv : float) : outcome :=
  let adjusted_home := home_elo + home_court_adv in
  let exponent := (away_elo - adjusted_home) / 400 in
  match pow10 exponent with
  | Returns power => truediv 1 (1 + power)
  | Raises e => Raises e
  end.

End elo.


(** Arguments of the examples. *)
Definition rating_1500 : float := 1500.
Definition rating_0 : float := 0.
Definition rating_10000 : float := 10000.
Definition rating_200000 : float := 200000.
Definition no_advantage : float := 0.
(** 2 ** -60, less than half the distance from 1500.0 to the next float. *)
Definition absorbed_advantage : float := 0x1p-60.
(** 2 ** 1023, a finite float whose double is infinite. *)
Definition huge : float := 0x1p1023.
Definition one_half : float := 0.5.
Definition ten : float := 10.
Definition minus_25 : float := -25.
(** The double nearest to 10 ** -25. *)
Definition power_minus_25 : float := 0x1.ef2d0f5da7dd9p-84.
Definition plus_500 : float := 500.

End Binary64.

(** ** Ranges of ratings *)

Module Ranges.


End Ranges.

(* ================================================================= *)
(** * Properties *)

(** ** Facts about elo.py *)

Section elo_facts.
Local Open Scope R_scope.
Import Elo.

Lemma Rpower_pos (x y : R) : 0 < Rpower x y.
Proof. unfold Rpower. apply exp_pos. Qed.

Lemma Rpower_10_neg (y : R) : y < 0 → Rpower 10 y < 1.
Proof.
  intros Hy. rewrite <- (Rpower_O 10) by lra.
  apply Rpower_lt; lra.
Qed.

Lemma inv_one_plus_bounds (e : R) : 0 < e → 0 < 1 / (1 + e) < 1.
Proof.
  intros He. split.
  - apply Rdiv_lt_0_compat; lra.
  - apply Rmult_lt_reg_r with (1 + e); [lra|].
    unfold Rdiv. rewrite Rmult_assoc, Rinv_l by lra. lra.
Qed.

Lemma inv_one_plus_half (e : R) : 0 < e → e < 1 → 1 / 2 < 1 / (1 + e).
Proof.
  intros He0 He1. unfold Rdiv. rewrite !Rmult_1_l.
  apply Rinv_lt_contravar; [|lra].
  apply Rmult_lt_0_compat; lra.
Qed.

Lemma expected_home_win_prob_range (h a adv : R) :
  0 < expected_home_win_prob h a adv < 1.
Proof. apply inv_one_plus_bounds, Rpower_pos. Qed.
End elo_facts.

(** ** Theorems about elo.py *)

(** C2: [update_elo] conserves the total rating: the two returned ratings
    add up to the two ratings it was given, for every outcome, k-factor
    and home-court advantage (in exact arithmetic). *)
Theorem update_elo_conserves_total (home_elo away_elo : R) (home_won : bool)
    (k_factor home_court_adv : R) :
  let '(new_home, new_away) :=
    Elo.update_elo home_elo away_elo home_won k_factor home_court_adv in
  (new_home + new_away = home_elo + away_elo)%R.
Proof. unfold Elo.update_elo. cbv zeta. lra. Qed.




(** With any library: the value at equal ratings and an absorbed
    advantage is one half. *)
Example binary64_one_half `{Binary64.Libm} :
  Binary64.expected_home_win_prob Binary64.rating_1500 Binary64.rating_1500
    Binary64.absorbed_advantage
  = Binary64.Returns Binary64.one_half.
Proof. reflexivity. Qed.

(** With any library: finite ratings whose difference is infinite give
    exactly 1.0 and exactly 0.0. *)
Example binary64_exactly_one `{Binary64.Libm} :
  Binary64.expected_home_win_prob Binary64.huge (PrimFloat.opp Binary64.huge)
    Binary64.no_advantage
  = Binary64.Returns PrimFloat.one
  ∧ Binary64.expected_home_win_prob (PrimFloat.opp Binary64.huge) Binary64.huge
      Binary64.no_advantage
    = Binary64.Returns PrimFloat.zero.
Proof. split; reflexivity. Qed.

(** With a library whose [pow] gives the double nearest to 10 ** -25:
    a home team rated 10000 points above the visitor gets exactly 1.0,
    the power being absorbed by the sum. *)
Example binary64_absorbed_power `{Binary64.Libm} :
  Binary64.libm_pow Binary64.ten Binary64.minus_25 = Binary64.power_minus_25 →
  Binary64.expected_home_win_prob Binary64.rating_10000 Binary64.rating_0
    Binary64.no_advantage
  = Binary64.Returns PrimFloat.one.
Proof.
  intros Hpow. cbv - [Binary64.libm_pow] in Hpow |- *. rewrite Hpow. reflexivity.
Qed.

(** When the library reports the overflow of 10 ** 500, the call with
    a visitor rated 200000 points above the home team raises
    [OverflowError]. *)
Example binary64_overflow `{Binary64.Libm} :
  Binary64.libm_pow Binary64.ten Binary64.plus_500 = PrimFloat.infinity →
  Binary64.expected_home_win_prob Binary64.rating_0 Binary64.rating_200000
    Binary64.no_advantage
  = Binary64.Raises Binary64.OverflowError.
Proof.
  intros Hpow. cbv - [Binary64.libm_pow] in Hpow |- *. rewrite Hpow. reflexivity.
Qed.

(** ** The series simulator *)

Section series_facts.
Context `{RandomGen}.
Import Bracket Spec.

Variables (high_seed low_seed : SeededTeam.t) (k_factor home_court_adv : R).

Local Abbreviation play := (play_game high_seed low_seed k_factor home_court_adv).
Local Abbreviation loop := (series_loop high_seed low_seed k_factor home_court_adv).

(** A game adds one win to exactly one side. *)
Lemma play_game_wins (b : bool) (s : series_state) :
  (high_wins (play b s) = high_wins s + 1 ∧ low_wins (play b s) = low_wins s)
  ∨ (high_wins (play b s) = high_wins s ∧ low_wins (play b s) = low_wins s + 1).
Proof.
  unfold play_game.
  destruct (random (cur_rng s)) as [draw g].
  destruct (Elo.update_elo _ _ _ _ _) as [new_home new_away].
  match goal with |- context [if ?c then _ else _] => destruct c end;
    simpl; [left | right]; done.
Qed.

Lemma series_loop_decided (schedule : list bool) (s : series_state) :
  high_wins s = 4 ∨ low_wins s = 4 → loop schedule s = s.
Proof.
  intros Hs. destruct schedule as [|b rest]; [done|]. simpl.
  destruct (high_wins s =? 4) eqn:Hh; [done|].
  destruct (low_wins s =? 4) eqn:Hl; [done|]. lia.
Qed.

Lemma series_loop_undecided (b : bool) (rest : list bool) (s : series_state) :
  undecided s → loop (b :: rest) s = loop rest (play b s).
Proof.
  intros [Hh Hl]. simpl.
  destruct (high_wins s =? 4) eqn:Eh; [lia|].
  destruct (low_wins s =? 4) eqn:El; [lia|]. done.
Qed.

Lemma play_game_inv (b : bool) (s : series_state) :
  series_inv s → undecided s → series_inv (play b s).
Proof.
  intros (Hh & Hl & _) [Hh4 Hl4]. unfold series_inv.
  destruct (play_game_wins b s) as [[-> ->]|[-> ->]]; lia.
Qed.

(** The loop over any schedule, from any undecided or just decided
    state: it plays [games] games, one per slot and without a gap, and
    stops early only when a side has four wins. *)
Lemma series_loop_games (schedule : list bool) (s : series_state) :
  series_inv s →
  ∃ games : nat,
    (games ≤ length schedule)%nat
    ∧ loop (take games schedule) s = loop schedule s
    ∧ (∀ j : nat, (j < games)%nat →
         undecided (loop (take j schedule) s)
         ∧ high_wins (loop (take j schedule) s) + low_wins (loop (take j schedule) s)
           = high_wins s + low_wins s + Z.of_nat j)
    ∧ high_wins (loop schedule s) + low_wins (loop schedule s)
      = high_wins s + low_wins s + Z.of_nat games
    ∧ series_inv (loop schedule s)
    ∧ ((games < length schedule)%nat →
       high_wins (loop schedule s) = 4 ∨ low_wins (loop schedule s) = 4).
Proof.
  revert s. induction schedule as [|b rest IH]; intros s Hinv.
  - exists 0%nat. simpl. split; [lia|]. split; [done|].
    split; [intros j Hj; lia|]. split; [lia|]. split; [done | lia].
  - destruct (decide (undecided s)) as [Hu|Hd].
    + destruct (IH (play b s) (play_game_inv b s Hinv Hu))
        as (games & Hle & Hpre & Hearly & Hsum & Hfin & Hstop).
      exists (S games). rewrite !series_loop_undecided by done.
      cbn [take length]. rewrite series_loop_undecided by done.
      split; [lia|]. split; [done|]. split; [|split; [|split; [done|]]].
      * intros [|j] Hj.
        -- simpl. split; [done | lia].
        -- cbn [take]. rewrite series_loop_undecided by done.
           destruct (Hearly j) as [Hu' Hs']; [lia|]. split; [done|].
           rewrite Hs'. destruct (play_game_wins b s) as [[-> ->]|[-> ->]]; lia.
      * rewrite Hsum. destruct (play_game_wins b s) as [[-> ->]|[-> ->]]; lia.
      * intros Hlt. apply Hstop. lia.
    + assert (high_wins s = 4 ∨ low_wins s = 4) as Hfour.
      { unfold undecided in Hd. destruct Hinv as (? & ? & ?). lia. }
      exists 0%nat. rewrite !series_loop_decided by done.
      split; [lia|]. split; [done|]. split; [intros j Hj; lia|].
      split; [lia|]. split; done.
Qed.

End series_facts.

(** C7: a call of the series simulator plays at most 7 games, one per
    slot of the schedule from the first on; neither side has 4 wins
    before any game that is played; when the loop ends one side has
    exactly 4 wins and the other fewer, and that side is returned. *)
Theorem simulate_series_best_of_seven `{RandomGen}
    (high_seed low_seed : SeededTeam.t) (ratings : gmap Z R) (g : rng)
    (k_factor home_court_adv : R) :
  let after (j : nat) :=
    Bracket.series_loop high_seed low_seed k_factor home_court_adv
      (take j Bracket.schedule_high_home) (Bracket.SeriesState 0 0 ratings g) in
  let final := Bracket.series_final high_seed low_seed ratings g k_factor home_court_adv in
  let winner :=
    (Bracket._simulate_series high_seed low_seed ratings g k_factor home_court_adv).1.1 in
  ∃ games : nat,
    (games ≤ 7)%nat
    ∧ after games = final
    ∧ (∀ j : nat, (j < games)%nat →
         Bracket.high_wins (after j) < 4 ∧ Bracket.low_wins (after j) < 4
         ∧ Bracket.high_wins (after j) + Bracket.low_wins (after j) = Z.of_nat j)
    ∧ Bracket.high_wins final + Bracket.low_wins final = Z.of_nat games
    ∧ ((winner = high_seed ∧ Bracket.high_wins final = 4 ∧ 0 ≤ Bracket.low_wins final < 4)
       ∨ (winner = low_seed ∧ Bracket.low_wins final = 4 ∧ 0 ≤ Bracket.high_wins final < 4)).
Proof.
  intros after final winner. subst winner final.
  unfold Bracket._simulate_series, Bracket.series_final. cbn [fst].
  destruct (series_loop_games high_seed low_seed k_factor home_court_adv
              Bracket.schedule_high_home (Bracket.SeriesState 0 0 ratings g))
    as (games & Hle & Hpre & Hearly & Hsum & (Hh & Hl & Hnot) & Hstop).
  { unfold Spec.series_inv. simpl. lia. }
  set (final := Bracket.series_loop _ _ _ _ Bracket.schedule_high_home _) in *.
  simpl in Hle, Hsum, Hstop.
  exists games. split; [done|]. split; [done|]. split.
  { intros j Hj. destruct (Hearly j Hj) as [[? ?] Hs]. simpl in Hs.
    subst after. cbv beta. lia. }
  split; [lia|].
  assert (Bracket.high_wins final = 4 ∨ Bracket.low_wins final = 4) as Hfour.
  { destruct (decide (games < 7)%nat) as [Hlt|Hge]; [by apply Hstop | lia]. }
  destruct (Bracket.high_wins final >? Bracket.low_wins final) eqn:Hcmp; [left | right];
    (split; [done | lia]).
Qed.

(** ** Home-court resolution between winners *)

Section home_court_facts.
Context `{RandomGen}.
Import Bracket.

Lemma Rgeb_true (x y : R) : Rgeb x y = true ↔ (x >= y)%R.
Proof. unfold Rgeb. destruct (Rge_dec x y); split; done. Qed.

Lemma Rgeb_false (x y : R) : Rgeb x y = false ↔ (x < y)%R.
Proof.
  unfold Rgeb. destruct (Rge_dec x y); split; try done; intros; lra.
Qed.

Lemma series_with_home_court_resolves :
  Spec.resolves_by Spec.seed_then_rating _series_with_home_court.
Proof.
  intros a b ratings g k adv. unfold _series_with_home_court, Spec.seed_then_rating.
  destruct (SeededTeam.seed a <? SeededTeam.seed b) eqn:Hab.
  { exists a, b. split; [by left|]. split; [left; lia | done]. }
  destruct (SeededTeam.seed b <? SeededTeam.seed a) eqn:Hba.
  { exists b, a. split; [by right|]. split; [left; lia | done]. }
  assert (SeededTeam.seed a = SeededTeam.seed b) as Heq by lia.
  destruct (Rgeb _ _) eqn:Hr.
  - exists a, b. apply Rgeb_true in Hr. split; [by left|]. split; [by right | done].
  - exists b, a. apply Rgeb_false in Hr. split; [by right|].
    split; [right; split; [done | lra] | done].
Qed.

Lemma finals_series_resolves : Spec.resolves_by Spec.rating_only finals_series.
Proof.
  intros east west ratings g k adv. unfold finals_series, Spec.rating_only. cbv zeta.
  destruct (Rgeb _ _) eqn:Hr.
  - exists east, west. apply Rgeb_true in Hr. split; [by left | done].
  - exists west, east. apply Rgeb_false in Hr. split; [by right|]. split; [lra | done].
Qed.

End home_court_facts.

(** ** Series in which the home team wins every game *)

Section home_always_wins_facts.
Import Bracket.
Local Existing Instance home_always_wins.

Variables (high_seed low_seed : SeededTeam.t) (k_factor home_court_adv : R).
Hypothesis distinct : SeededTeam.team_id high_seed ≠ SeededTeam.team_id low_seed.

Lemma Rltb_zero_prob (h a adv : R) :
  Rltb 0 (Elo.expected_home_win_prob h a adv) = true.
Proof.
  unfold Rltb. destruct (Rlt_dec _ _) as [|Hn]; [done|].
  destruct Hn. apply expected_home_win_prob_range.
Qed.




End home_always_wins_facts.


(** ** The bracket runner *)

Section bracket_facts.
Context `{RandomGen}.
Import Bracket.

Lemma getitem_Some `{Countable K} {V} (d : gmap K V) (k : K) (v : V) :
  d !! k = Some v → getitem d k = Ok v.
Proof. intros Hk. unfold getitem. by rewrite Hk. Qed.

Lemma index_by_seed_acc (teams : list SeededTeam.t) (acc : gmap Z SeededTeam.t)
    (s : Z) (t : SeededTeam.t) :
  foldl (λ by_seed t, <[SeededTeam.seed t := t]> by_seed) acc teams !! s = Some t →
  (t ∈ teams ∧ SeededTeam.seed t = s) ∨ acc !! s = Some t.
Proof.
  revert acc. induction teams as [|t' teams IH]; intros acc Hs; [by right|].
  cbn [foldl] in Hs. destruct (IH _ Hs) as [[Hin Hseed]|Hacc].
  - left. split; [by apply list_elem_of_further | done].
  - destruct (decide (SeededTeam.seed t' = s)) as [<-|Hne].
    + rewrite lookup_insert_eq in Hacc. injection Hacc as <-.
      left. split; [apply list_elem_of_here | done].
    + rewrite lookup_insert_ne in Hacc by done. by right.
Qed.

Lemma index_by_seed_present (teams : list SeededTeam.t) (acc : gmap Z SeededTeam.t)
    (s : Z) :
  s ∈ SeededTeam.seed <$> teams ∨ is_Some (acc !! s) →
  is_Some (foldl (λ by_seed t, <[SeededTeam.seed t := t]> by_seed) acc teams !! s).
Proof.
  revert acc. induction teams as [|t' teams IH]; intros acc Hs.
  - destruct Hs as [Hin|Hacc]; [|done]. by apply elem_of_nil in Hin.
  - cbn [foldl]. apply IH. rewrite fmap_cons in Hs.
    destruct (decide (SeededTeam.seed t' = s)) as [<-|Hne].
    + right. rewrite lookup_insert_eq. by eexists.
    + destruct Hs as [Hin|Hacc].
      * left. apply elem_of_cons in Hin as [Heq|Hin]; [congruence | done].
      * right. by rewrite lookup_insert_ne.
Qed.

(** Every seed from 1 to 8 has an entry in [by_seed], and the entry is a
    team of the list. *)
Lemma index_by_seed_seeded (teams : list SeededTeam.t) (s : Z) :
  Spec.has_seeds_1_to_8 teams → 1 ≤ s ≤ 8 →
  ∃ t, index_by_seed teams !! s = Some t ∧ t ∈ teams.
Proof.
  intros Hseeds Hs. unfold Spec.has_seeds_1_to_8 in Hseeds.
  rewrite Forall_forall in Hseeds.
  destruct (index_by_seed_present teams ∅ s) as [t Ht].
  { left. apply Hseeds. apply elem_of_seqZ. lia. }
  exists t. split; [done|].
  destruct (index_by_seed_acc teams ∅ s t Ht) as [[Hin _]|Hempty]; [done|].
  by rewrite lookup_empty in Hempty.
Qed.

Lemma simulate_series_winner (high_seed low_seed : SeededTeam.t) (ratings : gmap Z R)
    (g : rng) (k_factor home_court_adv : R) :
  (_simulate_series high_seed low_seed ratings g k_factor home_court_adv).1.1 = high_seed
  ∨ (_simulate_series high_seed low_seed ratings g k_factor home_court_adv).1.1 = low_seed.
Proof.
  unfold _simulate_series. cbn [fst].
  destruct (_ >? _); [by left | by right].
Qed.

Lemma series_with_home_court_winner (team_a team_b : SeededTeam.t) (ratings : gmap Z R)
    (g : rng) (k_factor home_court_adv : R) :
  (_series_with_home_court team_a team_b ratings g k_factor home_court_adv).1.1 = team_a
  ∨ (_series_with_home_court team_a team_b ratings g k_factor home_court_adv).1.1 = team_b.
Proof.
  destruct (series_with_home_court_resolves team_a team_b ratings g k_factor home_court_adv)
    as (high & low & Hroles & _ & ->).
  destruct (simulate_series_winner high low ratings g k_factor home_court_adv) as [->| ->];
    destruct Hroles as [[-> ->]|[-> ->]]; auto.
Qed.

Lemma finals_series_winner (east west : SeededTeam.t) (ratings : gmap Z R)
    (g : rng) (k_factor home_court_adv : R) :
  (finals_series east west ratings g k_factor home_court_adv).1.1 = east
  ∨ (finals_series east west ratings g k_factor home_court_adv).1.1 = west.
Proof.
  destruct (finals_series_resolves east west ratings g k_factor home_court_adv)
    as (high & low & Hroles & _ & ->).
  destruct (simulate_series_winner high low ratings g k_factor home_court_adv) as [->| ->];
    destruct Hroles as [[-> ->]|[-> ->]]; auto.
Qed.

(** The bracket of a conference with seeds 1 to 8 runs to its end, and
    its champion is one of the teams of the conference. *)
Lemma conference_bracket_champion (playoff_field : gmap string (list SeededTeam.t))
    (conference : string) (teams : list SeededTeam.t) (ratings : gmap Z R) (g : rng)
    (k_factor home_court_adv : R) :
  playoff_field !! conference = Some teams →
  Spec.has_seeds_1_to_8 teams →
  ∃ champ ratings' g',
    conference_bracket playoff_field conference ratings g k_factor home_court_adv
    = Ok (champ, ratings', g')
    ∧ champ ∈ teams.
Proof.
  intros Hteams Hseeds. unfold conference_bracket.
  rewrite (getitem_Some _ _ _ Hteams). cbn [mbind result_bind].
  destruct (index_by_seed_seeded teams 1 Hseeds) as (s1 & E1 & I1); [lia|].
  destruct (index_by_seed_seeded teams 2 Hseeds) as (s2 & E2 & I2); [lia|].
  destruct (index_by_seed_seeded teams 3 Hseeds) as (s3 & E3 & I3); [lia|].
  destruct (index_by_seed_seeded teams 4 Hseeds) as (s4 & E4 & I4); [lia|].
  destruct (index_by_seed_seeded teams 5 Hseeds) as (s5 & E5 & I5); [lia|].
  destruct (index_by_seed_seeded teams 6 Hseeds) as (s6 & E6 & I6); [lia|].
  destruct (index_by_seed_seeded teams 7 Hseeds) as (s7 & E7 & I7); [lia|].
  destruct (index_by_seed_seeded teams 8 Hseeds) as (s8 & E8 & I8); [lia|].
  rewrite (getitem_Some _ _ _ E1), (getitem_Some _ _ _ E8). cbn [mbind result_bind].
  pose proof (simulate_series_winner s1 s8 ratings g k_factor home_court_adv) as W1.
  destruct (_simulate_series s1 s8 _ _ _ _) as [[qf1 r1] g1]. cbn [fst] in W1.
  rewrite (getitem_Some _ _ _ E4), (getitem_Some _ _ _ E5). cbn [mbind result_bind].
  pose proof (simulate_series_winner s4 s5 r1 g1 k_factor home_court_adv) as W2.
  destruct (_simulate_series s4 s5 _ _ _ _) as [[qf2 r2] g2]. cbn [fst] in W2.
  rewrite (getitem_Some _ _ _ E2), (getitem_Some _ _ _ E7). cbn [mbind result_bind].
  pose proof (simulate_series_winner s2 s7 r2 g2 k_factor home_court_adv) as W3.
  destruct (_simulate_series s2 s7 _ _ _ _) as [[qf3 r3] g3]. cbn [fst] in W3.
  rewrite (getitem_Some _ _ _ E3), (getitem_Some _ _ _ E6). cbn [mbind result_bind].
  pose proof (simulate_series_winner s3 s6 r3 g3 k_factor home_court_adv) as W4.
  destruct (_simulate_series s3 s6 _ _ _ _) as [[qf4 r4] g4]. cbn [fst] in W4.
  pose proof (series_with_home_court_winner qf1 qf2 r4 g4 k_factor home_court_adv) as W5.
  destruct (_series_with_home_court qf1 qf2 _ _ _ _) as [[sf1 r5] g5]. cbn [fst] in W5.
  pose proof (series_with_home_court_winner qf3 qf4 r5 g5 k_factor home_court_adv) as W6.
  destruct (_series_with_home_court qf3 qf4 _ _ _ _) as [[sf2 r6] g6]. cbn [fst] in W6.
  pose proof (series_with_home_court_winner sf1 sf2 r6 g6 k_factor home_court_adv) as W7.
  destruct (_series_with_home_court sf1 sf2 _ _ _ _) as [[champ r7] g7]. cbn [fst] in W7.
  exists champ, r7, g7. split; [done|].
  assert (qf1 ∈ teams) by (destruct W1 as [->| ->]; done).
  assert (qf2 ∈ teams) by (destruct W2 as [->| ->]; done).
  assert (qf3 ∈ teams) by (destruct W3 as [->| ->]; done).
  assert (qf4 ∈ teams) by (destruct W4 as [->| ->]; done).
  assert (sf1 ∈ teams) by (destruct W5 as [->| ->]; done).
  assert (sf2 ∈ teams) by (destruct W6 as [->| ->]; done).
  destruct W7 as [->| ->]; done.
Qed.

End bracket_facts.

(** [simulate_playoffs] runs to its end on a field with seeds 1 to 8 in
    both conferences. *)
Lemma simulate_playoffs_total `{RandomGen}
    (playoff_field : gmap string (list SeededTeam.t))
    (east_teams west_teams : list SeededTeam.t)
    (ratings : gmap Z R) (g : rng) (k_factor home_court_adv : R) :
  playoff_field !! "East"%string = Some east_teams →
  playoff_field !! "West"%string = Some west_teams →
  Spec.has_seeds_1_to_8 east_teams →
  Spec.has_seeds_1_to_8 west_teams →
  ∃ champion east_champ west_champ ratings' g',
    Bracket.simulate_playoffs playoff_field ratings g k_factor home_court_adv
    = Ok (champion, east_champ, west_champ, ratings', g')
    ∧ east_champ ∈ east_teams
    ∧ west_champ ∈ west_teams
    ∧ (champion = east_champ ∨ champion = west_champ).
Proof.
  intros HE HW SE SW. unfold Bracket.simulate_playoffs. cbn [foldl mbind result_bind].
  destruct (conference_bracket_champion playoff_field "East" east_teams ratings g
              k_factor home_court_adv HE SE) as (east & r1 & g1 & -> & Heast).
  cbn [mbind result_bind].
  destruct (conference_bracket_champion playoff_field "West" west_teams r1 g1
              k_factor home_court_adv HW SW) as (west & r2 & g2 & -> & Hwest).
  cbn [mbind result_bind].
  rewrite (getitem_Some _ "East"%string east), (getitem_Some _ "West"%string west);
    [| by rewrite lookup_insert_eq | by rewrite lookup_insert_ne, lookup_insert_eq].
  cbn [mbind result_bind].
  pose proof (finals_series_winner east west r2 g2 k_factor home_court_adv) as Hchamp.
  destruct (Bracket.finals_series east west _ _ _ _) as [[champion r3] g3].
  cbn [fst] in Hchamp.
  exists champion, east, west, r3, g3. done.
Qed.

(** ** The rounds of the bracket *)

Section round_facts.
Context `{RandomGen}.
Import Bracket.




End round_facts.



(** C10: on a field whose East and West lists each hold every seed from 1
    to 8, [simulate_playoffs] returns, and in the triple it returns the
    East champion is a team of the East list, the West champion a team
    of the West list, and the champion is one of these two. *)
Theorem simulate_playoffs_champions `{RandomGen}
    (playoff_field : gmap string (list SeededTeam.t))
    (east_teams west_teams : list SeededTeam.t)
    (ratings : gmap Z R) (g : rng) (k_factor home_court_adv : R) :
  playoff_field !! "East"%string = Some east_teams →
  playoff_field !! "West"%string = Some west_teams →
  Spec.has_seeds_1_to_8 east_teams →
  Spec.has_seeds_1_to_8 west_teams →
  ∃ champion east_champ west_champ ratings' g',
    Bracket.simulate_playoffs playoff_field ratings g k_factor home_court_adv
    = Ok (champion, east_champ, west_champ, ratings', g')
    ∧ east_champ ∈ east_teams
    ∧ west_champ ∈ west_teams
    ∧ (champion = east_champ ∨ champion = west_champ).
Proof.
  intros HE HW SE SW.
  exact (simulate_playoffs_total playoff_field east_teams west_teams ratings g
           k_factor home_court_adv HE HW SE SW).
Qed.

Lemma simulate_playoffs_champions_witness :
  (Examples.test_field !! "East"%string = Some Examples.east_teams
   ∧ Examples.test_field !! "West"%string = Some Examples.west_teams
   ∧ Spec.has_seeds_1_to_8 Examples.east_teams
   ∧ Spec.has_seeds_1_to_8 Examples.west_teams)
  ∧ ∃ champion east_champ west_champ ratings' g',
      @Bracket.simulate_playoffs home_always_wins Examples.test_field ∅ tt 20%R 65%R
      = Ok (champion, east_champ, west_champ, ratings', g')
      ∧ east_champ ∈ Examples.east_teams
      ∧ west_champ ∈ Examples.west_teams
      ∧ (champion = east_champ ∨ champion = west_champ).
Proof.
  assert (Spec.has_seeds_1_to_8 Examples.east_teams) as SE
    by (unfold Spec.has_seeds_1_to_8; apply (bool_decide_unpack _); vm_compute; exact I).
  assert (Spec.has_seeds_1_to_8 Examples.west_teams) as SW
    by (unfold Spec.has_seeds_1_to_8; apply (bool_decide_unpack _); vm_compute; exact I).
  split; [repeat split; (reflexivity || assumption)|].
  apply (@simulate_playoffs_champions home_always_wins Examples.test_field
           Examples.east_teams Examples.west_teams); (reflexivity || assumption).
Defined.

(** ** Comparisons *)

Section order_facts.
Import Order.
Context {A : Type} (cmp : A → A → comparison) (Hcmp : order_like cmp).

Lemma cmp_refl (a : A) : cmp a a = Eq.
Proof.
  pose proof (cmp_antisym cmp Hcmp a a) as Ha. by destruct (cmp a a).
Qed.

Lemma cmp_eq_sym (a b : A) : cmp a b = Eq → cmp b a = Eq.
Proof. intros Hab. by rewrite (cmp_antisym cmp Hcmp a b), Hab. Qed.

Lemma cmp_eq_compat_r (a b c : A) : cmp a b = Eq → cmp c a = cmp c b.
Proof.
  intros Hab. rewrite (cmp_antisym cmp Hcmp a c), (cmp_antisym cmp Hcmp b c).
  f_equal. by apply (cmp_eq_compat cmp Hcmp).
Qed.

Lemma cmp_gt_lt (a b : A) : cmp a b = Gt ↔ cmp b a = Lt.
Proof.
  rewrite (cmp_antisym cmp Hcmp a b). destruct (cmp a b); simpl; split; done.
Qed.

Lemma cmp_le_trans (a b c : A) : cmp a b ≠ Gt → cmp b c ≠ Gt → cmp a c ≠ Gt.
Proof.
  intros Hab Hbc. destruct (cmp a b) eqn:Eab; [| |done].
  - by rewrite (cmp_eq_compat cmp Hcmp a b c Eab).
  - destruct (cmp b c) eqn:Ebc; [| |done].
    + rewrite <- (cmp_eq_compat_r b c a Ebc), Eab. done.
    + rewrite (cmp_lt_trans cmp Hcmp a b c Eab Ebc). done.
Qed.

End order_facts.

Lemma lex_order_like {A B : Type} (cmp1 : A → A → comparison)
    (cmp2 : B → B → comparison) :
  Order.order_like cmp1 → Order.order_like cmp2 →
  Order.order_like (Order.lex cmp1 cmp2).
Proof.
  intros H1 H2. split.
  - intros [a1 a2] [b1 b2]. unfold Order.lex. cbn [fst snd].
    rewrite (Order.cmp_antisym cmp1 H1 a1 b1).
    destruct (cmp1 a1 b1); simpl; [apply (Order.cmp_antisym cmp2 H2) | done | done].
  - intros [a1 a2] [b1 b2] [c1 c2]. unfold Order.lex. cbn [fst snd].
    destruct (cmp1 a1 b1) eqn:Eab; [| |done].
    + rewrite (Order.cmp_eq_compat cmp1 H1 a1 b1 c1 Eab).
      destruct (cmp1 b1 c1); [|done|done]. apply (Order.cmp_lt_trans cmp2 H2).
    + intros _. destruct (cmp1 b1 c1) eqn:Ebc; [| |done].
      * intros _. by rewrite <- (cmp_eq_compat_r cmp1 H1 b1 c1 a1 Ebc), Eab.
      * intros _. by rewrite (Order.cmp_lt_trans cmp1 H1 a1 b1 c1 Eab Ebc).
  - intros [a1 a2] [b1 b2] [c1 c2]. unfold Order.lex. cbn [fst snd].
    destruct (cmp1 a1 b1) eqn:Eab; [|done|done].
    intros Hab. rewrite (Order.cmp_eq_compat cmp1 H1 a1 b1 c1 Eab).
    destruct (cmp1 b1 c1); [|done|done]. by apply (Order.cmp_eq_compat cmp2 H2).
Qed.

Lemma Z_compare_order_like : Order.order_like Z.compare.
Proof.
  split.
  - intros a b. apply Z.compare_antisym.
  - intros a b c. rewrite !Z.compare_lt_iff. lia.
  - intros a b c Hab. apply Z.compare_eq in Hab. by subst.
Qed.

Lemma Q_compare_order_like : Order.order_like Qcompare.
Proof.
  split.
  - intros a b. symmetry. apply Qcompare_antisym.
  - intros a b c. rewrite <- !Qlt_alt. apply Qlt_trans.
  - intros a b c Hab. apply Qeq_alt in Hab. by rewrite Hab.
Qed.

Lemma ascii_compare_lt_trans (a b c : ascii) :
  Ascii.compare a b = Lt → Ascii.compare b c = Lt → Ascii.compare a c = Lt.
Proof.
  unfold Ascii.compare. rewrite !N.compare_lt_iff. lia.
Qed.

Lemma string_compare_order_like : Order.order_like String.compare.
Proof.
  split.
  - intros a b. apply String.compare_antisym.
  - intros a. induction a as [|x a IH]; intros [|y b] [|z c]; simpl; try done.
    destruct (Ascii.compare x y) eqn:Exy; [| |done].
    + apply Ascii.compare_eq_iff in Exy as ->.
      destruct (Ascii.compare y z); [apply IH | done | done].
    + intros _. destruct (Ascii.compare y z) eqn:Eyz; [| |done].
      * apply Ascii.compare_eq_iff in Eyz as <-. by rewrite Exy.
      * by rewrite (ascii_compare_lt_trans x y z Exy Eyz).
  - intros a b c Hab. apply String.compare_eq_iff in Hab. by subst.
Qed.

(** ** The stable sort *)

Section sorted_facts.
Context {A K : Type} (key : A → K) (cmp : K → K → comparison).
Context (Hcmp : Order.order_like cmp).

Local Abbreviation ins := (Py.insert_sorted key (Order.ltb_of cmp)).
Local Abbreviation sort := (Py.sorted key (Order.ltb_of cmp)).

Local Abbreviation key_le := (Order.le_by key cmp).

Lemma insert_sorted_perm (x : A) (l : list A) : Permutation (ins x l) (x :: l).
Proof.
  induction l as [|y l IH]; simpl; [done|].
  destruct (Order.ltb_of cmp (key y) (key x)); [|done].
  rewrite IH. apply perm_swap.
Qed.

Lemma sorted_perm (l : list A) : Permutation (sort l) l.
Proof.
  induction l as [|x l IH]; simpl; [done|].
  fold (sort l). rewrite insert_sorted_perm. by constructor.
Qed.

Lemma insert_sorted_sorted (x : A) (l : list A) :
  StronglySorted key_le l → StronglySorted key_le (ins x l).
Proof.
  induction l as [|y l IH]; intros Hl; simpl.
  - repeat constructor.
  - apply StronglySorted_inv in Hl as [Hl Hy].
    unfold Order.ltb_of. destruct (cmp (key y) (key x)) eqn:Eyx.
    + constructor; [by constructor|].
      assert (key_le x y) as Hxy.
      { unfold Order.le_by. by rewrite (cmp_eq_sym cmp Hcmp _ _ Eyx). }
      constructor; [done|].
      eapply Forall_impl; [exact Hy|]. intros z Hyz.
      by apply (cmp_le_trans cmp Hcmp _ (key y)).
    + constructor; [by apply IH|].
      rewrite insert_sorted_perm. constructor; [|done].
      unfold Order.le_by. by rewrite Eyx.
    + constructor; [by constructor|].
      assert (key_le x y) as Hxy.
      { unfold Order.le_by. apply (cmp_gt_lt cmp Hcmp) in Eyx. by rewrite Eyx. }
      constructor; [done|].
      eapply Forall_impl; [exact Hy|]. intros z Hyz.
      by apply (cmp_le_trans cmp Hcmp _ (key y)).
Qed.

Lemma sorted_sorted (l : list A) : StronglySorted key_le (sort l).
Proof.
  induction l as [|x l IH]; simpl; [constructor|].
  by apply insert_sorted_sorted.
Qed.

(** Stability: the elements whose key compares [Eq] with [k] come out
    in the order in which they went in. *)
Lemma insert_sorted_stable (k : K) (x : A) (l : list A) :
  filter (λ y, cmp (key y) k = Eq) (ins x l)
  = filter (λ y, cmp (key y) k = Eq) (x :: l).
Proof.
  induction l as [|y l IH]; cbn [Py.insert_sorted]; [done|].
  destruct (Order.ltb_of cmp (key y) (key x)) eqn:Eyx; [|done].
  assert (cmp (key y) (key x) = Lt) as Hlt.
  { unfold Order.ltb_of in Eyx. by destruct (cmp (key y) (key x)). }
  clear Eyx. rename Hlt into Eyx.
  rewrite filter_cons. rewrite IH. rewrite !filter_cons.
  destruct (decide (cmp (key x) k = Eq)) as [Hx|Hx]; [|done].
  destruct (decide (cmp (key y) k = Eq)) as [Hy|Hy]; [|done].
  rewrite (cmp_eq_compat_r cmp Hcmp _ _ (key y) Hx), Hy in Eyx. done.
Qed.

Lemma sorted_stable (k : K) (l : list A) :
  filter (λ y, cmp (key y) k = Eq) (sort l) = filter (λ y, cmp (key y) k = Eq) l.
Proof.
  induction l as [|x l IH]; [done|].
  cbn [Py.sorted foldr]. fold (sort l).
  rewrite insert_sorted_stable, !filter_cons, IH. done.
Qed.

End sorted_facts.

(** ** The bracket seeder *)

Section seeding_facts.
Import Bracket.

Lemma key_compare_lex (a b : Q * Z * Z * string) :
  key_compare a b
  = Order.lex (Order.lex (Order.lex Qcompare Z.compare) Z.compare) String.compare a b.
Proof.
  destruct a as [[[p1 w1] l1] n1], b as [[[p2 w2] l2] n2].
  unfold key_compare, Order.lex. cbn [fst snd].
  destruct (p1 ?= p2)%Q; [|done|done].
  destruct (w1 ?= w2); [|done|done].
  by destruct (l1 ?= l2).
Qed.

Lemma key_compare_order_like : Order.order_like key_compare.
Proof.
  assert (Order.order_like
            (Order.lex (Order.lex (Order.lex Qcompare Z.compare) Z.compare)
               String.compare)) as Hlex.
  { repeat apply lex_order_like;
      auto using Q_compare_order_like, Z_compare_order_like, string_compare_order_like. }
  destruct Hlex as [H1 H2 H3]. split.
  - intros a b. rewrite !key_compare_lex. apply H1.
  - intros a b c. rewrite !key_compare_lex. apply H2.
  - intros a b c. rewrite !key_compare_lex. apply H3.
Qed.

Lemma Qcompare_opp (a b : Q) : (- a ?= - b)%Q = (b ?= a)%Q.
Proof.
  destruct (Qcompare_spec b a) as [Heq|Hlt|Hgt].
  - apply Qeq_alt. by rewrite Heq.
  - apply Qlt_alt. by apply Qopp_lt_compat.
  - apply Qgt_alt. by apply Qopp_lt_compat.
Qed.

(** A row that the sort key lets stand in front of another one ranks
    before it in the order of the specification. *)
Lemma le_by_ranks_before (a b : TeamStanding.t) :
  Order.le_by sort_key key_compare a b → Spec.ranks_before a b.
Proof.
  unfold Order.le_by, sort_key, key_compare, Spec.ranks_before.
  rewrite Qcompare_opp, Z.compare_opp.
  destruct (Qcompare_spec (TeamStanding.win_pct b) (TeamStanding.win_pct a))
    as [Hp|Hp|Hp]; [|by left|done].
  intros Hrest. right. split; [by symmetry|].
  destruct (Z.compare_spec (TeamStanding.wins b) (TeamStanding.wins a))
    as [Hw|Hw|Hw]; [|by left|done].
  right. split; [done|].
  destruct (Z.compare_spec (TeamStanding.losses a) (TeamStanding.losses b))
    as [Hl|Hl|Hl]; [|by left|done].
  right. done.
Qed.

Lemma sorted_ranks_before (rows : list TeamStanding.t) :
  StronglySorted Spec.ranks_before (Py.sorted sort_key key_lt rows).
Proof.
  pose proof (sorted_sorted sort_key key_compare key_compare_order_like rows) as Hs.
  change (Order.ltb_of key_compare) with key_lt in Hs.
  induction Hs as [|x l Hl IH Hx]; constructor; [done|].
  eapply Forall_impl; [exact Hx|]. intros y. apply le_by_ranks_before.
Qed.

(** The groups of the first loop are the qualifying rows. *)
Lemma group_by_conference_acc (standings : list TeamStanding.t)
    (acc : gmap string (list TeamStanding.t)) (conference : string) :
  conference = "East"%string ∨ conference = "West"%string →
  default []
    (foldl (λ conference_groups row,
              let conference := normalize_conference (TeamStanding.conference row) in
              if bool_decide (conference = "East"%string ∨ conference = "West"%string)
              then <[conference := default [] (conference_groups !! conference) ++ [row]]>
                     conference_groups
              else conference_groups)
           acc standings !! conference)
  = default [] (acc !! conference) ++ Spec.qualifying conference standings.
Proof.
  intros Hc. revert acc. induction standings as [|row standings IH]; intros acc.
  - cbn [foldl]. unfold Spec.qualifying. by rewrite filter_nil, app_nil_r.
  - cbn [foldl]. rewrite IH. unfold Spec.qualifying. rewrite filter_cons.
    cbv zeta. case_bool_decide as Hrow.
    + destruct (decide (normalize_conference (TeamStanding.conference row) = conference))
        as [->|Hne].
      * rewrite lookup_insert_eq. cbn [default from_option]. unfold Datatypes.id at 1.
        by rewrite <- List.app_assoc.
      * by rewrite lookup_insert_ne.
    + destruct (decide (normalize_conference (TeamStanding.conference row) = conference))
        as [Heq|Hne]; [|done].
      destruct Hrow. by rewrite Heq.
Qed.

Lemma group_by_conference_qualifying (standings : list TeamStanding.t)
    (conference : string) :
  conference = "East"%string ∨ conference = "West"%string →
  default [] (group_by_conference standings !! conference)
  = Spec.qualifying conference standings.
Proof.
  intros Hc. unfold group_by_conference.
  by rewrite group_by_conference_acc, lookup_empty.
Qed.

(** The ranking of a conference: its qualifying rows, sorted. *)
Lemma length_sorted (rows : list TeamStanding.t) :
  length (Py.sorted sort_key key_lt rows) = length rows.
Proof.
  apply Permutation_length.
  apply (sorted_perm sort_key key_compare).
Qed.

Lemma length_seed_rows (conference : string) (rows : list TeamStanding.t) :
  length (seed_rows conference rows) = length rows.
Proof. unfold seed_rows. apply length_imap. Qed.

Lemma build_playoff_field_unfold (standings : list TeamStanding.t) :
  let ranked conference := Py.sorted sort_key key_lt (Spec.qualifying conference standings) in
  let field : gmap string (list SeededTeam.t) :=
    <["West"%string := seed_rows "West" (take 8 (ranked "West"%string))]>
      (<["East"%string := seed_rows "East" (take 8 (ranked "East"%string))]> ∅) in
  build_playoff_field standings
  = if (length (Spec.qualifying "East" standings) <? 8)%nat
       || (length (Spec.qualifying "West" standings) <? 8)%nat
    then Err (ValueError
      "Could not build playoff field: both conferences need at least 8 teams in standings")
    else Ok field.
Proof.
  intros ranked field. unfold build_playoff_field. cbn [foldl].
  rewrite !group_by_conference_qualifying by auto.
  fold (ranked "East"%string). fold (ranked "West"%string). fold field.
  assert (field !! "East"%string = Some (seed_rows "East" (take 8 (ranked "East"%string))))
    as -> by (subst field; by rewrite lookup_insert_ne, lookup_insert_eq).
  assert (field !! "West"%string = Some (seed_rows "West" (take 8 (ranked "West"%string))))
    as -> by (subst field; by rewrite lookup_insert_eq).
  cbn [default from_option]. unfold Datatypes.id.
  rewrite !length_seed_rows, !length_take. subst ranked. cbv beta.
  rewrite !length_sorted.
  replace (8 `min` length (Spec.qualifying "East" standings) <? 8)%nat
    with (length (Spec.qualifying "East" standings) <? 8)%nat
    by (destruct (Nat.ltb_spec (length (Spec.qualifying "East" standings)) 8);
        symmetry; [apply Nat.ltb_lt | apply Nat.ltb_ge]; lia).
  replace (8 `min` length (Spec.qualifying "West" standings) <? 8)%nat
    with (length (Spec.qualifying "West" standings) <? 8)%nat
    by (destruct (Nat.ltb_spec (length (Spec.qualifying "West" standings)) 8);
        symmetry; [apply Nat.ltb_lt | apply Nat.ltb_ge]; lia).
  done.
Qed.

Lemma seed_rows_seeded_from (conference : string) (ranked : list TeamStanding.t) :
  (8 ≤ length ranked)%nat →
  Spec.seeded_from conference ranked (seed_rows conference (take 8 ranked)).
Proof.
  intros Hlen. split.
  - rewrite length_seed_rows, length_take. lia.
  - intros i t Hi. unfold seed_rows in Hi. rewrite list_lookup_imap in Hi.
    destruct (take 8 ranked !! i) as [row|] eqn:Hrow; [|done].
    cbn in Hi. injection Hi as <-. exists row.
    apply lookup_take_Some in Hrow as [Hrow _]. done.
Qed.

End seeding_facts.

Lemma seeds_of_seed_rows (conference : string) (rows : list TeamStanding.t) :
  length rows = 8%nat →
  SeededTeam.seed <$> Bracket.seed_rows conference rows = seqZ 1 8.
Proof.
  intros Hlen.
  destruct rows as [|r1 [|r2 [|r3 [|r4 [|r5 [|r6 [|r7 [|r8 [|r9 rows]]]]]]]]];
    try discriminate Hlen.
  reflexivity.
Qed.

(** C5: when both conferences have at least 8 qualifying rows,
    [build_playoff_field] succeeds, and the teams of each conference are
    made, with seeds 1 to 8 in this order, from the first eight rows of
    the ranking of the conference: the arrangement of its qualifying rows
    that is sorted descending by win percentage, then descending by win
    count, then ascending by loss count, then ascending by team name,
    rows that agree on all four keeping the order of the input. *)
Theorem build_playoff_field_seeding (standings : list TeamStanding.t) :
  (8 ≤ length (Spec.qualifying "East" standings))%nat →
  (8 ≤ length (Spec.qualifying "West" standings))%nat →
  ∃ field,
    Bracket.build_playoff_field standings = Ok field
    ∧ ∀ conference : string,
        conference = "East"%string ∨ conference = "West"%string →
        ∃ ranked teams,
          field !! conference = Some teams
          ∧ Permutation ranked (Spec.qualifying conference standings)
          ∧ StronglySorted Spec.ranks_before ranked
          ∧ (∀ row, filter (Spec.same_rank row) ranked
                    = filter (Spec.same_rank row) (Spec.qualifying conference standings))
          ∧ Spec.seeded_from conference ranked teams.
Proof.
  intros HE HW. pose proof (build_playoff_field_unfold standings) as Hbuild.
  cbv zeta in Hbuild. rewrite Hbuild.
  destruct (Nat.ltb_spec (length (Spec.qualifying "East" standings)) 8); [lia|].
  destruct (Nat.ltb_spec (length (Spec.qualifying "West" standings)) 8); [lia|].
  cbn [orb]. eexists. split; [done|].
  intros conference Hc.
  exists (Py.sorted Bracket.sort_key Bracket.key_lt (Spec.qualifying conference standings)).
  exists (Bracket.seed_rows conference
            (take 8 (Py.sorted Bracket.sort_key Bracket.key_lt
                       (Spec.qualifying conference standings)))).
  split.
  { destruct Hc as [-> | ->];
      [by rewrite lookup_insert_ne, lookup_insert_eq | by rewrite lookup_insert_eq]. }
  split; [apply (sorted_perm Bracket.sort_key Bracket.key_compare)|].
  split; [apply sorted_ranks_before|].
  split.
  { intros row.
    apply (sorted_stable Bracket.sort_key Bracket.key_compare
             key_compare_order_like (Bracket.sort_key row)). }
  apply seed_rows_seeded_from. rewrite length_sorted. by destruct Hc as [-> | ->].
Qed.

Lemma build_playoff_field_seeding_witness :
  ((8 ≤ length (Spec.qualifying "East" Examples.standings))%nat
   ∧ (8 ≤ length (Spec.qualifying "West" Examples.standings))%nat)
  ∧ ∃ field,
      Bracket.build_playoff_field Examples.standings = Ok field
      ∧ ∀ conference : string,
          conference = "East"%string ∨ conference = "West"%string →
          ∃ ranked teams,
            field !! conference = Some teams
            ∧ Permutation ranked (Spec.qualifying conference Examples.standings)
            ∧ StronglySorted Spec.ranks_before ranked
            ∧ (∀ row, filter (Spec.same_rank row) ranked
                      = filter (Spec.same_rank row)
                          (Spec.qualifying conference Examples.standings))
            ∧ Spec.seeded_from conference ranked teams.
Proof.
  assert (8 ≤ length (Spec.qualifying "East" Examples.standings))%nat as HE
    by (vm_compute; lia).
  assert (8 ≤ length (Spec.qualifying "West" Examples.standings))%nat as HW
    by (vm_compute; lia).
  split; [by split|].
  apply (build_playoff_field_seeding Examples.standings HE HW).
Defined.

(** C6: [build_playoff_field] raises exactly when the East or the West
    has fewer than 8 qualifying rows, and what it raises is a
    [ValueError]; otherwise it returns a field whose entries are the East
    and the West, each with exactly 8 teams, seeded 1 to 8. *)
Theorem build_playoff_field_validation (standings : list TeamStanding.t) :
  match Bracket.build_playoff_field standings with
  | Err e =>
      (∃ msg, e = ValueError msg)
      ∧ ((length (Spec.qualifying "East" standings) < 8)%nat
         ∨ (length (Spec.qualifying "West" standings) < 8)%nat)
  | Ok field =>
      (8 ≤ length (Spec.qualifying "East" standings))%nat
      ∧ (8 ≤ length (Spec.qualifying "West" standings))%nat
      ∧ dom field = {["East"%string; "West"%string]}
      ∧ ∃ east west,
          field !! "East"%string = Some east ∧ field !! "West"%string = Some west
          ∧ length east = 8%nat ∧ length west = 8%nat
          ∧ SeededTeam.seed <$> east = seqZ 1 8
          ∧ SeededTeam.seed <$> west = seqZ 1 8
  end.
Proof.
  pose proof (build_playoff_field_unfold standings) as Hbuild.
  cbv zeta in Hbuild. rewrite Hbuild.
  destruct (Nat.ltb_spec (length (Spec.qualifying "East" standings)) 8) as [HE|HE].
  { cbn [orb]. split; [by eexists | by left]. }
  destruct (Nat.ltb_spec (length (Spec.qualifying "West" standings)) 8) as [HW|HW].
  { cbn [orb]. split; [by eexists | by right]. }
  cbn [orb]. split; [done|]. split; [done|]. split.
  { rewrite !dom_insert_L, dom_empty_L. set_solver. }
  eexists _, _. split; [by rewrite lookup_insert_ne, lookup_insert_eq|].
  split; [by rewrite lookup_insert_eq|].
  rewrite !length_seed_rows, !length_take, !length_sorted.
  split; [lia|]. split; [lia|].
  split; apply seeds_of_seed_rows; rewrite length_take, length_sorted; lia.
Qed.

(** ** The store of the aggregator *)

Section store_facts.
Context `{RandomGen}.
Import Simulation.

Variables (playoff_field base_ratings : loc).
Variables (field : gmap string (list SeededTeam.t)) (baseline : gmap Z R).
Variables (k_factor home_court_adv : R).

Local Abbreviation holds_inputs :=
  (Spec.holds_inputs playoff_field base_ratings field baseline).

Lemma holds_inputs_subseteq (h h' : store) :
  holds_inputs h → h ⊆ h' → holds_inputs h'.
Proof.
  intros [Hf Hb] Hsub. split; by eapply lookup_weaken.
Qed.

Lemma fresh_not_in (h : store) : h !! fresh (dom h) = None.
Proof. apply not_elem_of_dom. apply is_fresh. Qed.

(** A trial leaves every object of the store as it found it; the
    dictionary it simulates on is a new object that starts with the
    entries of the baseline. *)
Lemma run_trial_store (counts : tally) (parent_rng : rng) (h : store) :
  holds_inputs h →
  run_trial playoff_field base_ratings k_factor home_court_adv (counts, parent_rng, h)
  = '(counts', parent_rng', drifted) ←
      Spec.trial field baseline k_factor home_court_adv (counts, parent_rng);
    Ok (counts', parent_rng', <[fresh (dom h) := RatingsObj drifted]> h).
Proof.
  intros [Hf Hb]. unfold run_trial, Spec.trial.
  destruct (randint 0 (10 ^ 9) parent_rng) as [sim_seed parent_rng'].
  unfold dict_copy, load_ratings. rewrite Hb. cbn [mbind result_bind].
  unfold call_simulate_playoffs, load_field, load_ratings.
  assert (fresh (dom h) ≠ playoff_field) as Hne.
  { intros Heq. pose proof (fresh_not_in h) as Hfresh. rewrite Heq in Hfresh. congruence. }
  rewrite (lookup_insert_ne _ _ playoff_field), Hf by done. cbn [mbind result_bind].
  rewrite lookup_insert_eq. cbn [mbind result_bind].
  destruct (Bracket.simulate_playoffs field baseline (Random sim_seed)
              k_factor home_court_adv) as [[[[[champion east] west] drifted] g]|e];
    cbn [mbind result_bind]; [|done].
  destruct (record_outcome counts champion east west) as [counts'|e];
    cbn [mbind result_bind]; [|done].
  by rewrite insert_insert_eq.
Qed.

Lemma run_trials_store (n : nat) (counts : tally) (parent_rng : rng) (h : store) :
  holds_inputs h →
  match Spec.trials n field baseline k_factor home_court_adv (counts, parent_rng) with
  | Ok (counts', parent_rng') =>
      ∃ h', run_trials n playoff_field base_ratings k_factor home_court_adv
              (counts, parent_rng, h) = Ok (counts', parent_rng', h')
            ∧ h ⊆ h'
  | Err e =>
      run_trials n playoff_field base_ratings k_factor home_court_adv
        (counts, parent_rng, h) = Err e
  end.
Proof.
  revert counts parent_rng h. induction n as [|n IH]; intros counts parent_rng h Hh.
  - cbn [Spec.trials run_trials]. by exists h.
  - cbn [Spec.trials run_trials]. rewrite (run_trial_store _ _ _ Hh).
    destruct (Spec.trial field baseline k_factor home_court_adv (counts, parent_rng))
      as [[[counts1 rng1] drifted]|e]; cbn [mbind result_bind]; [|done].
    assert (h ⊆ <[fresh (dom h) := RatingsObj drifted]> h) as Hsub
      by apply insert_subseteq, fresh_not_in.
    specialize (IH counts1 rng1 _ (holds_inputs_subseteq _ _ Hh Hsub)).
    destruct (Spec.trials n field baseline k_factor home_court_adv (counts1, rng1))
      as [[counts' rng']|e]; [|done].
    destruct IH as (h' & -> & Hsub'). exists h'. split; [done|].
    by transitivity (<[fresh (dom h) := RatingsObj drifted]> h).
Qed.

(** [run_monte_carlo] on a store computes what the aggregation without
    a store computes from the entries of the field and of the baseline,
    and keeps every object of the store it was given. *)
Lemma run_monte_carlo_store (n_simulations seed : Z) (h : store) :
  holds_inputs h →
  match Spec.independent_trials field baseline n_simulations k_factor home_court_adv seed with
  | Ok out =>
      ∃ h', run_monte_carlo playoff_field base_ratings n_simulations k_factor
              home_court_adv seed h = Ok (out, h')
            ∧ h ⊆ h'
  | Err e =>
      run_monte_carlo playoff_field base_ratings n_simulations k_factor
        home_court_adv seed h = Err e
  end.
Proof.
  intros Hh. unfold Spec.independent_trials, run_monte_carlo.
  destruct (n_simulations <=? 0); [done|].
  unfold load_field. rewrite (proj1 Hh). cbn [mbind result_bind].
  destruct (build_team_lookup field) as [team_lookup|e]; cbn [mbind result_bind]; [|done].
  pose proof (run_trials_store (Z.to_nat n_simulations) empty_tally (Random seed) h Hh)
    as Htrials.
  destruct (Spec.trials _ _ _ _ _ _) as [[counts rng']|e]; cbn [mbind result_bind].
  - destruct Htrials as (h' & -> & Hsub). cbn [mbind result_bind].
    destruct (odds_of_tally team_lookup n_simulations counts) as [out|e];
      cbn [mbind result_bind]; [|done].
    by exists h'.
  - by rewrite Htrials.
Qed.

End store_facts.

(** ** Counters and the tally *)

Section counter_facts.
Context {K : Type} `{EqDecision K}.

Lemma counter_incr_total (k : K) (c : Counter.t K) :
  Counter.total (Counter.incr k c) = Counter.total c + 1.
Proof.
  induction c as [|[k' n] c IH]; cbn [Counter.incr]; [done|].
  destruct (decide (k = k')); unfold Counter.total in *; cbn [foldr snd] in *; lia.
Qed.

Lemma counter_incr_keys (k : K) (c : Counter.t K) :
  (Counter.incr k c).*1 = c.*1
  ∨ ((k ∉ (c.*1)) ∧ (Counter.incr k c).*1 = c.*1 ++ [k]).
Proof.
  induction c as [|[k' n] c IH]; cbn [Counter.incr].
  - right. split; [apply not_elem_of_nil | done].
  - destruct (decide (k = k')) as [->|Hne]; [by left|].
    rewrite !fmap_cons. cbn [fst].
    destruct IH as [->|[Hnot ->]]; [by left|].
    right. split; [|done]. apply not_elem_of_cons. done.
Qed.

Lemma counter_incr_subseteq (k : K) (c : Counter.t K) (l : list K) :
  c.*1 ⊆ l → k ∈ l → (Counter.incr k c).*1 ⊆ l.
Proof.
  intros Hc Hk. destruct (counter_incr_keys k c) as [->|[_ ->]]; [done|].
  intros x Hx. apply elem_of_app in Hx as [Hx|Hx]; [by apply Hc|].
  apply list_elem_of_singleton in Hx. by subst.
Qed.

Lemma counter_incr_NoDup (k : K) (c : Counter.t K) :
  NoDup c.*1 → NoDup (Counter.incr k c).*1.
Proof.
  intros Hc. destruct (counter_incr_keys k c) as [->|[Hnot ->]]; [done|].
  apply NoDup_app. split; [done|]. split; [|apply NoDup_singleton].
  intros x Hx Hx'. apply list_elem_of_singleton in Hx'. by subst.
Qed.

End counter_facts.

Section tally_facts.
Context `{RandomGen}.
Import Simulation.

Variables (field : gmap string (list SeededTeam.t)).
Variables (east_teams west_teams : list SeededTeam.t).
Hypothesis has_east : field !! "East"%string = Some east_teams.
Hypothesis has_west : field !! "West"%string = Some west_teams.
Hypothesis seeds_east : Spec.has_seeds_1_to_8 east_teams.
Hypothesis seeds_west : Spec.has_seeds_1_to_8 west_teams.

Local Abbreviation inv := (Spec.tally_inv east_teams west_teams).

Lemma empty_tally_inv : inv 0 empty_tally.
Proof.
  exists [], []. cbn. repeat split; try done; try apply NoDup_nil_2;
    apply list_subseteq_nil.
Qed.

Lemma record_outcome_inv (i : Z) (counts : tally)
    (champion east_champ west_champ : SeededTeam.t) :
  inv i counts →
  east_champ ∈ east_teams → west_champ ∈ west_teams →
  champion = east_champ ∨ champion = west_champ →
  ∃ counts', record_outcome counts champion east_champ west_champ = Ok counts'
             ∧ inv (i + 1) counts'.
Proof.
  intros (ce & cw & Hcc & Te & Tw & Tc & Ke & Kw & Kc & Ne & Nw & Nc) He Hw Hchamp.
  unfold record_outcome. rewrite Hcc.
  cbn [incr_conference]. rewrite decide_True by done. cbn [mbind result_bind].
  cbn [incr_conference]. rewrite decide_False by done.
  rewrite decide_True by done. cbn [mbind result_bind].
  eexists. split; [done|].
  exists (Counter.incr (SeededTeam.team_id east_champ) ce),
         (Counter.incr (SeededTeam.team_id west_champ) cw).
  cbn [conference_counts champ_counts].
  rewrite !counter_incr_total.
  split; [done|]. split; [lia|]. split; [lia|]. split; [lia|].
  split; [apply counter_incr_subseteq; [done | by apply list_elem_of_fmap_2]|].
  split; [apply counter_incr_subseteq; [done | by apply list_elem_of_fmap_2]|].
  split.
  { apply counter_incr_subseteq; [done|]. apply list_elem_of_fmap_2.
    apply elem_of_app. destruct Hchamp as [-> | ->]; auto. }
  split; [by apply counter_incr_NoDup|].
  split; by apply counter_incr_NoDup.
Qed.

Lemma trial_inv (baseline : gmap Z R) (k_factor home_court_adv : R)
    (i : Z) (counts : tally) (parent_rng : rng) :
  inv i counts →
  ∃ counts' parent_rng' drifted,
    Spec.trial field baseline k_factor home_court_adv (counts, parent_rng)
    = Ok (counts', parent_rng', drifted)
    ∧ inv (i + 1) counts'.
Proof.
  intros Hinv. unfold Spec.trial.
  destruct (randint 0 (10 ^ 9) parent_rng) as [sim_seed parent_rng'].
  destruct (simulate_playoffs_total field east_teams west_teams baseline
              (Random sim_seed) k_factor home_court_adv has_east has_west
              seeds_east seeds_west)
    as (champion & east & west & drifted & g' & -> & He & Hw & Hchamp).
  cbn [mbind result_bind].
  destruct (record_outcome_inv i counts champion east west Hinv He Hw Hchamp)
    as (counts' & -> & Hinv').
  cbn [mbind result_bind]. by exists counts', parent_rng', drifted.
Qed.

Lemma trials_inv (baseline : gmap Z R) (k_factor home_court_adv : R)
    (n : nat) (i : Z) (counts : tally) (parent_rng : rng) :
  inv i counts →
  ∃ counts' parent_rng',
    Spec.trials n field baseline k_factor home_court_adv (counts, parent_rng)
    = Ok (counts', parent_rng')
    ∧ inv (i + Z.of_nat n) counts'.
Proof.
  revert i counts parent_rng. induction n as [|n IH]; intros i counts parent_rng Hinv.
  - exists counts, parent_rng. split; [done|]. by rewrite Z.add_0_r.
  - cbn [Spec.trials].
    destruct (trial_inv baseline k_factor home_court_adv i counts parent_rng Hinv)
      as (counts1 & rng1 & drifted & -> & Hinv1).
    cbn [mbind result_bind].
    destruct (IH (i + 1) counts1 rng1 Hinv1) as (counts' & rng' & -> & Hinv').
    exists counts', rng'. split; [done|].
    by replace (i + Z.of_nat (S n)) with (i + 1 + Z.of_nat n) by lia.
Qed.

End tally_facts.

(** ** From counts to odds *)

Section odds_facts.
Context `{RandomGen}.
Import Simulation.

Lemma team_lookup_acc (teams : list SeededTeam.t) (acc : gmap Z string) (team_id : Z) :
  team_id ∈ SeededTeam.team_id <$> teams ∨ is_Some (acc !! team_id) →
  is_Some (foldl (λ d t, <[SeededTeam.team_id t := SeededTeam.team_name t]> d)
             acc teams !! team_id).
Proof.
  revert acc. induction teams as [|t teams IH]; intros acc Hk.
  - destruct Hk as [Hin|Hacc]; [|done]. by apply elem_of_nil in Hin.
  - cbn [foldl]. apply IH. rewrite fmap_cons in Hk.
    destruct (decide (SeededTeam.team_id t = team_id)) as [<-|Hne].
    + right. rewrite lookup_insert_eq. by eexists.
    + destruct Hk as [Hin|Hacc].
      * left. apply elem_of_cons in Hin as [Heq|Hin]; [congruence | done].
      * right. by rewrite lookup_insert_ne.
Qed.

(** The name table has an entry for every team of the field. *)
Lemma build_team_lookup_total (field : gmap string (list SeededTeam.t))
    (east_teams west_teams : list SeededTeam.t) :
  field !! "East"%string = Some east_teams →
  field !! "West"%string = Some west_teams →
  ∃ team_lookup,
    build_team_lookup field = Ok team_lookup
    ∧ ∀ team_id, team_id ∈ SeededTeam.team_id <$> (east_teams ++ west_teams) →
                 is_Some (team_lookup !! team_id).
Proof.
  intros HE HW. unfold build_team_lookup. cbn [foldl mbind result_bind].
  rewrite (getitem_Some _ _ _ HE). cbn [mbind result_bind].
  rewrite (getitem_Some _ _ _ HW). cbn [mbind result_bind].
  eexists. split; [done|].
  intros team_id Hid. rewrite fmap_app in Hid. apply elem_of_app in Hid as [Hid|Hid].
  - apply team_lookup_acc. right. apply team_lookup_acc. by left.
  - apply team_lookup_acc. by left.
Qed.

Lemma odds_of_counter_total (team_lookup : gmap Z string) (n_simulations : Z)
    (counter : Counter.t Z) :
  (∀ team_id, team_id ∈ counter.*1 → is_Some (team_lookup !! team_id)) →
  ∃ odds,
    odds_of_counter team_lookup n_simulations counter = Ok odds
    ∧ odds.*1 = counter.*1
    ∧ Spec.total_probability odds
      = (IZR (Counter.total counter) / IZR n_simulations)%R.
Proof.
  induction counter as [|[team_id count] counter IH]; intros Hkeys.
  - exists []. cbn. split; [done|]. split; [done|]. unfold Rdiv. by rewrite Rmult_0_l.
  - cbn [odds_of_counter].
    destruct (Hkeys team_id) as [name Hname]; [rewrite fmap_cons; apply list_elem_of_here|].
    rewrite (getitem_Some _ _ _ Hname). cbn [mbind result_bind].
    destruct IH as (odds & -> & Hk & Hsum).
    { intros k Hk. apply Hkeys. rewrite fmap_cons. by apply list_elem_of_further. }
    cbn [mbind result_bind]. eexists. split; [done|].
    split; [by rewrite !fmap_cons, Hk|].
    unfold Spec.total_probability in *. cbn [foldr fst snd]. rewrite Hsum.
    unfold Counter.total. cbn [foldr snd]. rewrite plus_IZR. unfold Rdiv.
    by rewrite Rmult_plus_distr_r.
Qed.

(** After [n] trials the odds of a counter add up to one. *)
Lemma odds_of_counter_one (team_lookup : gmap Z string) (n_simulations : Z)
    (counter : Counter.t Z) (teams : list SeededTeam.t) :
  0 < n_simulations →
  Counter.total counter = n_simulations →
  counter.*1 ⊆ SeededTeam.team_id <$> teams →
  (∀ team_id, team_id ∈ SeededTeam.team_id <$> teams → is_Some (team_lookup !! team_id)) →
  ∃ odds,
    odds_of_counter team_lookup n_simulations counter = Ok odds
    ∧ odds.*1 = counter.*1
    ∧ Spec.total_probability odds = 1%R.
Proof.
  intros Hn Htotal Hkeys Hlookup.
  destruct (odds_of_counter_total team_lookup n_simulations counter)
    as (odds & Hodds & Hk & Hsum).
  { intros k Hk. by apply Hlookup, Hkeys. }
  exists odds. split; [done|]. split; [done|].
  rewrite Hsum, Htotal. unfold Rdiv. apply Rinv_r.
  apply not_0_IZR. lia.
Qed.

End odds_facts.

(** ** Odds summed over the teams of a conference *)

Section total_over_teams_facts.

Lemma assoc_None {V : Type} (key : Z) (d : list (Z * V)) :
  key ∉ d.*1 → Spec.assoc key d = None.
Proof.
  induction d as [|[k v] d IH]; [done|].
  rewrite fmap_cons, not_elem_of_cons. intros [Hne Hnot]. cbn [Spec.assoc fst].
  rewrite decide_False by done. by apply IH.
Qed.

Lemma total_over_teams_skip (k : Z) (v : string * R) (odds : list (Z * (string * R)))
    (teams : list SeededTeam.t) :
  k ∉ SeededTeam.team_id <$> teams →
  Spec.total_over_teams ((k, v) :: odds) teams = Spec.total_over_teams odds teams.
Proof.
  induction teams as [|t teams IH]; [done|].
  rewrite fmap_cons, not_elem_of_cons. intros [Hne Hnot].
  unfold Spec.total_over_teams in *. cbn [foldr]. rewrite IH by done.
  unfold Spec.probability_of. cbn [Spec.assoc].
  rewrite decide_False by done. done.
Qed.

Lemma total_over_teams_cons (k : Z) (name : string) (p : R)
    (odds : list (Z * (string * R))) (teams : list SeededTeam.t) :
  k ∈ SeededTeam.team_id <$> teams →
  NoDup (SeededTeam.team_id <$> teams) →
  k ∉ odds.*1 →
  Spec.total_over_teams ((k, (name, p)) :: odds) teams
  = (p + Spec.total_over_teams odds teams)%R.
Proof.
  intros Hin Hnodup Hk. induction teams as [|t teams IH].
  - by apply elem_of_nil in Hin.
  - rewrite fmap_cons in Hin, Hnodup. apply NoDup_cons in Hnodup as [Hnot Hnodup].
    unfold Spec.total_over_teams in *. cbn [foldr].
    destruct (decide (SeededTeam.team_id t = k)) as [Heq|Hne].
    + rewrite Heq in *.
      pose proof (total_over_teams_skip k (name, p) odds teams Hnot) as Hskip.
      unfold Spec.total_over_teams in Hskip. rewrite Hskip.
      unfold Spec.probability_of. cbn [Spec.assoc]. rewrite decide_True by done.
      rewrite (assoc_None k odds Hk). lra.
    + apply elem_of_cons in Hin as [Heq|Hin]; [congruence|].
      rewrite IH by done.
      unfold Spec.probability_of at 1. cbn [Spec.assoc]. rewrite decide_False by done.
      fold (Spec.probability_of odds (SeededTeam.team_id t)). lra.
Qed.

(** With one identifier per team, summing the odds over the teams of
    the conference, 0 for a team without an entry, gives the sum of the
    entries. *)
Lemma total_over_teams_total (odds : list (Z * (string * R)))
    (teams : list SeededTeam.t) :
  NoDup odds.*1 →
  odds.*1 ⊆ SeededTeam.team_id <$> teams →
  NoDup (SeededTeam.team_id <$> teams) →
  Spec.total_over_teams odds teams = Spec.total_probability odds.
Proof.
  intros Hnodup Hkeys Hteams. induction odds as [|[k [name p]] odds IH].
  - unfold Spec.total_over_teams, Spec.total_probability. cbn [foldr].
    induction teams as [|t teams IHt]; [done|].
    cbn [foldr]. rewrite fmap_cons in Hteams. apply NoDup_cons in Hteams as [_ Hteams].
    rewrite IHt by (done || apply list_subseteq_nil).
    unfold Spec.probability_of. cbn. lra.
  - rewrite fmap_cons in Hnodup, Hkeys. cbn [fst] in Hnodup, Hkeys.
    apply NoDup_cons in Hnodup as [Hnot Hnodup].
    rewrite total_over_teams_cons; [|apply Hkeys, list_elem_of_here|done|done].
    rewrite IH; [done|done|].
    intros x Hx. apply Hkeys. by apply list_elem_of_further.
Qed.

End total_over_teams_facts.

(** ** The aggregation *)

Section aggregation_facts.
Context `{RandomGen}.
Import Simulation.

Variables (field : gmap string (list SeededTeam.t)) (baseline : gmap Z R).
Variables (east_teams west_teams : list SeededTeam.t).
Variables (n_simulations : Z) (k_factor home_court_adv : R) (seed : Z).
Hypothesis has_east : field !! "East"%string = Some east_teams.
Hypothesis has_west : field !! "West"%string = Some west_teams.
Hypothesis seeds_east : Spec.has_seeds_1_to_8 east_teams.
Hypothesis seeds_west : Spec.has_seeds_1_to_8 west_teams.
Hypothesis positive : 0 < n_simulations.

(** On a field with seeds 1 to 8 in both conferences and with a positive
    number of trials the aggregation returns, and the odds of each
    conference add up to one over keys that are teams of the
    conference. *)
Lemma independent_trials_odds :
  ∃ out east_odds west_odds,
    Spec.independent_trials field baseline n_simulations k_factor home_court_adv seed
    = Ok out
    ∧ conference_odds out = [("East"%string, east_odds); ("West"%string, west_odds)]
    ∧ Spec.total_probability east_odds = 1%R
    ∧ Spec.total_probability west_odds = 1%R
    ∧ NoDup east_odds.*1 ∧ NoDup west_odds.*1
    ∧ east_odds.*1 ⊆ SeededTeam.team_id <$> east_teams
    ∧ west_odds.*1 ⊆ SeededTeam.team_id <$> west_teams.
Proof.
  unfold Spec.independent_trials.
  destruct (Z.leb_spec n_simulations 0) as [Hle|_]; [lia|].
  destruct (build_team_lookup_total field east_teams west_teams has_east has_west)
    as (team_lookup & -> & Hlookup).
  cbn [mbind result_bind].
  destruct (trials_inv field east_teams west_teams has_east has_west seeds_east
              seeds_west baseline k_factor home_court_adv (Z.to_nat n_simulations)
              0 empty_tally (Random seed) (empty_tally_inv east_teams west_teams))
    as (counts & rng' & -> & Hinv).
  cbn [mbind result_bind].
  rewrite Z.add_0_l, Z2Nat.id in Hinv by lia.
  destruct Hinv as (ce & cw & Hcc & Te & Tw & Tc & Ke & Kw & Kc & Ne & Nw & Nc).
  unfold odds_of_tally.
  destruct (odds_of_counter_total team_lookup n_simulations (champ_counts counts))
    as (champ_odds & -> & _ & _).
  { intros k Hk. by apply Hlookup, Kc. }
  cbn [mbind result_bind]. rewrite Hcc. cbn [odds_of_conferences].
  destruct (odds_of_counter_one team_lookup n_simulations ce east_teams positive Te Ke)
    as (east_odds & -> & Hke & Hse).
  { intros k Hk. apply Hlookup. rewrite fmap_app. apply elem_of_app. by left. }
  cbn [mbind result_bind].
  destruct (odds_of_counter_one team_lookup n_simulations cw west_teams positive Tw Kw)
    as (west_odds & -> & Hkw & Hsw).
  { intros k Hk. apply Hlookup. rewrite fmap_app. apply elem_of_app. by right. }
  cbn [mbind result_bind].
  eexists _, east_odds, west_odds. split; [done|]. cbn [conference_odds].
  rewrite Hke, Hkw. done.
Qed.

End aggregation_facts.

(** C1: what [run_monte_carlo] returns or raises is determined by the
    entries of the field and of the baseline dictionary, the number of
    trials, the k-factor, the home-court advantage and the seed: on any
    two stores that hold the same field and baseline it has the same
    outcome.  With seeds 1 to 8 in both conferences and a positive number
    of trials the call returns, and a second call on the store left by
    the first returns the same three outputs. *)
Theorem run_monte_carlo_deterministic `{RandomGen}
    (playoff_field base_ratings : loc)
    (field : gmap string (list SeededTeam.t)) (baseline : gmap Z R)
    (east_teams west_teams : list SeededTeam.t)
    (n_simulations : Z) (k_factor home_court_adv : R) (seed : Z) (h h' : store) :
  Spec.holds_inputs playoff_field base_ratings field baseline h →
  Spec.holds_inputs playoff_field base_ratings field baseline h' →
  Spec.outcome (Simulation.run_monte_carlo playoff_field base_ratings n_simulations
                  k_factor home_court_adv seed h)
  = Spec.outcome (Simulation.run_monte_carlo playoff_field base_ratings n_simulations
                    k_factor home_court_adv seed h')
  ∧ (field !! "East"%string = Some east_teams →
     field !! "West"%string = Some west_teams →
     Spec.has_seeds_1_to_8 east_teams →
     Spec.has_seeds_1_to_8 west_teams →
     0 < n_simulations →
     ∃ out h1 h2,
       Simulation.run_monte_carlo playoff_field base_ratings n_simulations
         k_factor home_court_adv seed h = Ok (out, h1)
       ∧ Simulation.run_monte_carlo playoff_field base_ratings n_simulations
           k_factor home_court_adv seed h1 = Ok (out, h2)).
Proof.
  intros Hh Hh'.
  pose proof (run_monte_carlo_store playoff_field base_ratings field baseline
                k_factor home_court_adv n_simulations seed) as Hrun.
  split.
  - pose proof (Hrun h Hh) as H1. pose proof (Hrun h' Hh') as H2.
    destruct (Spec.independent_trials _ _ _ _ _ _) as [out|e].
    + destruct H1 as (h1 & -> & _). destruct H2 as (h2 & -> & _). done.
    + by rewrite H1, H2.
  - intros HE HW SE SW Hn.
    destruct (independent_trials_odds field baseline east_teams west_teams
                n_simulations k_factor home_court_adv seed HE HW SE SW Hn)
      as (out & _ & _ & Hout & _).
    pose proof (Hrun h Hh) as H1. rewrite Hout in H1.
    destruct H1 as (h1 & H1 & Hsub).
    pose proof (Hrun h1 (holds_inputs_subseteq _ _ _ _ _ _ Hh Hsub)) as H2.
    rewrite Hout in H2. destruct H2 as (h2 & H2 & _).
    by exists out, h1, h2.
Qed.

Lemma run_monte_carlo_deterministic_witness :
  (Spec.holds_inputs 1%positive 2%positive Examples.test_field Examples.conference_ratings
     Examples.test_store
   ∧ Examples.test_field !! "East"%string = Some Examples.east_teams
   ∧ Examples.test_field !! "West"%string = Some Examples.west_teams
   ∧ Spec.has_seeds_1_to_8 Examples.east_teams
   ∧ Spec.has_seeds_1_to_8 Examples.west_teams
   ∧ 0 < 300)
  ∧ ∃ out h1 h2,
      @Simulation.run_monte_carlo home_always_wins 1%positive 2%positive 300
        20%R 65%R 123 Examples.test_store = Ok (out, h1)
      ∧ @Simulation.run_monte_carlo home_always_wins 1%positive 2%positive 300
          20%R 65%R 123 h1 = Ok (out, h2).
Proof.
  assert (Spec.holds_inputs 1%positive 2%positive Examples.test_field
            Examples.conference_ratings Examples.test_store) as Hh
    by (split; reflexivity).
  assert (Spec.has_seeds_1_to_8 Examples.east_teams) as SE
    by (unfold Spec.has_seeds_1_to_8; apply (bool_decide_unpack _); vm_compute; exact I).
  assert (Spec.has_seeds_1_to_8 Examples.west_teams) as SW
    by (unfold Spec.has_seeds_1_to_8; apply (bool_decide_unpack _); vm_compute; exact I).
  split; [repeat split; (reflexivity || assumption)|].
  apply (@run_monte_carlo_deterministic home_always_wins 1%positive 2%positive
           Examples.test_field Examples.conference_ratings Examples.east_teams
           Examples.west_teams 300 20%R 65%R 123 Examples.test_store Examples.test_store
           Hh Hh);
    (reflexivity || assumption).
Defined.

(** C4: on a field with seeds 1 to 8 in both conferences and with a
    positive number of trials, [run_monte_carlo] returns, and for the
    East and for the West the probabilities of the conference-champion
    odds it returns add up to 1; when the teams of the conference have
    different identifiers this is also the sum over these teams, a team
    without an entry counting as 0. *)
Theorem conference_odds_sum_to_one `{RandomGen}
    (playoff_field base_ratings : loc)
    (field : gmap string (list SeededTeam.t)) (baseline : gmap Z R)
    (east_teams west_teams : list SeededTeam.t)
    (n_simulations : Z) (k_factor home_court_adv : R) (seed : Z) (h : store) :
  Spec.holds_inputs playoff_field base_ratings field baseline h →
  field !! "East"%string = Some east_teams →
  field !! "West"%string = Some west_teams →
  Spec.has_seeds_1_to_8 east_teams →
  Spec.has_seeds_1_to_8 west_teams →
  0 < n_simulations →
  ∃ out h',
    Simulation.run_monte_carlo playoff_field base_ratings n_simulations
      k_factor home_court_adv seed h = Ok (out, h')
    ∧ ∀ (conference : string) (teams : list SeededTeam.t),
        (conference = "East"%string ∨ conference = "West"%string) →
        field !! conference = Some teams →
        ∃ odds,
          Spec.assoc conference (Simulation.conference_odds out) = Some odds
          ∧ Spec.total_probability odds = 1%R
          ∧ odds.*1 ⊆ SeededTeam.team_id <$> teams
          ∧ (NoDup (SeededTeam.team_id <$> teams) →
             Spec.total_over_teams odds teams = 1%R).
Proof.
  intros Hh HE HW SE SW Hn.
  destruct (independent_trials_odds field baseline east_teams west_teams
              n_simulations k_factor home_court_adv seed HE HW SE SW Hn)
    as (out & east_odds & west_odds & Hout & Hco & Hse & Hsw & Ne & Nw & Ke & Kw).
  pose proof (run_monte_carlo_store playoff_field base_ratings field baseline
                k_factor home_court_adv n_simulations seed h Hh) as Hrun.
  rewrite Hout in Hrun. destruct Hrun as (h' & Hrun & _).
  exists out, h'. split; [done|].
  intros conference teams [-> | ->] Hteams; rewrite Hco.
  - assert (teams = east_teams) as -> by congruence.
    exists east_odds. split; [done|]. split; [done|]. split; [done|].
    intros Hnodup. by rewrite total_over_teams_total.
  - assert (teams = west_teams) as -> by congruence.
    exists west_odds. split; [done|]. split; [done|]. split; [done|].
    intros Hnodup. by rewrite total_over_teams_total.
Qed.

Lemma conference_odds_sum_to_one_witness :
  (Spec.holds_inputs 1%positive 2%positive Examples.test_field Examples.conference_ratings
     Examples.test_store
   ∧ Examples.test_field !! "East"%string = Some Examples.east_teams
   ∧ Examples.test_field !! "West"%string = Some Examples.west_teams
   ∧ Spec.has_seeds_1_to_8 Examples.east_teams
   ∧ Spec.has_seeds_1_to_8 Examples.west_teams
   ∧ 0 < 300)
  ∧ ∃ out h',
      @Simulation.run_monte_carlo home_always_wins 1%positive 2%positive 300
        20%R 65%R 123 Examples.test_store = Ok (out, h')
      ∧ ∀ (conference : string) (teams : list SeededTeam.t),
          (conference = "East"%string ∨ conference = "West"%string) →
          Examples.test_field !! conference = Some teams →
          ∃ odds,
            Spec.assoc conference (Simulation.conference_odds out) = Some odds
            ∧ Spec.total_probability odds = 1%R
            ∧ odds.*1 ⊆ SeededTeam.team_id <$> teams
            ∧ (NoDup (SeededTeam.team_id <$> teams) →
               Spec.total_over_teams odds teams = 1%R).
Proof.
  assert (Spec.holds_inputs 1%positive 2%positive Examples.test_field
            Examples.conference_ratings Examples.test_store) as Hh
    by (split; reflexivity).
  assert (Spec.has_seeds_1_to_8 Examples.east_teams) as SE
    by (unfold Spec.has_seeds_1_to_8; apply (bool_decide_unpack _); vm_compute; exact I).
  assert (Spec.has_seeds_1_to_8 Examples.west_teams) as SW
    by (unfold Spec.has_seeds_1_to_8; apply (bool_decide_unpack _); vm_compute; exact I).
  split; [repeat split; (reflexivity || assumption)|].
  apply (@conference_odds_sum_to_one home_always_wins 1%positive 2%positive
           Examples.test_field Examples.conference_ratings Examples.east_teams
           Examples.west_teams 300 20%R 65%R 123 Examples.test_store Hh);
    (reflexivity || assumption).
Defined.

(** C9: a call of [run_monte_carlo] on a store that holds the field and
    the baseline dictionary leaves every object of that store as it was,
    among them the field and the baseline; each trial simulates on a
    dictionary it has just created with the entries of the baseline, so
    that the outputs are those of trials that all start from the
    baseline.  With seeds 1 to 8 in both conferences and a positive
    number of trials the call returns. *)
Theorem run_monte_carlo_preserves_inputs `{RandomGen}
    (playoff_field base_ratings : loc)
    (field : gmap string (list SeededTeam.t)) (baseline : gmap Z R)
    (n_simulations : Z) (k_factor home_court_adv : R) (seed : Z) (h : store) :
  Spec.holds_inputs playoff_field base_ratings field baseline h →
  match Simulation.run_monte_carlo playoff_field base_ratings n_simulations
          k_factor home_court_adv seed h with
  | Ok (out, h') =>
      h ⊆ h'
      ∧ Spec.holds_inputs playoff_field base_ratings field baseline h'
      ∧ Spec.independent_trials field baseline n_simulations k_factor
          home_court_adv seed = Ok out
  | Err e =>
      Spec.independent_trials field baseline n_simulations k_factor
        home_court_adv seed = Err e
  end
  ∧ (∀ (counts : Simulation.tally) (parent_rng : rng) (h_i : store),
       Spec.holds_inputs playoff_field base_ratings field baseline h_i →
       h_i !! fresh (dom h_i) = None
       ∧ Simulation.run_trial playoff_field base_ratings k_factor home_court_adv
           (counts, parent_rng, h_i)
         = '(counts', parent_rng', drifted) ←
             Spec.trial field baseline k_factor home_court_adv (counts, parent_rng);
           Ok (counts', parent_rng', <[fresh (dom h_i) := RatingsObj drifted]> h_i))
  ∧ (∀ east_teams west_teams,
       field !! "East"%string = Some east_teams →
       field !! "West"%string = Some west_teams →
       Spec.has_seeds_1_to_8 east_teams →
       Spec.has_seeds_1_to_8 west_teams →
       0 < n_simulations →
       ∃ out h',
         Simulation.run_monte_carlo playoff_field base_ratings n_simulations
           k_factor home_court_adv seed h = Ok (out, h')).
Proof.
  intros Hh.
  pose proof (run_monte_carlo_store playoff_field base_ratings field baseline
                k_factor home_court_adv n_simulations seed h Hh) as Hrun.
  split; [|split].
  - destruct (Spec.independent_trials _ _ _ _ _ _) as [out|e].
    + destruct Hrun as (h' & -> & Hsub). split; [done|].
      split; [by apply (holds_inputs_subseteq _ _ _ _ h)|done].
    + by rewrite Hrun.
  - intros counts parent_rng h_i Hi. split; [apply fresh_not_in|].
    by apply run_trial_store.
  - intros east_teams west_teams HE HW SE SW Hn.
    destruct (independent_trials_odds field baseline east_teams west_teams
                n_simulations k_factor home_court_adv seed HE HW SE SW Hn)
      as (out & _ & _ & Hout & _).
    rewrite Hout in Hrun. destruct Hrun as (h' & Hrun & _). by exists out, h'.
Qed.

Lemma run_monte_carlo_preserves_inputs_witness :
  Spec.holds_inputs 1%positive 2%positive Examples.test_field Examples.conference_ratings
    Examples.test_store
  ∧ ∃ out h',
      @Simulation.run_monte_carlo home_always_wins 1%positive 2%positive 300
        20%R 65%R 123 Examples.test_store = Ok (out, h')
      ∧ Examples.test_store ⊆ h'
      ∧ Spec.holds_inputs 1%positive 2%positive Examples.test_field
          Examples.conference_ratings h'.
Proof.
  assert (Spec.holds_inputs 1%positive 2%positive Examples.test_field
            Examples.conference_ratings Examples.test_store) as Hh
    by (split; reflexivity).
  assert (Spec.has_seeds_1_to_8 Examples.east_teams) as SE
    by (unfold Spec.has_seeds_1_to_8; apply (bool_decide_unpack _); vm_compute; exact I).
  assert (Spec.has_seeds_1_to_8 Examples.west_teams) as SW
    by (unfold Spec.has_seeds_1_to_8; apply (bool_decide_unpack _); vm_compute; exact I).
  split; [done|].
  destruct (@run_monte_carlo_preserves_inputs home_always_wins 1%positive 2%positive
              Examples.test_field Examples.conference_ratings 300 20%R 65%R 123
              Examples.test_store Hh) as (Hframe & _ & Hreturns).
  destruct (Hreturns Examples.east_teams Examples.west_teams) as (out & h' & Hrun);
    [reflexivity | reflexivity | assumption | assumption | lia |].
  rewrite Hrun in Hframe. destruct Hframe as (Hsub & Hh' & _).
  by exists out, h'.
Defined.

(** ** A run of the bracket with a final between seed 1 and seed 8 *)

Section scripted_run.
Import Bracket.
Variable draw : nat → R.
Local Abbreviation G := (scripted draw).

Lemma update_elo_k0 (home_elo away_elo : R) (home_won : bool) (home_court_adv : R) :
  Elo.update_elo home_elo away_elo home_won 0 home_court_adv = (home_elo, away_elo).
Proof. unfold Elo.update_elo. cbv zeta. f_equal; lra. Qed.

Lemma prob_equal_ratings (r : R) : Elo.expected_home_win_prob r r 0 = (1 / 2)%R.
Proof.
  unfold Elo.expected_home_win_prob. cbv zeta.
  replace ((r - (r + 0)) / 400)%R with 0%R by lra.
  rewrite Rpower_O by lra. lra.
Qed.

Lemma Rltb_prob_equal_ratings (r : R) :
  Rltb (3 / 4) (Elo.expected_home_win_prob r r 0) = false.
Proof.
  rewrite prob_equal_ratings. unfold Rltb.
  destruct (Rlt_dec _ _) as [Hlt|]; [lra | done].
Qed.

(** A game with k-factor 0 between two rated teams leaves the ratings
    as they are; the higher seed wins it when it is at home and the home
    team wins, or when it is away and the home team loses. *)
Lemma play_game_k0 (high_seed low_seed : SeededTeam.t) (home_court_adv : R)
    (high_is_home : bool) (hw lw : Z) (ratings : gmap Z R) (i : nat) (rh rl : R) :
  ratings !! SeededTeam.team_id high_seed = Some rh →
  ratings !! SeededTeam.team_id low_seed = Some rl →
  SeededTeam.team_id high_seed ≠ SeededTeam.team_id low_seed →
  @play_game G high_seed low_seed 0 home_court_adv high_is_home
    (@SeriesState G hw lw ratings i)
  = if Bool.eqb high_is_home
         (Rltb (draw i)
            (if high_is_home then Elo.expected_home_win_prob rh rl home_court_adv
             else Elo.expected_home_win_prob rl rh home_court_adv))
    then @SeriesState G (hw + 1) lw ratings (S i)
    else @SeriesState G hw (lw + 1) ratings (S i).
Proof.
  intros Hh Hl Hne. unfold play_game.
  cbn [cur_ratings cur_rng high_wins low_wins random scripted].
  rewrite update_elo_k0. unfold rating_of.
  assert ((SeededTeam.team_id low_seed =? SeededTeam.team_id high_seed) = false) as Hf
    by (apply Z.eqb_neq; congruence).
  destruct high_is_home; rewrite Hh, Hl; cbn [default from_option]; unfold Datatypes.id.
  - rewrite (insert_id ratings _ _ Hh), (insert_id ratings _ _ Hl).
    rewrite Z.eqb_refl, Hf. by destruct (Rltb _ _).
  - rewrite (insert_id ratings _ _ Hl), (insert_id ratings _ _ Hh).
    rewrite Z.eqb_refl, Hf. by destruct (Rltb _ _).
Qed.

Lemma series_loop_k0 (high_seed low_seed : SeededTeam.t) (home_court_adv : R)
    (schedule : list bool) (hw lw : Z) (ratings : gmap Z R) (i : nat) (rh rl : R) :
  ratings !! SeededTeam.team_id high_seed = Some rh →
  ratings !! SeededTeam.team_id low_seed = Some rl →
  SeededTeam.team_id high_seed ≠ SeededTeam.team_id low_seed →
  @series_loop G high_seed low_seed 0 home_court_adv schedule
    (@SeriesState G hw lw ratings i)
  = let '(hw', lw', i') :=
      Spec.outcome_loop schedule
        (λ j high_is_home,
           Rltb (draw j)
             (if high_is_home then Elo.expected_home_win_prob rh rl home_court_adv
              else Elo.expected_home_win_prob rl rh home_court_adv))
        i (hw, lw) in
    @SeriesState G hw' lw' ratings i'.
Proof.
  intros Hh Hl Hne. revert hw lw i.
  induction schedule as [|b rest IH]; intros hw lw i; [done|].
  cbn [series_loop Spec.outcome_loop high_wins low_wins fst snd].
  destruct ((hw =? 4) || (lw =? 4)); [done|].
  rewrite (play_game_k0 _ _ _ _ _ _ _ _ rh rl Hh Hl Hne).
  destruct (Bool.eqb _ _); apply IH.
Qed.

Lemma outcome_loop_ext (schedule : list bool) (f g : nat → bool → bool)
    (i : nat) (wins : Z * Z) :
  (∀ j b, (i ≤ j < i + length schedule)%nat → f j b = g j b) →
  Spec.outcome_loop schedule f i wins = Spec.outcome_loop schedule g i wins.
Proof.
  revert i wins. induction schedule as [|b rest IH]; intros i wins Hfg; [done|].
  cbn [Spec.outcome_loop]. destruct ((wins.1 =? 4) || (wins.2 =? 4)); [done|].
  rewrite (Hfg i b) by (cbn [length]; lia).
  apply IH. intros j b' Hj. apply Hfg. cbn [length]. lia.
Qed.

(** Seven draws of 0: the home team wins every game, and the higher
    seed the series. *)
Lemma series_k0_home_wins (high_seed low_seed : SeededTeam.t) (home_court_adv : R)
    (ratings : gmap Z R) (i : nat) (rh rl : R) :
  ratings !! SeededTeam.team_id high_seed = Some rh →
  ratings !! SeededTeam.team_id low_seed = Some rl →
  SeededTeam.team_id high_seed ≠ SeededTeam.team_id low_seed →
  (∀ j, (i ≤ j < i + 7)%nat → draw j = 0%R) →
  @_simulate_series G high_seed low_seed ratings i 0 home_court_adv
  = (high_seed, ratings, (7 + i)%nat).
Proof.
  intros Hh Hl Hne Hdraw. unfold _simulate_series, series_final.
  rewrite (series_loop_k0 _ _ _ _ _ _ _ _ rh rl Hh Hl Hne).
  rewrite (outcome_loop_ext _ _ (λ _ _, true)).
  - reflexivity.
  - intros j b Hj. rewrite (Hdraw j) by (cbn [length schedule_high_home] in Hj; lia).
    destruct b; apply Rltb_zero_prob.
Qed.

(** Seven draws of 3/4 between teams of equal rating and without
    home-court advantage: the home team loses every game, and the lower
    seed wins the series. *)
Lemma series_k0_home_loses (high_seed low_seed : SeededTeam.t)
    (ratings : gmap Z R) (i : nat) (r : R) :
  ratings !! SeededTeam.team_id high_seed = Some r →
  ratings !! SeededTeam.team_id low_seed = Some r →
  SeededTeam.team_id high_seed ≠ SeededTeam.team_id low_seed →
  (∀ j, (i ≤ j < i + 7)%nat → draw j = (3 / 4)%R) →
  @_simulate_series G high_seed low_seed ratings i 0 0
  = (low_seed, ratings, (7 + i)%nat).
Proof.
  intros Hh Hl Hne Hdraw. unfold _simulate_series, series_final.
  rewrite (series_loop_k0 _ _ _ _ _ _ _ _ r r Hh Hl Hne).
  rewrite (outcome_loop_ext _ _ (λ _ _, false)).
  - reflexivity.
  - intros j b Hj. rewrite (Hdraw j) by (cbn [length schedule_high_home] in Hj; lia).
    destruct b; apply Rltb_prob_equal_ratings.
Qed.

End scripted_run.

Section upset_run.
Import Bracket.
Local Abbreviation G := (scripted Examples.upset_draws).

Lemma test_field_by_seed (s : Z) :
  1 ≤ s ≤ 8 →
  getitem (index_by_seed Examples.east_teams) s = Ok (Examples.east_seed s)
  ∧ getitem (index_by_seed Examples.west_teams) s = Ok (Examples.west_seed s).
Proof.
  intros Hs.
  assert (s = 1 ∨ s = 2 ∨ s = 3 ∨ s = 4 ∨ s = 5 ∨ s = 6 ∨ s = 7 ∨ s = 8) as Hcases by lia.
  destruct Hcases as [->|[->|[->|[->|[->|[->|[->| ->]]]]]]]; split; reflexivity.
Qed.

Lemma conference_ratings_east (s : Z) :
  1 ≤ s ≤ 8 →
  Examples.conference_ratings !! SeededTeam.team_id (Examples.east_seed s) = Some 1400%R.
Proof.
  intros Hs.
  assert (s = 1 ∨ s = 2 ∨ s = 3 ∨ s = 4 ∨ s = 5 ∨ s = 6 ∨ s = 7 ∨ s = 8) as Hcases by lia.
  destruct Hcases as [->|[->|[->|[->|[->|[->|[->| ->]]]]]]]; reflexivity.
Qed.

Lemma conference_ratings_west (s : Z) :
  1 ≤ s ≤ 8 →
  Examples.conference_ratings !! SeededTeam.team_id (Examples.west_seed s) = Some 1600%R.
Proof.
  intros Hs.
  assert (s = 1 ∨ s = 2 ∨ s = 3 ∨ s = 4 ∨ s = 5 ∨ s = 6 ∨ s = 7 ∨ s = 8) as Hcases by lia.
  destruct Hcases as [->|[->|[->|[->|[->|[->|[->| ->]]]]]]]; reflexivity.
Qed.

Lemma upset_draws_east (i j : nat) :
  (i + 7 ≤ 49)%nat → (i ≤ j < i + 7)%nat → Examples.upset_draws j = 0%R.
Proof.
  intros Hi Hj. unfold Examples.upset_draws.
  destruct (Nat.ltb_spec j 49); [done | lia].
Qed.

Lemma upset_draws_west (i j : nat) :
  (49 ≤ i)%nat → (i + 7 ≤ 98)%nat → (i ≤ j < i + 7)%nat →
  Examples.upset_draws j = (3 / 4)%R.
Proof.
  intros Hi Hi' Hj. unfold Examples.upset_draws.
  destruct (Nat.ltb_spec j 49); [lia|]. destruct (Nat.ltb_spec j 98); [done | lia].
Qed.

Lemma upset_draws_final (j : nat) : (98 ≤ j)%nat → Examples.upset_draws j = 0%R.
Proof.
  intros Hj. unfold Examples.upset_draws.
  destruct (Nat.ltb_spec j 49); [lia|]. destruct (Nat.ltb_spec j 98); [lia | done].
Qed.

(** A series of the East bracket: the higher seed wins. *)
Lemma east_series (a b : Z) (i : nat) :
  1 ≤ a ≤ 8 → 1 ≤ b ≤ 8 → a ≠ b → (i + 7 ≤ 49)%nat →
  @_simulate_series G (Examples.east_seed a) (Examples.east_seed b)
    Examples.conference_ratings i 0 0
  = (Examples.east_seed a, Examples.conference_ratings, (7 + i)%nat).
Proof.
  intros Ha Hb Hab Hi.
  apply (series_k0_home_wins Examples.upset_draws _ _ 0 _ i 1400 1400).
  - by apply conference_ratings_east.
  - by apply conference_ratings_east.
  - cbn. lia.
  - intros j Hj. by apply (upset_draws_east i).
Qed.

(** A series of the West bracket: the lower seed wins. *)
Lemma west_series (a b : Z) (i : nat) :
  1 ≤ a ≤ 8 → 1 ≤ b ≤ 8 → a ≠ b → (49 ≤ i)%nat → (i + 7 ≤ 98)%nat →
  @_simulate_series G (Examples.west_seed a) (Examples.west_seed b)
    Examples.conference_ratings i 0 0
  = (Examples.west_seed b, Examples.conference_ratings, (7 + i)%nat).
Proof.
  intros Ha Hb Hab Hi Hi'.
  apply (series_k0_home_loses Examples.upset_draws _ _ _ i 1600).
  - by apply conference_ratings_west.
  - by apply conference_ratings_west.
  - cbn. lia.
  - intros j Hj. by apply (upset_draws_west i).
Qed.

Lemma east_bracket :
  @conference_bracket G Examples.test_field "East" Examples.conference_ratings 0%nat 0 0
  = Ok (Examples.east_seed 1, Examples.conference_ratings, 49%nat).
Proof.
  unfold conference_bracket.
  change (getitem Examples.test_field "East"%string) with (Ok Examples.east_teams).
  cbn [mbind result_bind].
  rewrite !(λ s Hs, proj1 (test_field_by_seed s Hs)) by lia.
  cbn [mbind result_bind].
  rewrite (east_series 1 8 0) by lia. cbn [mbind result_bind Nat.add].
  rewrite (east_series 4 5 7) by lia. cbn [mbind result_bind Nat.add].
  rewrite (east_series 2 7 14) by lia. cbn [mbind result_bind Nat.add].
  rewrite (east_series 3 6 21) by lia. cbn [Nat.add].
  unfold _series_with_home_court.
  cbn [SeededTeam.seed Examples.east_seed Z.ltb Z.compare Pos.compare Pos.compare_cont].
  rewrite (east_series 1 4 28) by lia. cbn [Nat.add].
  rewrite (east_series 2 3 35) by lia. cbn [Nat.add].
  cbn [SeededTeam.seed Examples.east_seed Z.ltb Z.compare Pos.compare Pos.compare_cont].
  rewrite (east_series 1 2 42) by lia.
  reflexivity.
Qed.

Lemma west_bracket :
  @conference_bracket G Examples.test_field "West" Examples.conference_ratings 49%nat 0 0
  = Ok (Examples.west_seed 8, Examples.conference_ratings, 98%nat).
Proof.
  unfold conference_bracket.
  change (getitem Examples.test_field "West"%string) with (Ok Examples.west_teams).
  cbn [mbind result_bind].
  rewrite !(λ s Hs, proj2 (test_field_by_seed s Hs)) by lia.
  cbn [mbind result_bind].
  rewrite (west_series 1 8 49) by lia. cbn [mbind result_bind Nat.add].
  rewrite (west_series 4 5 56) by lia. cbn [mbind result_bind Nat.add].
  rewrite (west_series 2 7 63) by lia. cbn [mbind result_bind Nat.add].
  rewrite (west_series 3 6 70) by lia. cbn [Nat.add].
  unfold _series_with_home_court.
  cbn [SeededTeam.seed Examples.west_seed Z.ltb Z.compare Pos.compare Pos.compare_cont].
  rewrite (west_series 5 8 77) by lia. cbn [Nat.add].
  rewrite (west_series 6 7 84) by lia. cbn [Nat.add].
  cbn [SeededTeam.seed Examples.west_seed Z.ltb Z.compare Pos.compare Pos.compare_cont].
  rewrite (west_series 7 8 91) by lia.
  reflexivity.
Qed.

(** The final of this run: the West champion, seed 8 and rated 1600,
    takes the higher-seed role against the East champion, seed 1 and
    rated 1400, and wins the title with its four home games. *)
Lemma upset_final :
  @finals_series G (Examples.east_seed 1) (Examples.west_seed 8)
    Examples.conference_ratings 98%nat 0 0
  = (Examples.west_seed 8, Examples.conference_ratings, 105%nat).
Proof.
  unfold finals_series, rating_of. cbv zeta.
  rewrite (conference_ratings_east 1), (conference_ratings_west 8) by lia.
  cbn [default from_option]. unfold Datatypes.id.
  assert (Rgeb 1400 1600 = false) as -> by (apply Rgeb_false; lra).
  apply (series_k0_home_wins Examples.upset_draws _ _ 0 _ 98 1600 1400).
  - by apply conference_ratings_west.
  - by apply conference_ratings_east.
  - cbn. lia.
  - intros j Hj. apply upset_draws_final. lia.
Qed.

End upset_run.

(** A run of [simulate_playoffs] that reaches a final between the seed
    1 of the East and the seed 8 of the West, in which the home team wins
    every game of the final: the team that is given the higher-seed role
    wins the title, and it is the seed 8. *)
Example final_between_seed_1_and_seed_8 :
  @Bracket.simulate_playoffs (scripted Examples.upset_draws) Examples.test_field
    Examples.conference_ratings 0%nat 0 0
  = Ok (Examples.west_seed 8, Examples.east_seed 1, Examples.west_seed 8,
        Examples.conference_ratings, 105%nat).
Proof.
  unfold Bracket.simulate_playoffs. cbn [foldl mbind result_bind].
  rewrite east_bracket. cbn [mbind result_bind].
  rewrite west_bracket. cbn [mbind result_bind].
  rewrite (getitem_Some _ "East"%string (Examples.east_seed 1)),
    (getitem_Some _ "West"%string (Examples.west_seed 8));
    [| by rewrite lookup_insert_eq | by rewrite lookup_insert_ne, lookup_insert_eq].
  cbn [mbind result_bind]. by rewrite upset_final.
Qed.

(** ** Checks on concrete inputs *)

Section checks.

(** The two tests of [tests/test_elo.py]. *)
Example home_edge_at_1500 : (1 / 2 < Elo.expected_home_win_prob 1500 1500 65)%R.
Proof.
  unfold Elo.expected_home_win_prob. cbv zeta.
  apply inv_one_plus_half; [apply Rpower_pos|]. apply Rpower_10_neg. lra.
Qed.

Example total_rating_at_3000 :
  let '(new_home, new_away) := Elo.update_elo 1520 1480 true 20 65 in
  (new_home + new_away = 3000)%R.
Proof. unfold Elo.update_elo. cbv zeta. lra. Qed.

(** Conference names are matched after trimming and title-casing. *)
Example normalize_mixed_case : Bracket.normalize_conference "  eAsT " = "East"%string.
Proof. reflexivity. Qed.

Example normalize_other : Bracket.normalize_conference "Eastern" = "Eastern"%string.
Proof. reflexivity. Qed.

(** Ten rows of the East with different win percentages: the best eight
    are seeded 1 to 8 in the order of their win percentage. *)
Example east_seeds :
  match Bracket.build_playoff_field Examples.standings with
  | Ok field =>
      (λ t, (SeededTeam.seed t, SeededTeam.team_id t)) <$> default [] (field !! "East"%string)
      = [(1, 110); (2, 109); (3, 108); (4, 107); (5, 106); (6, 105); (7, 104); (8, 103)]
  | Err _ => False
  end.
Proof. vm_compute. reflexivity. Qed.

(** With only seven rows in the West the field is refused. *)
Example seven_teams_refused :
  Bracket.build_playoff_field (take 18 Examples.standings)
  = Err (ValueError
      "Could not build playoff field: both conferences need at least 8 teams in standings").
Proof. vm_compute. reflexivity. Qed.

(** Equal win percentage ([25/41 = 50/82]): the row with more wins comes
    first; equal records: the names decide. *)
Example tie_breaks :
  TeamStanding.team_id <$>
    Py.sorted Bracket.sort_key Bracket.key_lt
      [TeamStanding.mk 2024 1 "Hawks" "East" 25 16;
       TeamStanding.mk 2024 2 "Nets" "East" 50 32;
       TeamStanding.mk 2024 3 "Bulls" "East" 50 32;
       TeamStanding.mk 2024 4 "Heat" "East" 0 0]
  = [3; 2; 1; 4].
Proof. vm_compute. reflexivity. Qed.

(** [most_common] keeps the insertion order of equal counts. *)
Example most_common_ties :
  Counter.most_common 2
    [("A vs B"%string, 1); ("C vs D"%string, 3); ("E vs F"%string, 3); ("G vs H"%string, 2)]
  = [("C vs D"%string, 3); ("E vs F"%string, 3)].
Proof. vm_compute. reflexivity. Qed.

(** When the home team wins every game the higher seed takes the series
    in seven games. *)
Example home_team_wins_every_game :
  Spec.home_wins_loop Bracket.schedule_high_home (0, 0) = (4, 3).
Proof. reflexivity. Qed.

End checks.

(* ================================================================= *)
(** * Further properties of the rating model *)

Section elo_more.
Local Open Scope R_scope.
Import Elo.



End elo_more.




(** X2: seen from the other bench the probability is the complement:
    with the two ratings exchanged and the advantage negated the function
    returns one minus its value. *)
Theorem expected_home_win_prob_complement (home_elo away_elo home_court_adv : R) :
  (Elo.expected_home_win_prob home_elo away_elo home_court_adv
   + Elo.expected_home_win_prob away_elo home_elo (- home_court_adv) = 1)%R.
Proof.
  unfold Elo.expected_home_win_prob. cbv zeta.
  replace ((home_elo - (away_elo + - home_court_adv)) / 400)%R
    with (- ((away_elo - (home_elo + home_court_adv)) / 400))%R by lra.
  rewrite Rpower_Ropp.
  pose proof (Rpower_pos 10 ((away_elo - (home_elo + home_court_adv)) / 400)) as He.
  set (e := Rpower 10 _) in *. field. split; lra.
Qed.



(** * Further properties of the standings *)

(** X4: a win percentage lies between 0 and 1 when neither count is
    negative, whether or not the team has played. *)
Theorem win_pct_range (s : TeamStanding.t) :
  0 ≤ TeamStanding.wins s → 0 ≤ TeamStanding.losses s →
  (0 <= TeamStanding.win_pct s <= 1)%Q.
Proof.
  intros Hw Hl. unfold TeamStanding.win_pct. cbv zeta.
  destruct (Z.eqb_spec (TeamStanding.wins s + TeamStanding.losses s) 0) as [H0|H0].
  - split; [apply Qle_refl | discriminate].
  - assert (0 < inject_Z (TeamStanding.wins s + TeamStanding.losses s))%Q as Hpos.
    { change 0%Q with (inject_Z 0). rewrite <- Zlt_Qlt. lia. }
    split.
    + apply Qle_shift_div_l; [done|]. rewrite Qmult_0_l.
      change 0%Q with (inject_Z 0). by rewrite <- Zle_Qle.
    + apply Qle_shift_div_r; [done|]. rewrite Qmult_1_l.
      rewrite <- Zle_Qle. lia.
Qed.

Lemma win_pct_range_witness :
  (0 ≤ 50 ∧ 0 ≤ 32)
  ∧ (0 <= TeamStanding.win_pct (TeamStanding.mk 2024 1 "Bulls" "East" 50 32) <= 1)%Q.
Proof.
  split; [lia|].
  apply (win_pct_range (TeamStanding.mk 2024 1 "Bulls" "East" 50 32)); simpl; lia.
Defined.

(** * Further properties of the bracket seeder *)

Section sorted_unique.
Context {A K : Type} (key : A → K) (cmp : K → K → comparison).
Context (Hcmp : Order.order_like cmp).

(** Two sorted arrangements of the same elements are equal when the
    order separates different elements. *)
Lemma strongly_sorted_perm_eq (R : A → A → Prop) (l1 l2 : list A) :
  StronglySorted R l1 → StronglySorted R l2 → Permutation l1 l2 →
  (∀ x y, x ∈ l1 → y ∈ l1 → R x y → R y x → x = y) →
  l1 = l2.
Proof.
  intros H1. revert l2. induction H1 as [|x l1 Hl1 IH Hx]; intros l2 H2 Hperm Hanti.
  - by apply Permutation_nil in Hperm.
  - destruct H2 as [|y l2 Hl2 Hy].
    { symmetry in Hperm. by apply Permutation_nil in Hperm. }
    assert (x = y) as ->.
    { assert (x ∈ y :: l2) as Hxin by (rewrite <- Hperm; apply list_elem_of_here).
      assert (y ∈ x :: l1) as Hyin by (rewrite Hperm; apply list_elem_of_here).
      apply elem_of_cons in Hxin as [?|Hxin]; [done|].
      apply elem_of_cons in Hyin as [?|Hyin]; [done|].
      rewrite Forall_forall in Hx, Hy.
      apply Hanti; [apply list_elem_of_here | by apply list_elem_of_further | auto | auto]. }
    f_equal. apply IH; [done | by apply Permutation_cons_inv in Hperm |].
    intros a b Ha Hb. apply Hanti; by apply list_elem_of_further.
Qed.

(** Sorting does not depend on the order of the input when no two
    different elements have keys that compare equal. *)
Lemma sorted_perm_eq (l1 l2 : list A) :
  Permutation l1 l2 →
  (∀ x y, x ∈ l1 → y ∈ l1 → cmp (key x) (key y) = Eq → x = y) →
  Py.sorted key (Order.ltb_of cmp) l1 = Py.sorted key (Order.ltb_of cmp) l2.
Proof.
  intros Hperm Hkeys.
  apply (strongly_sorted_perm_eq (Order.le_by key cmp)).
  - by apply sorted_sorted.
  - by apply sorted_sorted.
  - by rewrite !sorted_perm.
  - intros x y Hxin Hyin Hxy Hyx.
    rewrite (sorted_perm key cmp l1) in Hxin, Hyin.
    apply Hkeys; [done | done |].
    unfold Order.le_by in Hxy, Hyx.
    destruct (cmp (key x) (key y)) eqn:E; [done | | done].
    apply (cmp_gt_lt cmp Hcmp) in E. done.
Qed.

End sorted_unique.

Lemma qualifying_perm (conference : string) (l1 l2 : list TeamStanding.t) :
  Permutation l1 l2 →
  Permutation (Spec.qualifying conference l1) (Spec.qualifying conference l2).
Proof. intros Hperm. unfold Spec.qualifying. by rewrite Hperm. Qed.

Lemma qualifying_elem_of (conference : string) (l : list TeamStanding.t)
    (row : TeamStanding.t) :
  row ∈ Spec.qualifying conference l → row ∈ l.
Proof. unfold Spec.qualifying. rewrite list_elem_of_filter. by intros [_ ?]. Qed.

(** X5: the field does not depend on the order in which the standings
    arrive, provided no two different rows agree on win percentage,
    wins, losses and team name: the same field is built, or the same
    error raised. *)
Theorem build_playoff_field_order_independent (standings standings' : list TeamStanding.t) :
  Permutation standings standings' →
  (∀ a b, a ∈ standings → b ∈ standings →
     Bracket.key_compare (Bracket.sort_key a) (Bracket.sort_key b) = Eq → a = b) →
  Bracket.build_playoff_field standings = Bracket.build_playoff_field standings'.
Proof.
  intros Hperm Hkeys.
  pose proof (build_playoff_field_unfold standings) as H1.
  pose proof (build_playoff_field_unfold standings') as H2.
  cbv zeta in H1, H2. rewrite H1, H2.
  assert (∀ conference,
            Py.sorted Bracket.sort_key Bracket.key_lt (Spec.qualifying conference standings)
            = Py.sorted Bracket.sort_key Bracket.key_lt
                (Spec.qualifying conference standings')) as Hsorted.
  { intros conference.
    apply (sorted_perm_eq Bracket.sort_key Bracket.key_compare key_compare_order_like).
    - by apply qualifying_perm.
    - intros x y Hx Hy. apply Hkeys; by eapply qualifying_elem_of. }
  rewrite !Hsorted.
  rewrite (Permutation_length (qualifying_perm "East" _ _ Hperm)).
  rewrite (Permutation_length (qualifying_perm "West" _ _ Hperm)).
  done.
Qed.

Lemma build_playoff_field_order_independent_witness :
  (Permutation Examples.standings (reverse Examples.standings)
   ∧ ∀ a b, a ∈ Examples.standings → b ∈ Examples.standings →
       Bracket.key_compare (Bracket.sort_key a) (Bracket.sort_key b) = Eq → a = b)
  ∧ Bracket.build_playoff_field Examples.standings
    = Bracket.build_playoff_field (reverse Examples.standings).
Proof.
  assert (Permutation Examples.standings (reverse Examples.standings)) as Hperm
    by (symmetry; apply reverse_Permutation).
  assert (∀ a b, a ∈ Examples.standings → b ∈ Examples.standings →
            Bracket.key_compare (Bracket.sort_key a) (Bracket.sort_key b) = Eq → a = b)
    as Hkeys.
  { assert (Forall (λ a, Forall (λ b,
              Bracket.key_compare (Bracket.sort_key a) (Bracket.sort_key b) = Eq → a = b)
              Examples.standings) Examples.standings) as Hall
      by (apply (bool_decide_unpack _); vm_compute; exact I).
    intros a b Ha Hb. rewrite Forall_forall in Hall.
    specialize (Hall a Ha). rewrite Forall_forall in Hall. by apply Hall. }
  split; [by split|].
  exact (build_playoff_field_order_independent Examples.standings
           (reverse Examples.standings) Hperm Hkeys).
Defined.

Section built_field.
Import Bracket.

Lemma seed_rows_has_seeds (conference : string) (rows : list TeamStanding.t) :
  length rows = 8%nat → Spec.has_seeds_1_to_8 (seed_rows conference rows).
Proof.
  intros Hlen. unfold Spec.has_seeds_1_to_8.
  rewrite (seeds_of_seed_rows conference rows Hlen).
  apply Forall_forall. auto.
Qed.

Lemma seed_rows_team_ids (conference : string) (rows : list TeamStanding.t) :
  SeededTeam.team_id <$> seed_rows conference rows = TeamStanding.team_id <$> rows.
Proof.
  unfold seed_rows. apply list_eq. intros i.
  rewrite !list_lookup_fmap, list_lookup_imap. by destruct (rows !! i).
Qed.

(** What a successful call returns: the two lists made from the first
    eight rows of each sorted conference. *)
Lemma build_playoff_field_Ok (standings : list TeamStanding.t)
    (field : gmap string (list SeededTeam.t)) :
  build_playoff_field standings = Ok field →
  ∃ east_rows west_rows,
    field !! "East"%string = Some (seed_rows "East" east_rows)
    ∧ field !! "West"%string = Some (seed_rows "West" west_rows)
    ∧ length east_rows = 8%nat ∧ length west_rows = 8%nat
    ∧ east_rows ⊆ Spec.qualifying "East" standings
    ∧ west_rows ⊆ Spec.qualifying "West" standings.
Proof.
  pose proof (build_playoff_field_unfold standings) as Hbuild.
  cbv zeta in Hbuild. rewrite Hbuild.
  destruct (Nat.ltb_spec (length (Spec.qualifying "East" standings)) 8) as [HE|HE];
    [done|].
  destruct (Nat.ltb_spec (length (Spec.qualifying "West" standings)) 8) as [HW|HW];
    [done|].
  cbn [orb]. intros [= <-].
  eexists _, _. split; [by rewrite lookup_insert_ne, lookup_insert_eq|].
  split; [by rewrite lookup_insert_eq|].
  rewrite !length_take, !length_sorted.
  split; [lia|]. split; [lia|].
  split; intros row Hrow; apply elem_of_take in Hrow as (i & Hrow & _);
    apply list_elem_of_lookup_2 in Hrow;
    by rewrite (sorted_perm sort_key key_compare) in Hrow.
Qed.

End built_field.

(** X6: a field that [build_playoff_field] returns is accepted by the
    bracket runner: [simulate_playoffs] returns on it for every rating
    map and generator, without a [KeyError], and the two conference
    champions carry identifiers of qualifying rows of their conference. *)
Theorem built_field_is_playable `{RandomGen} (standings : list TeamStanding.t)
    (field : gmap string (list SeededTeam.t))
    (ratings : gmap Z R) (g : rng) (k_factor home_court_adv : R) :
  Bracket.build_playoff_field standings = Ok field →
  ∃ champion east_champ west_champ ratings' g',
    Bracket.simulate_playoffs field ratings g k_factor home_court_adv
    = Ok (champion, east_champ, west_champ, ratings', g')
    ∧ SeededTeam.team_id east_champ
      ∈ TeamStanding.team_id <$> Spec.qualifying "East" standings
    ∧ SeededTeam.team_id west_champ
      ∈ TeamStanding.team_id <$> Spec.qualifying "West" standings.
Proof.
  intros Hbuild.
  destruct (build_playoff_field_Ok standings field Hbuild)
    as (east_rows & west_rows & HE & HW & LE & LW & SE & SW).
  destruct (simulate_playoffs_total field _ _ ratings g k_factor home_court_adv HE HW
              (seed_rows_has_seeds "East" east_rows LE)
              (seed_rows_has_seeds "West" west_rows LW))
    as (champion & east & west & r' & g' & Hrun & Heast & Hwest & _).
  exists champion, east, west, r', g'. split; [done|].
  split.
  - apply (list_elem_of_fmap_2 SeededTeam.team_id) in Heast.
    rewrite seed_rows_team_ids in Heast.
    apply list_elem_of_fmap in Heast as (row & -> & Hrow).
    apply list_elem_of_fmap_2. by apply SE.
  - apply (list_elem_of_fmap_2 SeededTeam.team_id) in Hwest.
    rewrite seed_rows_team_ids in Hwest.
    apply list_elem_of_fmap in Hwest as (row & -> & Hrow).
    apply list_elem_of_fmap_2. by apply SW.
Qed.

Lemma built_field_is_playable_witness :
  ∃ field,
    Bracket.build_playoff_field Examples.standings = Ok field
    ∧ ∃ champion east_champ west_champ ratings' g',
        @Bracket.simulate_playoffs home_always_wins field ∅ tt 20%R 65%R
        = Ok (champion, east_champ, west_champ, ratings', g')
        ∧ SeededTeam.team_id east_champ
          ∈ TeamStanding.team_id <$> Spec.qualifying "East" Examples.standings
        ∧ SeededTeam.team_id west_champ
          ∈ TeamStanding.team_id <$> Spec.qualifying "West" Examples.standings.
Proof.
  destruct (Bracket.build_playoff_field Examples.standings) as [field|e] eqn:Hbuild.
  - exists field. split; [done|].
    exact (@built_field_is_playable home_always_wins Examples.standings field ∅ tt
             20%R 65%R Hbuild).
  - exfalso. vm_compute in Hbuild. discriminate Hbuild.
Defined.

(** * Further properties of the series simulator *)

Section series_ratings.
Context `{RandomGen}.
Import Bracket.

Variables (high_seed low_seed : SeededTeam.t) (k_factor home_court_adv : R).

Local Abbreviation hi := (SeededTeam.team_id high_seed).
Local Abbreviation lo := (SeededTeam.team_id low_seed).
Local Abbreviation play := (play_game high_seed low_seed k_factor home_court_adv).
Local Abbreviation loop := (series_loop high_seed low_seed k_factor home_court_adv).

(** The rating dictionary after a game: two entries are written, and
    what is written adds up to what was read. *)
Lemma play_game_ratings (b : bool) (s : series_state) :
  ∃ new_home new_away : R,
    cur_ratings (play b s)
    = <[(if b then lo else hi) := new_away]>
        (<[(if b then hi else lo) := new_home]> (cur_ratings s))
    ∧ (new_home + new_away
       = rating_of (cur_ratings s) (if b then hi else lo)
         + rating_of (cur_ratings s) (if b then lo else hi))%R.
Proof.
  unfold play_game.
  destruct (random (cur_rng s)) as [draw g].
  set (home := if b then high_seed else low_seed).
  set (away := if b then low_seed else high_seed).
  set (home_elo := rating_of (cur_ratings s) (SeededTeam.team_id home)).
  set (away_elo := rating_of (cur_ratings s) (SeededTeam.team_id away)).
  set (won := Rltb draw _).
  assert ((Elo.update_elo home_elo away_elo won k_factor home_court_adv).1
          + (Elo.update_elo home_elo away_elo won k_factor home_court_adv).2
          = home_elo + away_elo)%R as Hsum.
  { unfold Elo.update_elo. cbv zeta. cbn [fst snd]. lra. }
  destruct (Elo.update_elo home_elo away_elo won k_factor home_court_adv)
    as [new_home new_away].
  cbn [fst snd] in Hsum.
  exists new_home, new_away.
  split; [|subst home away home_elo away_elo; by destruct b].
  subst home away. by destruct b; destruct (_ || _).
Qed.

Lemma not_elem_of_pair (x a b : Z) : x ∉ ({[a; b]} : gset Z) → x ≠ a ∧ x ≠ b.
Proof.
  intros Hx. split; intros ->; apply Hx; apply elem_of_union; [left | right];
    by apply elem_of_singleton.
Qed.

Lemma play_game_agree (b : bool) (s : series_state) :
  More.agree_except {[hi; lo]} (cur_ratings s) (cur_ratings (play b s)).
Proof.
  destruct (play_game_ratings b s) as (nh & na & -> & _).
  intros id Hid. apply not_elem_of_pair in Hid as [Hh Hl].
  destruct b; by rewrite !lookup_insert_ne.
Qed.

Lemma play_game_dom (b : bool) (s : series_state) :
  dom (cur_ratings (play b s)) = {[hi; lo]} ∪ dom (cur_ratings s).
Proof.
  destruct (play_game_ratings b s) as (nh & na & -> & _).
  rewrite !dom_insert_L. apply set_eq. intros x.
  rewrite !elem_of_union, !elem_of_singleton. destruct b; tauto.
Qed.

Lemma play_game_sum (b : bool) (s : series_state) :
  hi ≠ lo →
  (rating_of (cur_ratings (play b s)) hi + rating_of (cur_ratings (play b s)) lo
   = rating_of (cur_ratings s) hi + rating_of (cur_ratings s) lo)%R.
Proof.
  intros Hne. destruct (play_game_ratings b s) as (nh & na & -> & Hsum).
  unfold rating_of in *.
  destruct b;
    set (a := default 1500%R (cur_ratings s !! hi)) in *;
    set (c := default 1500%R (cur_ratings s !! lo)) in *;
    clearbody a c.
  - rewrite lookup_insert_ne, lookup_insert_eq, lookup_insert_eq by done.
    cbn [default from_option]. unfold Datatypes.id. lra.
  - rewrite lookup_insert_eq, lookup_insert_ne, lookup_insert_eq by done.
    cbn [default from_option]. unfold Datatypes.id. lra.
Qed.

Lemma series_loop_ratings (schedule : list bool) (s : series_state) :
  More.agree_except {[hi; lo]} (cur_ratings s) (cur_ratings (loop schedule s))
  ∧ dom (cur_ratings s) ⊆ dom (cur_ratings (loop schedule s))
  ∧ dom (cur_ratings (loop schedule s)) ⊆ {[hi; lo]} ∪ dom (cur_ratings s)
  ∧ (hi ≠ lo →
     (rating_of (cur_ratings (loop schedule s)) hi
      + rating_of (cur_ratings (loop schedule s)) lo
      = rating_of (cur_ratings s) hi + rating_of (cur_ratings s) lo)%R).
Proof.
  revert s. induction schedule as [|b rest IH]; intros s.
  - cbn [series_loop]. split; [done|]. split; [done|].
    split; [apply union_subseteq_r | done].
  - cbn [series_loop]. destruct (_ || _).
    + split; [done|]. split; [done|]. split; [apply union_subseteq_r | done].
    + destruct (IH (play b s)) as (Hagree & Hsub & Hsup & Hsum).
      pose proof (play_game_agree b s) as Hagree1.
      pose proof (play_game_dom b s) as Hdom1.
      rewrite Hdom1 in Hsub, Hsup.
      split; [|split; [|split]].
      * intros id Hid. by rewrite Hagree, Hagree1.
      * intros x Hx. apply Hsub. apply elem_of_union. by right.
      * intros x Hx. apply Hsup in Hx. rewrite !elem_of_union in Hx.
        rewrite !elem_of_union. tauto.
      * intros Hne. rewrite (Hsum Hne). by apply play_game_sum.
Qed.

Lemma simulate_series_ratings (ratings : gmap Z R) (g : rng) :
  let ratings' := (_simulate_series high_seed low_seed ratings g k_factor home_court_adv).1.2 in
  More.agree_except {[hi; lo]} ratings ratings'
  ∧ dom ratings' = {[hi; lo]} ∪ dom ratings
  ∧ (hi ≠ lo →
     (rating_of ratings' hi + rating_of ratings' lo
      = rating_of ratings hi + rating_of ratings lo)%R).
Proof.
  unfold _simulate_series, series_final, schedule_high_home. cbn [fst snd].
  rewrite series_loop_undecided by (unfold Spec.undecided; simpl; lia).
  set (s0 := SeriesState 0 0 ratings g).
  destruct (series_loop_ratings [true; false; false; true; false; true] (play true s0))
    as (Hagree & Hsub & Hsup & Hsum).
  pose proof (play_game_agree true s0) as Hagree1.
  pose proof (play_game_dom true s0) as Hdom1.
  pose proof (play_game_sum true s0) as Hsum1.
  rewrite Hdom1 in Hsub, Hsup.
  change (cur_ratings s0) with ratings in *.
  split; [|split].
  - intros id Hid. by rewrite Hagree, Hagree1.
  - apply set_eq. intros x. split; intros Hx.
    + apply Hsup in Hx. rewrite !elem_of_union in Hx. rewrite !elem_of_union. tauto.
    + by apply Hsub.
  - intros Hne. rewrite (Hsum Hne). by apply Hsum1.
Qed.

End series_ratings.

(** X7: a series writes the ratings of its two teams and nothing else:
    every other entry of the rating dictionary is as before, and after
    the series the dictionary has an entry for each of the two teams
    beside the entries it had. *)
Theorem simulate_series_touches_two_ratings `{RandomGen}
    (high_seed low_seed : SeededTeam.t) (ratings : gmap Z R) (g : rng)
    (k_factor home_court_adv : R) :
  let ratings' :=
    (Bracket._simulate_series high_seed low_seed ratings g k_factor home_court_adv).1.2 in
  More.agree_except {[SeededTeam.team_id high_seed; SeededTeam.team_id low_seed]}
    ratings ratings'
  ∧ dom ratings'
    = {[SeededTeam.team_id high_seed; SeededTeam.team_id low_seed]} ∪ dom ratings.
Proof.
  intros ratings'.
  destruct (simulate_series_ratings high_seed low_seed k_factor home_court_adv ratings g)
    as (Hagree & Hdom & _).
  done.
Qed.

(** X8: a series between two different teams is zero-sum: the ratings
    of the two teams, 1500 for a team that had no entry, add up to the
    same total after the series as before. *)
Theorem simulate_series_zero_sum `{RandomGen}
    (high_seed low_seed : SeededTeam.t) (ratings : gmap Z R) (g : rng)
    (k_factor home_court_adv : R) :
  SeededTeam.team_id high_seed ≠ SeededTeam.team_id low_seed →
  let ratings' :=
    (Bracket._simulate_series high_seed low_seed ratings g k_factor home_court_adv).1.2 in
  (Bracket.rating_of ratings' (SeededTeam.team_id high_seed)
   + Bracket.rating_of ratings' (SeededTeam.team_id low_seed)
   = Bracket.rating_of ratings (SeededTeam.team_id high_seed)
     + Bracket.rating_of ratings (SeededTeam.team_id low_seed))%R.
Proof.
  intros Hne ratings'.
  destruct (simulate_series_ratings high_seed low_seed k_factor home_court_adv ratings g)
    as (_ & _ & Hsum).
  by apply Hsum.
Qed.

Lemma simulate_series_zero_sum_witness :
  SeededTeam.team_id (Examples.east_seed 1) ≠ SeededTeam.team_id (Examples.east_seed 8)
  ∧ let ratings' :=
      (@Bracket._simulate_series home_always_wins (Examples.east_seed 1)
         (Examples.east_seed 8) ∅ tt 20%R 65%R).1.2 in
    (Bracket.rating_of ratings' (SeededTeam.team_id (Examples.east_seed 1))
     + Bracket.rating_of ratings' (SeededTeam.team_id (Examples.east_seed 8))
     = Bracket.rating_of ∅ (SeededTeam.team_id (Examples.east_seed 1))
       + Bracket.rating_of ∅ (SeededTeam.team_id (Examples.east_seed 8)))%R.
Proof.
  assert (SeededTeam.team_id (Examples.east_seed 1)
          ≠ SeededTeam.team_id (Examples.east_seed 8)) as Hne by (simpl; lia).
  split; [done|].
  exact (@simulate_series_zero_sum home_always_wins (Examples.east_seed 1)
           (Examples.east_seed 8) ∅ tt 20%R 65%R Hne).
Defined.

(** * Further properties of the bracket runner *)

(** X9: the order in which two winners are passed to
    [_series_with_home_court] does not matter when their seeds differ or
    their current ratings differ. *)
Theorem series_with_home_court_symmetric `{RandomGen}
    (team_a team_b : SeededTeam.t) (ratings : gmap Z R) (g : rng)
    (k_factor home_court_adv : R) :
  SeededTeam.seed team_a ≠ SeededTeam.seed team_b
  ∨ Bracket.rating_of ratings (SeededTeam.team_id team_a)
    ≠ Bracket.rating_of ratings (SeededTeam.team_id team_b) →
  Bracket._series_with_home_court team_a team_b ratings g k_factor home_court_adv
  = Bracket._series_with_home_court team_b team_a ratings g k_factor home_court_adv.
Proof.
  intros Hdiff. unfold Bracket._series_with_home_court.
  destruct (Z.ltb_spec (SeededTeam.seed team_a) (SeededTeam.seed team_b)) as [Hab|Hab].
  { destruct (Z.ltb_spec (SeededTeam.seed team_b) (SeededTeam.seed team_a)); [lia | done]. }
  destruct (Z.ltb_spec (SeededTeam.seed team_b) (SeededTeam.seed team_a)) as [Hba|Hba];
    [done|].
  destruct Hdiff as [Hseed|Hrating]; [lia|].
  set (ra := Bracket.rating_of ratings (SeededTeam.team_id team_a)) in *.
  set (rb := Bracket.rating_of ratings (SeededTeam.team_id team_b)) in *.
  destruct (Rgeb ra rb) eqn:Eab; destruct (Rgeb rb ra) eqn:Eba.
  - apply Rgeb_true in Eab, Eba. destruct Hrating. lra.
  - reflexivity.
  - reflexivity.
  - apply Rgeb_false in Eab, Eba. lra.
Qed.

Lemma series_with_home_court_symmetric_witness :
  (SeededTeam.seed (Examples.east_seed 4) ≠ SeededTeam.seed (Examples.east_seed 1)
   ∨ Bracket.rating_of ∅ (SeededTeam.team_id (Examples.east_seed 4))
     ≠ Bracket.rating_of ∅ (SeededTeam.team_id (Examples.east_seed 1)))
  ∧ @Bracket._series_with_home_court home_always_wins (Examples.east_seed 4)
      (Examples.east_seed 1) ∅ tt 20%R 65%R
    = @Bracket._series_with_home_court home_always_wins (Examples.east_seed 1)
        (Examples.east_seed 4) ∅ tt 20%R 65%R.
Proof.
  assert (SeededTeam.seed (Examples.east_seed 4) ≠ SeededTeam.seed (Examples.east_seed 1))
    as Hne by (simpl; lia).
  split; [by left|].
  apply (@series_with_home_court_symmetric home_always_wins). by left.
Defined.

Section bracket_results.
Context `{RandomGen}.
Import Bracket.

Lemma missing_seed (teams : list SeededTeam.t) (s : Z) :
  1 ≤ s ≤ 8 → index_by_seed teams !! s = None → ¬ Spec.has_seeds_1_to_8 teams.
Proof.
  intros Hs Hnone Hseeds.
  destruct (index_by_seed_seeded teams s Hseeds Hs) as (t & Ht & _). congruence.
Qed.

Lemma present_seed (teams : list SeededTeam.t) (s : Z) (t : SeededTeam.t) :
  index_by_seed teams !! s = Some t →
  s ∈ SeededTeam.seed <$> teams ∧ SeededTeam.seed t = s ∧ t ∈ teams.
Proof.
  intros Ht. destruct (index_by_seed_acc teams ∅ s t Ht) as [[Hin Hseed]|Hempty].
  - split; [|done]. rewrite <- Hseed. by apply list_elem_of_fmap_2.
  - by rewrite lookup_empty in Hempty.
Qed.

(** What the bracket of one conference returns or raises. *)
Lemma conference_bracket_result (playoff_field : gmap string (list SeededTeam.t))
    (conference : string) (ratings : gmap Z R) (g : rng) (k_factor home_court_adv : R) :
  match conference_bracket playoff_field conference ratings g k_factor home_court_adv with
  | Ok (champ, _, _) =>
      ∃ teams, playoff_field !! conference = Some teams
               ∧ Spec.has_seeds_1_to_8 teams
               ∧ More.seeded_entry teams champ
  | Err e =>
      e = KeyError
      ∧ ¬ ∃ teams, playoff_field !! conference = Some teams
                   ∧ Spec.has_seeds_1_to_8 teams
  end.
Proof.
  unfold conference_bracket, getitem.
  destruct (playoff_field !! conference) as [teams|] eqn:Hteams; cbn [mbind result_bind];
    [|split; [done | by intros (? & ? & _)]].
  assert (∀ s, 1 ≤ s ≤ 8 → index_by_seed teams !! s = None →
               ¬ ∃ teams', Some teams = Some teams' ∧ Spec.has_seeds_1_to_8 teams')
    as Hmissing.
  { intros s Hs Hnone (teams' & [= <-] & Hseeds). by apply (missing_seed teams s). }
  destruct (index_by_seed teams !! 1) as [s1|] eqn:E1; cbn [mbind result_bind];
    [|split; [done | apply (Hmissing 1); [lia | done]]].
  destruct (index_by_seed teams !! 8) as [s8|] eqn:E8; cbn [mbind result_bind];
    [|split; [done | apply (Hmissing 8); [lia | done]]].
  pose proof (simulate_series_winner s1 s8 ratings g k_factor home_court_adv) as W1.
  destruct (_simulate_series s1 s8 _ _ _ _) as [[qf1 r1] g1]. cbn [fst] in W1.
  destruct (index_by_seed teams !! 4) as [s4|] eqn:E4; cbn [mbind result_bind];
    [|split; [done | apply (Hmissing 4); [lia | done]]].
  destruct (index_by_seed teams !! 5) as [s5|] eqn:E5; cbn [mbind result_bind];
    [|split; [done | apply (Hmissing 5); [lia | done]]].
  pose proof (simulate_series_winner s4 s5 r1 g1 k_factor home_court_adv) as W2.
  destruct (_simulate_series s4 s5 _ _ _ _) as [[qf2 r2] g2]. cbn [fst] in W2.
  destruct (index_by_seed teams !! 2) as [s2|] eqn:E2; cbn [mbind result_bind];
    [|split; [done | apply (Hmissing 2); [lia | done]]].
  destruct (index_by_seed teams !! 7) as [s7|] eqn:E7; cbn [mbind result_bind];
    [|split; [done | apply (Hmissing 7); [lia | done]]].
  pose proof (simulate_series_winner s2 s7 r2 g2 k_factor home_court_adv) as W3.
  destruct (_simulate_series s2 s7 _ _ _ _) as [[qf3 r3] g3]. cbn [fst] in W3.
  destruct (index_by_seed teams !! 3) as [s3|] eqn:E3; cbn [mbind result_bind];
    [|split; [done | apply (Hmissing 3); [lia | done]]].
  destruct (index_by_seed teams !! 6) as [s6|] eqn:E6; cbn [mbind result_bind];
    [|split; [done | apply (Hmissing 6); [lia | done]]].
  pose proof (simulate_series_winner s3 s6 r3 g3 k_factor home_court_adv) as W4.
  destruct (_simulate_series s3 s6 _ _ _ _) as [[qf4 r4] g4]. cbn [fst] in W4.
  pose proof (series_with_home_court_winner qf1 qf2 r4 g4 k_factor home_court_adv) as W5.
  destruct (_series_with_home_court qf1 qf2 _ _ _ _) as [[sf1 r5] g5]. cbn [fst] in W5.
  pose proof (series_with_home_court_winner qf3 qf4 r5 g5 k_factor home_court_adv) as W6.
  destruct (_series_with_home_court qf3 qf4 _ _ _ _) as [[sf2 r6] g6]. cbn [fst] in W6.
  pose proof (series_with_home_court_winner sf1 sf2 r6 g6 k_factor home_court_adv) as W7.
  destruct (_series_with_home_court sf1 sf2 _ _ _ _) as [[champ r7] g7]. cbn [fst] in W7.
  exists teams. split; [done|].
  assert (∀ s t, 1 ≤ s ≤ 8 → index_by_seed teams !! s = Some t → More.seeded_entry teams t)
    as Hentry.
  { intros s t Hs Ht. destruct (present_seed teams s t Ht) as (_ & Hseed & _).
    unfold More.seeded_entry. by rewrite Hseed. }
  split.
  - unfold Spec.has_seeds_1_to_8. apply Forall_forall. intros s Hs.
    apply elem_of_seqZ in Hs.
    assert (s = 1 ∨ s = 2 ∨ s = 3 ∨ s = 4 ∨ s = 5 ∨ s = 6 ∨ s = 7 ∨ s = 8) as Hcases by lia.
    destruct Hcases as [->|[->|[->|[->|[->|[->|[->| ->]]]]]]];
      eapply present_seed; eassumption.
  - pose proof (Hentry 1 s1 ltac:(lia) E1). pose proof (Hentry 2 s2 ltac:(lia) E2).
    pose proof (Hentry 3 s3 ltac:(lia) E3). pose proof (Hentry 4 s4 ltac:(lia) E4).
    pose proof (Hentry 5 s5 ltac:(lia) E5). pose proof (Hentry 6 s6 ltac:(lia) E6).
    pose proof (Hentry 7 s7 ltac:(lia) E7). pose proof (Hentry 8 s8 ltac:(lia) E8).
    assert (More.seeded_entry teams qf1) by (destruct W1 as [->| ->]; done).
    assert (More.seeded_entry teams qf2) by (destruct W2 as [->| ->]; done).
    assert (More.seeded_entry teams qf3) by (destruct W3 as [->| ->]; done).
    assert (More.seeded_entry teams qf4) by (destruct W4 as [->| ->]; done).
    assert (More.seeded_entry teams sf1) by (destruct W5 as [->| ->]; done).
    assert (More.seeded_entry teams sf2) by (destruct W6 as [->| ->]; done).
    destruct W7 as [->| ->]; done.
Qed.

End bracket_results.

(** What the bracket runner returns or raises in the model, in which
    the rating arithmetic raises nothing. *)
Lemma simulate_playoffs_cases `{RandomGen}
    (playoff_field : gmap string (list SeededTeam.t))
    (ratings : gmap Z R) (g : rng) (k_factor home_court_adv : R) :
  match Bracket.simulate_playoffs playoff_field ratings g k_factor home_court_adv with
  | Ok (champion, east_champ, west_champ, _, _) =>
      ∃ east_teams west_teams,
        playoff_field !! "East"%string = Some east_teams
        ∧ playoff_field !! "West"%string = Some west_teams
        ∧ Spec.has_seeds_1_to_8 east_teams
        ∧ Spec.has_seeds_1_to_8 west_teams
        ∧ More.seeded_entry east_teams east_champ
        ∧ More.seeded_entry west_teams west_champ
  | Err e => e = KeyError ∧ ¬ More.playable playoff_field
  end.
Proof.
  unfold Bracket.simulate_playoffs. cbn [foldl mbind result_bind].
  pose proof (conference_bracket_result playoff_field "East" ratings g
                k_factor home_court_adv) as HE.
  destruct (Bracket.conference_bracket playoff_field "East" _ _ _ _)
    as [[[east r1] g1]|e]; cbn [mbind result_bind].
  2: { destruct HE as [-> Hno]. split; [done|].
       intros (east_teams & west_teams & ? & ? & ? & ?). apply Hno. by exists east_teams. }
  pose proof (conference_bracket_result playoff_field "West" r1 g1
                k_factor home_court_adv) as HW.
  destruct (Bracket.conference_bracket playoff_field "West" _ _ _ _)
    as [[[west r2] g2]|e]; cbn [mbind result_bind].
  2: { destruct HW as [-> Hno]. split; [done|].
       intros (east_teams & west_teams & ? & ? & ? & ?). apply Hno. by exists west_teams. }
  rewrite (getitem_Some _ "East"%string east), (getitem_Some _ "West"%string west);
    [| by rewrite lookup_insert_eq | by rewrite lookup_insert_ne, lookup_insert_eq].
  cbn [mbind result_bind].
  destruct (Bracket.finals_series east west _ _ _ _) as [[champion r3] g3].
  destruct HE as (east_teams & ? & ? & ?). destruct HW as (west_teams & ? & ? & ?).
  by exists east_teams, west_teams.
Qed.

(** X10: when [simulate_playoffs] returns, the field has both
    conferences with every seed from 1 to 8, and each conference
    champion is the team its conference list assigns to a seed between
    1 and 8, so that teams with other seeds, and teams replaced by a
    later team with the same seed, never appear in the result; and a
    [KeyError] is raised only on a field that lacks a conference or one
    of these seeds. *)
Theorem simulate_playoffs_result `{RandomGen}
    (playoff_field : gmap string (list SeededTeam.t))
    (ratings : gmap Z R) (g : rng) (k_factor home_court_adv : R) :
  match Bracket.simulate_playoffs playoff_field ratings g k_factor home_court_adv with
  | Ok (champion, east_champ, west_champ, _, _) =>
      ∃ east_teams west_teams,
        playoff_field !! "East"%string = Some east_teams
        ∧ playoff_field !! "West"%string = Some west_teams
        ∧ Spec.has_seeds_1_to_8 east_teams
        ∧ Spec.has_seeds_1_to_8 west_teams
        ∧ More.seeded_entry east_teams east_champ
        ∧ More.seeded_entry west_teams west_champ
  | Err e => e = KeyError → ¬ More.playable playoff_field
  end.
Proof.
  pose proof (simulate_playoffs_cases playoff_field ratings g k_factor home_court_adv)
    as Hcases.
  destruct (Bracket.simulate_playoffs playoff_field ratings g k_factor home_court_adv)
    as [[[[[champion east] west] r] g']|e]; [exact Hcases|].
  intros _. exact (proj2 Hcases).
Qed.

Section conservation.
Context `{RandomGen}.
Import Bracket.

Lemma total_rating_agree (l : list Z) (r r' : gmap Z R) :
  (∀ x, x ∈ l → rating_of r' x = rating_of r x) →
  More.total_rating l r' = More.total_rating l r.
Proof.
  induction l as [|x l IH]; intros Hl; [done|].
  unfold More.total_rating in *. cbn [foldr].
  rewrite Hl by apply list_elem_of_here. rewrite IH; [done|].
  intros y Hy. apply Hl. by apply list_elem_of_further.
Qed.

Lemma total_rating_perm (l l' : list Z) (r : gmap Z R) :
  Permutation l l' → More.total_rating l r = More.total_rating l' r.
Proof.
  intros Hperm. unfold More.total_rating.
  induction Hperm as [|x l l' _ IH|x y l|l l' l'' _ IH1 _ IH2]; cbn [foldr].
  - done.
  - by rewrite IH.
  - lra.
  - by rewrite IH1.
Qed.

Lemma agree_rating_of (ids : gset Z) (r r' : gmap Z R) (x : Z) :
  More.agree_except ids r r' → x ∉ ids → rating_of r' x = rating_of r x.
Proof. intros Hagree Hx. unfold rating_of. by rewrite Hagree. Qed.

(** Two teams of a duplicate-free list exchange rating points: the
    total of the list is kept. *)
Lemma total_rating_exchange (l : list Z) (a b : Z) (r r' : gmap Z R) :
  NoDup l → a ∈ l → b ∈ l → a ≠ b →
  More.agree_except {[a; b]} r r' →
  (rating_of r' a + rating_of r' b = rating_of r a + rating_of r b)%R →
  More.total_rating l r' = More.total_rating l r.
Proof.
  intros Hnodup Ha Hb Hab Hagree Hsum.
  apply elem_of_Permutation in Ha as [k Hk].
  assert (b ∈ k) as Hbk.
  { rewrite Hk in Hb. apply elem_of_cons in Hb as [?|?]; [congruence | done]. }
  apply elem_of_Permutation in Hbk as [k' Hk'].
  assert (Permutation l (a :: b :: k')) as Hperm by (by rewrite Hk, Hk').
  rewrite Hperm in Hnodup.
  apply NoDup_cons in Hnodup as [Hak Hnodup].
  apply NoDup_cons in Hnodup as [Hbk' _].
  rewrite !(total_rating_perm l _ _ Hperm).
  unfold More.total_rating. cbn [foldr].
  fold (More.total_rating k' r'). fold (More.total_rating k' r).
  rewrite (total_rating_agree k' r r').
  - lra.
  - intros x Hx. apply (agree_rating_of {[a; b]}); [done|].
    intros Hin. apply elem_of_union in Hin as [Hin|Hin];
      apply elem_of_singleton in Hin; subst x.
    + apply Hak. by apply list_elem_of_further.
    + done.
Qed.

Lemma conserved_refl (ids : list Z) (r : gmap Z R) : More.conserved ids r r.
Proof. by split. Qed.

Lemma conserved_trans (ids : list Z) (r1 r2 r3 : gmap Z R) :
  More.conserved ids r1 r2 → More.conserved ids r2 r3 → More.conserved ids r1 r3.
Proof.
  intros [A1 T1] [A2 T2]. split.
  - intros x Hx. by rewrite A2, A1.
  - intros Hnodup. by rewrite T2, T1.
Qed.

(** A series between two teams of [ids] redistributes ratings within
    [ids]. *)
Lemma series_conserved (ids : list Z) (high_seed low_seed : SeededTeam.t)
    (ratings : gmap Z R) (g : rng) (k_factor home_court_adv : R) :
  SeededTeam.team_id high_seed ∈ ids →
  SeededTeam.team_id low_seed ∈ ids →
  (NoDup ids → SeededTeam.team_id high_seed ≠ SeededTeam.team_id low_seed) →
  More.conserved ids ratings
    (_simulate_series high_seed low_seed ratings g k_factor home_court_adv).1.2.
Proof.
  intros Hh Hl Hne.
  destruct (simulate_series_ratings high_seed low_seed k_factor home_court_adv ratings g)
    as (Hagree & _ & Hsum).
  split.
  - intros x Hx. apply Hagree. intros Hin. apply Hx.
    apply elem_of_list_to_set.
    apply elem_of_union in Hin as [Hin|Hin]; apply elem_of_singleton in Hin; by subst x.
  - intros Hnodup.
    apply (total_rating_exchange ids (SeededTeam.team_id high_seed)
             (SeededTeam.team_id low_seed)); auto.
Qed.

Lemma series_with_home_court_conserved (ids : list Z) (team_a team_b : SeededTeam.t)
    (ratings : gmap Z R) (g : rng) (k_factor home_court_adv : R) :
  SeededTeam.team_id team_a ∈ ids →
  SeededTeam.team_id team_b ∈ ids →
  (NoDup ids → SeededTeam.team_id team_a ≠ SeededTeam.team_id team_b) →
  More.conserved ids ratings
    (_series_with_home_court team_a team_b ratings g k_factor home_court_adv).1.2.
Proof.
  intros Ha Hb Hne.
  destruct (series_with_home_court_resolves team_a team_b ratings g k_factor home_court_adv)
    as (high & low & [[-> ->]|[-> ->]] & _ & ->); apply series_conserved; auto.
  intros Hnodup Heq. by apply (Hne Hnodup).
Qed.

Lemma finals_series_conserved (ids : list Z) (east west : SeededTeam.t)
    (ratings : gmap Z R) (g : rng) (k_factor home_court_adv : R) :
  SeededTeam.team_id east ∈ ids →
  SeededTeam.team_id west ∈ ids →
  (NoDup ids → SeededTeam.team_id east ≠ SeededTeam.team_id west) →
  More.conserved ids ratings
    (finals_series east west ratings g k_factor home_court_adv).1.2.
Proof.
  intros Ha Hb Hne.
  destruct (finals_series_resolves east west ratings g k_factor home_court_adv)
    as (high & low & [[-> ->]|[-> ->]] & _ & ->); apply series_conserved; auto.
  intros Hnodup Heq. by apply (Hne Hnodup).
Qed.

Lemma NoDup_fmap_elem_inj {A B : Type} (f : A → B) (l : list A) (x y : A) :
  NoDup (f <$> l) → x ∈ l → y ∈ l → f x = f y → x = y.
Proof.
  induction l as [|z l IH]; intros Hnodup Hx Hy Hf; [by apply elem_of_nil in Hx|].
  rewrite fmap_cons in Hnodup. apply NoDup_cons in Hnodup as [Hz Hnodup].
  apply elem_of_cons in Hx as [->|Hx]; apply elem_of_cons in Hy as [->|Hy].
  - done.
  - destruct Hz. rewrite Hf. by apply list_elem_of_fmap_2.
  - destruct Hz. rewrite <- Hf. by apply list_elem_of_fmap_2.
  - by apply IH.
Qed.

End conservation.

Section bracket_conservation.
Context `{RandomGen}.
Import Bracket.

(** The seven series of a conference redistribute ratings among the
    teams of the conference. *)
Lemma conference_bracket_conserved (ids : list Z)
    (playoff_field : gmap string (list SeededTeam.t)) (conference : string)
    (teams : list SeededTeam.t) (ratings : gmap Z R) (g : rng)
    (k_factor home_court_adv : R) :
  playoff_field !! conference = Some teams →
  Spec.has_seeds_1_to_8 teams →
  (∀ t, t ∈ teams → SeededTeam.team_id t ∈ ids) →
  (NoDup ids → NoDup (SeededTeam.team_id <$> teams)) →
  ∃ champ ratings' g',
    conference_bracket playoff_field conference ratings g k_factor home_court_adv
    = Ok (champ, ratings', g')
    ∧ champ ∈ teams
    ∧ More.conserved ids ratings ratings'.
Proof.
  intros Hteams Hseeds Hids Hnodup. unfold conference_bracket.
  rewrite (getitem_Some _ _ _ Hteams). cbn [mbind result_bind].
  destruct (index_by_seed_seeded teams 1 Hseeds) as (s1 & E1 & I1); [lia|].
  destruct (index_by_seed_seeded teams 2 Hseeds) as (s2 & E2 & I2); [lia|].
  destruct (index_by_seed_seeded teams 3 Hseeds) as (s3 & E3 & I3); [lia|].
  destruct (index_by_seed_seeded teams 4 Hseeds) as (s4 & E4 & I4); [lia|].
  destruct (index_by_seed_seeded teams 5 Hseeds) as (s5 & E5 & I5); [lia|].
  destruct (index_by_seed_seeded teams 6 Hseeds) as (s6 & E6 & I6); [lia|].
  destruct (index_by_seed_seeded teams 7 Hseeds) as (s7 & E7 & I7); [lia|].
  destruct (index_by_seed_seeded teams 8 Hseeds) as (s8 & E8 & I8); [lia|].
  destruct (present_seed teams 1 s1 E1) as (_ & P1 & _).
  destruct (present_seed teams 2 s2 E2) as (_ & P2 & _).
  destruct (present_seed teams 3 s3 E3) as (_ & P3 & _).
  destruct (present_seed teams 4 s4 E4) as (_ & P4 & _).
  destruct (present_seed teams 5 s5 E5) as (_ & P5 & _).
  destruct (present_seed teams 6 s6 E6) as (_ & P6 & _).
  destruct (present_seed teams 7 s7 E7) as (_ & P7 & _).
  destruct (present_seed teams 8 s8 E8) as (_ & P8 & _).
  assert (∀ x y, x ∈ teams → y ∈ teams → SeededTeam.seed x ≠ SeededTeam.seed y →
                 NoDup ids → SeededTeam.team_id x ≠ SeededTeam.team_id y) as Hdiff.
  { intros x y Hx Hy Hxy Hn Heq. apply Hxy. f_equal.
    by apply (NoDup_fmap_elem_inj SeededTeam.team_id teams x y (Hnodup Hn)). }
  rewrite (getitem_Some _ _ _ E1), (getitem_Some _ _ _ E8). cbn [mbind result_bind].
  pose proof (simulate_series_winner s1 s8 ratings g k_factor home_court_adv) as W1.
  pose proof (series_conserved ids s1 s8 ratings g k_factor home_court_adv
                (Hids _ I1) (Hids _ I8) (Hdiff _ _ I1 I8 ltac:(lia))) as C1.
  destruct (_simulate_series s1 s8 _ _ _ _) as [[qf1 r1] g1]. cbn [fst snd] in W1, C1.
  rewrite (getitem_Some _ _ _ E4), (getitem_Some _ _ _ E5). cbn [mbind result_bind].
  pose proof (simulate_series_winner s4 s5 r1 g1 k_factor home_court_adv) as W2.
  pose proof (series_conserved ids s4 s5 r1 g1 k_factor home_court_adv
                (Hids _ I4) (Hids _ I5) (Hdiff _ _ I4 I5 ltac:(lia))) as C2.
  destruct (_simulate_series s4 s5 _ _ _ _) as [[qf2 r2] g2]. cbn [fst snd] in W2, C2.
  rewrite (getitem_Some _ _ _ E2), (getitem_Some _ _ _ E7). cbn [mbind result_bind].
  pose proof (simulate_series_winner s2 s7 r2 g2 k_factor home_court_adv) as W3.
  pose proof (series_conserved ids s2 s7 r2 g2 k_factor home_court_adv
                (Hids _ I2) (Hids _ I7) (Hdiff _ _ I2 I7 ltac:(lia))) as C3.
  destruct (_simulate_series s2 s7 _ _ _ _) as [[qf3 r3] g3]. cbn [fst snd] in W3, C3.
  rewrite (getitem_Some _ _ _ E3), (getitem_Some _ _ _ E6). cbn [mbind result_bind].
  pose proof (simulate_series_winner s3 s6 r3 g3 k_factor home_court_adv) as W4.
  pose proof (series_conserved ids s3 s6 r3 g3 k_factor home_court_adv
                (Hids _ I3) (Hids _ I6) (Hdiff _ _ I3 I6 ltac:(lia))) as C4.
  destruct (_simulate_series s3 s6 _ _ _ _) as [[qf4 r4] g4]. cbn [fst snd] in W4, C4.
  assert (qf1 ∈ teams ∧ (SeededTeam.seed qf1 = 1 ∨ SeededTeam.seed qf1 = 8)) as [Q1 T1]
    by (destruct W1 as [->| ->]; auto).
  assert (qf2 ∈ teams ∧ (SeededTeam.seed qf2 = 4 ∨ SeededTeam.seed qf2 = 5)) as [Q2 T2]
    by (destruct W2 as [->| ->]; auto).
  assert (qf3 ∈ teams ∧ (SeededTeam.seed qf3 = 2 ∨ SeededTeam.seed qf3 = 7)) as [Q3 T3]
    by (destruct W3 as [->| ->]; auto).
  assert (qf4 ∈ teams ∧ (SeededTeam.seed qf4 = 3 ∨ SeededTeam.seed qf4 = 6)) as [Q4 T4]
    by (destruct W4 as [->| ->]; auto).
  pose proof (series_with_home_court_winner qf1 qf2 r4 g4 k_factor home_court_adv) as W5.
  pose proof (series_with_home_court_conserved ids qf1 qf2 r4 g4 k_factor home_court_adv
                (Hids _ Q1) (Hids _ Q2) (Hdiff _ _ Q1 Q2 ltac:(lia))) as C5.
  destruct (_series_with_home_court qf1 qf2 _ _ _ _) as [[sf1 r5] g5].
  cbn [fst snd] in W5, C5.
  pose proof (series_with_home_court_winner qf3 qf4 r5 g5 k_factor home_court_adv) as W6.
  pose proof (series_with_home_court_conserved ids qf3 qf4 r5 g5 k_factor home_court_adv
                (Hids _ Q3) (Hids _ Q4) (Hdiff _ _ Q3 Q4 ltac:(lia))) as C6.
  destruct (_series_with_home_court qf3 qf4 _ _ _ _) as [[sf2 r6] g6].
  cbn [fst snd] in W6, C6.
  assert (sf1 ∈ teams ∧ (SeededTeam.seed sf1 = 1 ∨ SeededTeam.seed sf1 = 8
                         ∨ SeededTeam.seed sf1 = 4 ∨ SeededTeam.seed sf1 = 5)) as [F1 U1]
    by (destruct W5 as [->| ->]; split; (done || lia)).
  assert (sf2 ∈ teams ∧ (SeededTeam.seed sf2 = 2 ∨ SeededTeam.seed sf2 = 7
                         ∨ SeededTeam.seed sf2 = 3 ∨ SeededTeam.seed sf2 = 6)) as [F2 U2]
    by (destruct W6 as [->| ->]; split; (done || lia)).
  pose proof (series_with_home_court_winner sf1 sf2 r6 g6 k_factor home_court_adv) as W7.
  pose proof (series_with_home_court_conserved ids sf1 sf2 r6 g6 k_factor home_court_adv
                (Hids _ F1) (Hids _ F2) (Hdiff _ _ F1 F2 ltac:(lia))) as C7.
  destruct (_series_with_home_court sf1 sf2 _ _ _ _) as [[champ r7] g7].
  cbn [fst snd] in W7, C7.
  exists champ, r7, g7. split; [done|].
  split; [destruct W7 as [->| ->]; done|].
  repeat (eapply conserved_trans; [eassumption|]). apply conserved_refl.
Qed.

End bracket_conservation.

(** X11: a run of the bracket only redistributes the ratings of the
    teams of the field: the entry of every other team is as before, and
    when the teams of the field all have different identifiers the
    total of their ratings, 1500 for a team without an entry, is the
    same after the run as before. *)
Theorem simulate_playoffs_conserves_ratings `{RandomGen}
    (playoff_field : gmap string (list SeededTeam.t))
    (east_teams west_teams : list SeededTeam.t)
    (ratings : gmap Z R) (g : rng) (k_factor home_court_adv : R) :
  playoff_field !! "East"%string = Some east_teams →
  playoff_field !! "West"%string = Some west_teams →
  Spec.has_seeds_1_to_8 east_teams →
  Spec.has_seeds_1_to_8 west_teams →
  let ids := SeededTeam.team_id <$> (east_teams ++ west_teams) in
  ∃ champion east_champ west_champ ratings' g',
    Bracket.simulate_playoffs playoff_field ratings g k_factor home_court_adv
    = Ok (champion, east_champ, west_champ, ratings', g')
    ∧ More.agree_except (list_to_set ids) ratings ratings'
    ∧ (NoDup ids → More.total_rating ids ratings' = More.total_rating ids ratings).
Proof.
  intros HE HW SE SW ids.
  assert (∀ t, t ∈ east_teams → SeededTeam.team_id t ∈ ids) as IE.
  { intros t Ht. apply list_elem_of_fmap_2. apply elem_of_app. by left. }
  assert (∀ t, t ∈ west_teams → SeededTeam.team_id t ∈ ids) as IW.
  { intros t Ht. apply list_elem_of_fmap_2. apply elem_of_app. by right. }
  assert (NoDup ids → NoDup (SeededTeam.team_id <$> east_teams)
                      ∧ NoDup (SeededTeam.team_id <$> west_teams)
                      ∧ ∀ x, x ∈ SeededTeam.team_id <$> east_teams →
                             x ∉ SeededTeam.team_id <$> west_teams) as Hsplit.
  { subst ids. rewrite fmap_app. intros Hn. apply NoDup_app in Hn. tauto. }
  unfold Bracket.simulate_playoffs. cbn [foldl mbind result_bind].
  destruct (conference_bracket_conserved ids playoff_field "East" east_teams ratings g
              k_factor home_court_adv HE SE IE (λ Hn, proj1 (Hsplit Hn)))
    as (east & r1 & g1 & -> & Heast & C1).
  cbn [mbind result_bind].
  destruct (conference_bracket_conserved ids playoff_field "West" west_teams r1 g1
              k_factor home_court_adv HW SW IW (λ Hn, proj1 (proj2 (Hsplit Hn))))
    as (west & r2 & g2 & -> & Hwest & C2).
  cbn [mbind result_bind].
  rewrite (getitem_Some _ "East"%string east), (getitem_Some _ "West"%string west);
    [| by rewrite lookup_insert_eq | by rewrite lookup_insert_ne, lookup_insert_eq].
  cbn [mbind result_bind].
  pose proof (finals_series_conserved ids east west r2 g2 k_factor home_court_adv
                (IE _ Heast) (IW _ Hwest)) as C3.
  destruct (Bracket.finals_series east west _ _ _ _) as [[champion r3] g3].
  cbn [fst snd] in C3.
  assert (More.conserved ids r2 r3) as C3'.
  { apply C3. intros Hn Heq. destruct (Hsplit Hn) as (_ & _ & Hdisj).
    apply (Hdisj (SeededTeam.team_id east)); [by apply list_elem_of_fmap_2|].
    rewrite Heq. by apply list_elem_of_fmap_2. }
  destruct (conserved_trans ids _ _ _ C1 (conserved_trans ids _ _ _ C2 C3')) as [A T].
  by exists champion, east, west, r3, g3.
Qed.

Lemma simulate_playoffs_conserves_ratings_witness :
  (Examples.test_field !! "East"%string = Some Examples.east_teams
   ∧ Examples.test_field !! "West"%string = Some Examples.west_teams
   ∧ Spec.has_seeds_1_to_8 Examples.east_teams
   ∧ Spec.has_seeds_1_to_8 Examples.west_teams)
  ∧ let ids := SeededTeam.team_id <$> (Examples.east_teams ++ Examples.west_teams) in
    ∃ champion east_champ west_champ ratings' g',
      @Bracket.simulate_playoffs home_always_wins Examples.test_field
        Examples.conference_ratings tt 20%R 65%R
      = Ok (champion, east_champ, west_champ, ratings', g')
      ∧ More.agree_except (list_to_set ids) Examples.conference_ratings ratings'
      ∧ (NoDup ids →
         More.total_rating ids ratings'
         = More.total_rating ids Examples.conference_ratings).
Proof.
  assert (Spec.has_seeds_1_to_8 Examples.east_teams) as SE
    by (unfold Spec.has_seeds_1_to_8; apply (bool_decide_unpack _); vm_compute; exact I).
  assert (Spec.has_seeds_1_to_8 Examples.west_teams) as SW
    by (unfold Spec.has_seeds_1_to_8; apply (bool_decide_unpack _); vm_compute; exact I).
  split; [repeat split; (reflexivity || assumption)|].
  apply (@simulate_playoffs_conserves_ratings home_always_wins Examples.test_field
           Examples.east_teams Examples.west_teams); (reflexivity || assumption).
Defined.

(** ** More about counters *)

Section counter_more.
Context {K : Type} `{EqDecision K}.

Lemma counter_incr_positive (k : K) (c : Counter.t K) :
  Counts.positive_counts c → Counts.positive_counts (Counter.incr k c).
Proof.
  unfold Counts.positive_counts. induction c as [|[k' n] c IH]; intros Hc; cbn [Counter.incr].
  - repeat constructor.
  - apply Forall_cons in Hc as [Hn Hc]. cbn in Hn. destruct (decide (k = k')).
    + constructor; [cbn; lia | done].
    + constructor; [done | by apply IH].
Qed.

Lemma counter_incr_count_of (k k' : K) (c : Counter.t K) :
  Counts.count_of k' (Counter.incr k c)
  = Counts.count_of k' c + (if decide (k' = k) then 1 else 0).
Proof.
  unfold Counts.count_of. induction c as [|[k0 n] c IH]; cbn [Counter.incr Spec.assoc].
  - destruct (decide (k' = k)); cbn; lia.
  - destruct (decide (k = k0)) as [->|Hne]; cbn [Spec.assoc].
    + destruct (decide (k' = k0)); cbn; lia.
    + destruct (decide (k' = k0)) as [->|Hne'].
      * rewrite decide_False by done. cbn. lia.
      * apply IH.
Qed.

Lemma counter_incr_Forall (P : K → Prop) (k : K) (c : Counter.t K) :
  P k → Forall (λ kv, P kv.1) c → Forall (λ kv, P kv.1) (Counter.incr k c).
Proof.
  intros Hk. induction c as [|[k' n] c IH]; intros Hc; cbn [Counter.incr].
  - by repeat constructor.
  - apply Forall_cons in Hc as [Hn Hc]. destruct (decide (k = k')).
    + by constructor.
    + constructor; [done | by apply IH].
Qed.

Lemma counter_total_perm (c c' : Counter.t K) :
  Permutation c c' → Counter.total c = Counter.total c'.
Proof.
  unfold Counter.total. induction 1 as [|x l l' _ IH|x y l|l l' l'' _ IH1 _ IH2]; cbn.
  - done.
  - by rewrite IH.
  - lia.
  - by rewrite IH1.
Qed.

Lemma counter_total_take (n : nat) (c : Counter.t K) :
  Counts.positive_counts c → Counter.total (take n c) ≤ Counter.total c.
Proof.
  unfold Counts.positive_counts, Counter.total. revert n.
  induction c as [|[k m] c IH]; intros n Hc; destruct n as [|n]; cbn; try lia.
  - apply Forall_cons in Hc as [Hm Hc]. cbn in Hm.
    assert (0 ≤ foldr (λ kv acc, kv.2 + acc) 0 c); [|lia].
    clear IH. induction Hc as [|x l Hx _ IHl]; cbn; lia.
  - apply Forall_cons in Hc as [Hm Hc]. specialize (IH n Hc). lia.
Qed.

Lemma counter_total_take_all (n : nat) (c : Counter.t K) :
  (length c ≤ n)%nat → take n c = c.
Proof. apply take_ge. Qed.

Lemma counter_entry_le_total (c : Counter.t K) (kv : K * Z) :
  Counts.positive_counts c → kv ∈ c → 0 < kv.2 ≤ Counter.total c.
Proof.
  unfold Counts.positive_counts, Counter.total. intros Hc Hin.
  induction Hc as [|x l Hx Hl IH]; [by apply elem_of_nil in Hin|].
  assert (0 ≤ foldr (λ kv acc, kv.2 + acc) 0 l) as Hnonneg.
  { clear IH Hin. induction Hl as [|y l' Hy _ IH']; cbn; lia. }
  apply elem_of_cons in Hin as [->|Hin]; cbn.
  - lia.
  - specialize (IH Hin). lia.
Qed.

(** The entries of [most_common] are entries of the counter, ranked by
    descending count. *)
Lemma most_common_ranked (n : nat) (c : Counter.t K) :
  StronglySorted (λ a b : K * Z, b.2 ≤ a.2) (Counter.most_common n c)
  ∧ (length (Counter.most_common n c) ≤ n)%nat
  ∧ Counter.most_common n c ⊆ c
  ∧ (NoDup c.*1 → NoDup (Counter.most_common n c).*1)
  ∧ (Counts.positive_counts c →
     Counter.total (Counter.most_common n c) ≤ Counter.total c)
  ∧ ((length c ≤ n)%nat →
     Counter.total (Counter.most_common n c) = Counter.total c).
Proof.
  unfold Counter.most_common.
  change Z.ltb with (Order.ltb_of Z.compare).
  set (key := λ kv : K * Z, - kv.2).
  pose proof (sorted_sorted key Z.compare Z_compare_order_like c) as Hsorted.
  pose proof (sorted_perm key Z.compare c) as Hperm.
  set (ranked := Py.sorted key (Order.ltb_of Z.compare) c) in *.
  assert (take n ranked ⊆ c) as Hsub.
  { intros x Hx. rewrite <- Hperm. by eapply subseteq_take. }
  split; [|split; [|split; [done|split; [|split]]]].
  - assert (StronglySorted (λ a b : K * Z, b.2 ≤ a.2) ranked) as Hs.
    { clear -Hsorted. induction Hsorted as [|x l _ IH Hx]; constructor; [done|].
      eapply Forall_impl; [exact Hx|]. intros y Hy. unfold Order.le_by, key in Hy.
      cbn in Hy. destruct (Z.compare_spec (- x.2) (- y.2)); (done || lia). }
    clear -Hs. revert n. induction Hs as [|x l _ IH Hx]; intros n; destruct n; cbn;
      try constructor; [apply IH|].
    eapply Forall_forall. intros y Hy. eapply Forall_forall in Hx; [exact Hx|].
    by eapply subseteq_take.
  - rewrite length_take. lia.
  - intros Hnodup. rewrite fmap_take.
    apply (sublist_NoDup _ (ranked.*1)); [by rewrite Hperm | apply sublist_take].
  - intros Hpos. rewrite <- (counter_total_perm _ _ Hperm).
    apply counter_total_take. unfold Counts.positive_counts. by rewrite Hperm.
  - intros Hlen. rewrite take_ge by (by rewrite Hperm).
    by apply counter_total_perm.
Qed.

End counter_more.

(** ** More about the tally *)

Section tally_more.
Context `{RandomGen}.
Import Simulation.

Variables (field : gmap string (list SeededTeam.t)).
Variables (east_teams west_teams : list SeededTeam.t).
Hypothesis has_east : field !! "East"%string = Some east_teams.
Hypothesis has_west : field !! "West"%string = Some west_teams.
Hypothesis seeds_east : Spec.has_seeds_1_to_8 east_teams.
Hypothesis seeds_west : Spec.has_seeds_1_to_8 west_teams.

Local Abbreviation inv := (Spec.tally_inv east_teams west_teams).
Local Abbreviation counted := (Counts.counted east_teams west_teams).

Lemma empty_tally_counted : counted 0 empty_tally.
Proof.
  unfold Counts.counted, Counts.positive_counts. cbn.
  repeat split; try done; try apply NoDup_nil_2; repeat constructor.
Qed.

Lemma record_outcome_counted (i : Z) (counts counts' : tally)
    (champion east_champ west_champ : SeededTeam.t) :
  inv i counts → counted i counts →
  east_champ ∈ east_teams → west_champ ∈ west_teams →
  champion = east_champ ∨ champion = west_champ →
  record_outcome counts champion east_champ west_champ = Ok counts' →
  counted (i + 1) counts'.
Proof.
  intros (ce & cw & Hcc & _) (Tf & Nf & Lf & Pc & Pf & Pcc & Hle) He Hw Hchamp.
  unfold record_outcome. rewrite Hcc in *.
  cbn [incr_conference]. rewrite decide_True by done. cbn [mbind result_bind].
  cbn [incr_conference]. rewrite decide_False by done.
  rewrite decide_True by done. cbn [mbind result_bind].
  intros [= <-]. unfold Counts.counted. cbn [champ_counts conference_counts finals_counts].
  apply Forall_cons in Pcc as [Pe Pcc]. apply Forall_cons in Pcc as [Pw _].
  cbn [snd] in Pe, Pw.
  split; [rewrite counter_incr_total; lia|].
  split; [by apply counter_incr_NoDup|].
  split.
  { apply (counter_incr_Forall
             (λ label, ∃ e w, e ∈ east_teams ∧ w ∈ west_teams ∧ label = Counts.matchup e w));
      [by exists east_champ, west_champ | done]. }
  split; [by apply counter_incr_positive|].
  split; [by apply counter_incr_positive|].
  split; [repeat constructor; by apply counter_incr_positive|].
  intros team_id. specialize (Hle team_id). unfold Counts.conference_count in *.
  cbn [foldr snd] in *. rewrite !counter_incr_count_of.
  destruct Hchamp as [-> | ->]; repeat case_decide; lia.
Qed.

Lemma trials_counted (baseline : gmap Z R) (k_factor home_court_adv : R)
    (n : nat) (i : Z) (counts : tally) (parent_rng : rng) :
  inv i counts → counted i counts →
  ∃ counts' parent_rng',
    Spec.trials n field baseline k_factor home_court_adv (counts, parent_rng)
    = Ok (counts', parent_rng')
    ∧ inv (i + Z.of_nat n) counts'
    ∧ counted (i + Z.of_nat n) counts'.
Proof.
  revert i counts parent_rng. induction n as [|n IH]; intros i counts parent_rng Hinv Hc.
  - exists counts, parent_rng. split; [done|]. by rewrite Z.add_0_r.
  - cbn [Spec.trials]. unfold Spec.trial.
    destruct (randint 0 (10 ^ 9) parent_rng) as [sim_seed rng1].
    destruct (simulate_playoffs_total field east_teams west_teams baseline
                (Random sim_seed) k_factor home_court_adv has_east has_west
                seeds_east seeds_west)
      as (champion & east & west & drifted & g' & -> & He & Hw & Hchamp).
    cbn [mbind result_bind].
    destruct (record_outcome_inv east_teams west_teams i counts champion east west
                Hinv He Hw Hchamp) as (counts1 & Hrec & Hinv1).
    pose proof (record_outcome_counted i counts counts1 champion east west
                  Hinv Hc He Hw Hchamp Hrec) as Hc1.
    rewrite Hrec. cbn [mbind result_bind].
    destruct (IH (i + 1) counts1 rng1 Hinv1 Hc1) as (counts' & rng' & -> & Hinv' & Hc').
    exists counts', rng'. split; [done|].
    by replace (i + Z.of_nat (S n)) with (i + 1 + Z.of_nat n) by lia.
Qed.

End tally_more.

(** ** More about the odds *)

Section odds_more.
Context `{RandomGen}.
Import Simulation.

Lemma odds_of_counter_entries (team_lookup : gmap Z string) (n_simulations : Z)
    (counter : Counter.t Z) (odds : list (Z * (string * R))) :
  odds_of_counter team_lookup n_simulations counter = Ok odds →
  Forall2 (Counts.odds_entry team_lookup n_simulations) counter odds.
Proof.
  revert odds. induction counter as [|[team_id count] rest IH]; intros odds;
    cbn [odds_of_counter].
  - intros [= <-]. constructor.
  - unfold getitem. destruct (team_lookup !! team_id) as [name|] eqn:Hname;
      cbn [mbind result_bind]; [|done].
    destruct (odds_of_counter team_lookup n_simulations rest) as [rest'|e];
      cbn [mbind result_bind]; [|done].
    intros [= <-]. constructor; [done | by apply IH].
Qed.

Lemma odds_entries_keys (team_lookup : gmap Z string) (n_simulations : Z)
    (counter : Counter.t Z) (odds : list (Z * (string * R))) :
  Forall2 (Counts.odds_entry team_lookup n_simulations) counter odds →
  odds.*1 = counter.*1.
Proof.
  induction 1 as [|kv e c o (Hk & _ & _) _ IH]; [done|]. cbn. by rewrite Hk, IH.
Qed.

Lemma odds_entries_total (team_lookup : gmap Z string) (n_simulations : Z)
    (counter : Counter.t Z) (odds : list (Z * (string * R))) :
  Forall2 (Counts.odds_entry team_lookup n_simulations) counter odds →
  Spec.total_probability odds = (IZR (Counter.total counter) / IZR n_simulations)%R.
Proof.
  unfold Spec.total_probability, Counter.total.
  induction 1 as [|kv e c o (_ & _ & Hp) _ IH]; cbn [foldr].
  - unfold Rdiv. by rewrite Rmult_0_l.
  - rewrite IH, Hp, plus_IZR. unfold Rdiv. lra.
Qed.

Lemma odds_entries_probability (team_lookup : gmap Z string) (n_simulations : Z)
    (counter : Counter.t Z) (odds : list (Z * (string * R))) (team_id : Z) :
  Forall2 (Counts.odds_entry team_lookup n_simulations) counter odds →
  Spec.probability_of odds team_id
  = (IZR (Counts.count_of team_id counter) / IZR n_simulations)%R.
Proof.
  unfold Spec.probability_of, Counts.count_of.
  induction 1 as [|[k n] [k' [name p]] c o (Hk & _ & Hp) _ IH]; cbn [Spec.assoc].
  - cbn. unfold Rdiv. by rewrite Rmult_0_l.
  - cbn in Hk, Hp. subst k'. destruct (decide (team_id = k)); [by cbn | apply IH].
Qed.

Lemma odds_entries_range (team_lookup : gmap Z string) (n_simulations : Z)
    (counter : Counter.t Z) (odds : list (Z * (string * R)))
    (team_id : Z) (name : string) (p : R) :
  0 < n_simulations →
  Counts.positive_counts counter →
  Counter.total counter = n_simulations →
  Forall2 (Counts.odds_entry team_lookup n_simulations) counter odds →
  (team_id, (name, p)) ∈ odds →
  (0 < p <= 1)%R ∧ team_lookup !! team_id = Some name.
Proof.
  intros Hn Hpos Htotal Hentries Hin.
  apply list_elem_of_lookup_1 in Hin as [i Hi].
  destruct (Forall2_lookup_r _ _ _ _ _ Hentries Hi) as ([k count] & Hkv & Hk & Hname & Hp).
  cbn in Hk, Hname, Hp. subst k.
  apply list_elem_of_lookup_2 in Hkv.
  destruct (counter_entry_le_total counter _ Hpos Hkv) as [Hlo Hhi]. cbn in Hlo, Hhi.
  split; [|done]. rewrite Hp.
  assert (0 < IZR n_simulations)%R as Hn' by (by apply (IZR_lt 0)).
  assert (0 < IZR count)%R as Hc by (by apply (IZR_lt 0)).
  assert (IZR count <= IZR n_simulations)%R as Hle by (apply IZR_le; lia).
  split.
  - by apply Rdiv_lt_0_compat.
  - apply (Rmult_le_reg_r (IZR n_simulations)); [done|].
    unfold Rdiv. rewrite Rmult_assoc, Rinv_l by lra. lra.
Qed.

Lemma team_lookup_names (teams : list SeededTeam.t) (acc : gmap Z string)
    (team_id : Z) (name : string) :
  foldl (λ d t, <[SeededTeam.team_id t := SeededTeam.team_name t]> d) acc teams
    !! team_id = Some name →
  (∃ t, t ∈ teams ∧ SeededTeam.team_id t = team_id ∧ SeededTeam.team_name t = name)
  ∨ acc !! team_id = Some name.
Proof.
  revert acc. induction teams as [|t teams IH]; intros acc; cbn [foldl]; [by right|].
  intros Hfold. destruct (IH _ Hfold) as [(t' & Hin & Hid & Hname)|Hacc].
  - left. exists t'. split; [by apply list_elem_of_further | done].
  - destruct (decide (SeededTeam.team_id t = team_id)) as [Heq|Hne].
    + rewrite Heq, lookup_insert_eq in Hacc. injection Hacc as Hname.
      left. exists t. split; [apply list_elem_of_here | done].
    + rewrite lookup_insert_ne in Hacc by done. by right.
Qed.

Lemma build_team_lookup_names (field : gmap string (list SeededTeam.t))
    (east_teams west_teams : list SeededTeam.t) (team_lookup : gmap Z string)
    (team_id : Z) (name : string) :
  field !! "East"%string = Some east_teams →
  field !! "West"%string = Some west_teams →
  build_team_lookup field = Ok team_lookup →
  team_lookup !! team_id = Some name →
  ∃ t, t ∈ east_teams ++ west_teams
       ∧ SeededTeam.team_id t = team_id ∧ SeededTeam.team_name t = name.
Proof.
  intros HE HW. unfold build_team_lookup. cbn [foldl mbind result_bind].
  rewrite (getitem_Some _ _ _ HE). cbn [mbind result_bind].
  rewrite (getitem_Some _ _ _ HW). cbn [mbind result_bind].
  intros [= <-] Hname.
  apply team_lookup_names in Hname as [(t & Hin & Hid & Hn)|Hname].
  - exists t. split; [apply elem_of_app; by right | done].
  - apply team_lookup_names in Hname as [(t & Hin & Hid & Hn)|Hname].
    + exists t. split; [apply elem_of_app; by left | done].
    + by rewrite lookup_empty in Hname.
Qed.

Lemma odds_of_tally_Ok (team_lookup : gmap Z string) (n_simulations : Z)
    (counts : tally) (out : outputs) (east_counter west_counter : Counter.t Z) :
  conference_counts counts
  = [("East"%string, east_counter); ("West"%string, west_counter)] →
  odds_of_tally team_lookup n_simulations counts = Ok out →
  ∃ east_odds west_odds,
    conference_odds out = [("East"%string, east_odds); ("West"%string, west_odds)]
    ∧ Forall2 (Counts.odds_entry team_lookup n_simulations)
        (champ_counts counts) (championship_odds out)
    ∧ Forall2 (Counts.odds_entry team_lookup n_simulations) east_counter east_odds
    ∧ Forall2 (Counts.odds_entry team_lookup n_simulations) west_counter west_odds
    ∧ finals_top_10 out
      = map (λ kv : string * Z, (kv.1, (IZR kv.2 / IZR n_simulations)%R))
          (Counter.most_common 10 (finals_counts counts)).
Proof.
  intros Hcc. unfold odds_of_tally. rewrite Hcc. cbn [odds_of_conferences].
  destruct (odds_of_counter team_lookup n_simulations (champ_counts counts))
    as [champ_odds|e] eqn:Hchamp; cbn [mbind result_bind]; [|done].
  destruct (odds_of_counter team_lookup n_simulations east_counter)
    as [east_odds|e] eqn:Heast; cbn [mbind result_bind]; [|done].
  destruct (odds_of_counter team_lookup n_simulations west_counter)
    as [west_odds|e] eqn:Hwest; cbn [mbind result_bind]; [|done].
  intros [= <-]. exists east_odds, west_odds.
  cbn [conference_odds championship_odds finals_top_10].
  repeat split; try done; by apply odds_of_counter_entries.
Qed.

End odds_more.

(** ** The counters behind the odds *)

Section run_counts.
Context `{RandomGen}.
Import Simulation.

Variables (playoff_field base_ratings : loc).
Variables (field : gmap string (list SeededTeam.t)) (baseline : gmap Z R).
Variables (east_teams west_teams : list SeededTeam.t).
Variables (n_simulations : Z) (k_factor home_court_adv : R) (seed : Z) (h : store).
Hypothesis holds : Spec.holds_inputs playoff_field base_ratings field baseline h.
Hypothesis has_east : field !! "East"%string = Some east_teams.
Hypothesis has_west : field !! "West"%string = Some west_teams.
Hypothesis seeds_east : Spec.has_seeds_1_to_8 east_teams.
Hypothesis seeds_west : Spec.has_seeds_1_to_8 west_teams.
Hypothesis positive : 0 < n_simulations.

(** The odds that [run_monte_carlo] returns are those of counters that
    satisfy the two invariants of the loop for [n_simulations] trials. *)
Lemma run_monte_carlo_counts :
  ∃ out h' counts team_lookup,
    run_monte_carlo playoff_field base_ratings n_simulations k_factor home_court_adv
      seed h = Ok (out, h')
    ∧ build_team_lookup field = Ok team_lookup
    ∧ Spec.tally_inv east_teams west_teams n_simulations counts
    ∧ Counts.counted east_teams west_teams n_simulations counts
    ∧ odds_of_tally team_lookup n_simulations counts = Ok out.
Proof.
  pose proof (run_monte_carlo_store playoff_field base_ratings field baseline
                k_factor home_court_adv n_simulations seed h holds) as Hrun.
  unfold Spec.independent_trials in Hrun.
  destruct (Z.leb_spec n_simulations 0) as [Hle|_]; [lia|].
  destruct (build_team_lookup_total field east_teams west_teams has_east has_west)
    as (team_lookup & Hlookup & Hall).
  rewrite Hlookup in Hrun. cbn [mbind result_bind] in Hrun.
  destruct (trials_counted field east_teams west_teams has_east has_west seeds_east
              seeds_west baseline k_factor home_court_adv (Z.to_nat n_simulations)
              0 empty_tally (Random seed) (empty_tally_inv east_teams west_teams)
              (empty_tally_counted east_teams west_teams))
    as (counts & rng' & Htrials & Hinv & Hcounted).
  rewrite Htrials in Hrun. cbn [mbind result_bind] in Hrun.
  rewrite Z.add_0_l, Z2Nat.id in Hinv, Hcounted by lia.
  assert (∃ out, odds_of_tally team_lookup n_simulations counts = Ok out) as [out Hout].
  { destruct Hinv as (ce & cw & Hcc & Te & Tw & Tc & Ke & Kw & Kc & _).
    unfold odds_of_tally.
    destruct (odds_of_counter_total team_lookup n_simulations (champ_counts counts))
      as (champ_odds & -> & _ & _).
    { intros k Hk. by apply Hall, Kc. }
    cbn [mbind result_bind]. rewrite Hcc. cbn [odds_of_conferences].
    destruct (odds_of_counter_total team_lookup n_simulations ce) as (east_odds & -> & _).
    { intros k Hk. apply Hall. rewrite fmap_app. apply elem_of_app. left. by apply Ke. }
    cbn [mbind result_bind].
    destruct (odds_of_counter_total team_lookup n_simulations cw) as (west_odds & -> & _).
    { intros k Hk. apply Hall. rewrite fmap_app. apply elem_of_app. right. by apply Kw. }
    cbn [mbind result_bind]. by eexists. }
  rewrite Hout in Hrun. destruct Hrun as (h' & Hrun & _).
  by exists out, h', counts, team_lookup.
Qed.

End run_counts.

Lemma StronglySorted_map {A B : Type} (R1 : A → A → Prop) (R2 : B → B → Prop)
    (f : A → B) (l : list A) :
  (∀ a b, R1 a b → R2 (f a) (f b)) →
  StronglySorted R1 l → StronglySorted R2 (map f l).
Proof.
  intros Hf. induction 1 as [|x l _ IH Hx]; cbn; constructor; [done|].
  apply Forall_forall. intros y Hy. apply list_elem_of_fmap in Hy as (a & -> & Ha).
  apply Hf. by eapply Forall_forall in Hx.
Qed.

(** X12: on a field with seeds 1 to 8 in both conferences and with a
    positive number of trials, the championship odds that
    [run_monte_carlo] returns are a probability distribution over teams
    of the field: the probabilities add up to 1, no team has two
    entries, every entry has a probability above 0 and at most 1, and
    it carries the identifier and the name of a team of the field. *)
Theorem championship_odds_distribution `{RandomGen}
    (playoff_field base_ratings : loc)
    (field : gmap string (list SeededTeam.t)) (baseline : gmap Z R)
    (east_teams west_teams : list SeededTeam.t)
    (n_simulations : Z) (k_factor home_court_adv : R) (seed : Z) (h : store) :
  Spec.holds_inputs playoff_field base_ratings field baseline h →
  field !! "East"%string = Some east_teams →
  field !! "West"%string = Some west_teams →
  Spec.has_seeds_1_to_8 east_teams →
  Spec.has_seeds_1_to_8 west_teams →
  0 < n_simulations →
  ∃ out h',
    Simulation.run_monte_carlo playoff_field base_ratings n_simulations
      k_factor home_court_adv seed h = Ok (out, h')
    ∧ Spec.total_probability (Simulation.championship_odds out) = 1%R
    ∧ NoDup (Simulation.championship_odds out).*1
    ∧ ∀ (team_id : Z) (name : string) (p : R),
        (team_id, (name, p)) ∈ Simulation.championship_odds out →
        (0 < p <= 1)%R
        ∧ ∃ t, t ∈ east_teams ++ west_teams
               ∧ SeededTeam.team_id t = team_id ∧ SeededTeam.team_name t = name.
Proof.
  intros Hh HE HW SE SW Hn.
  destruct (run_monte_carlo_counts playoff_field base_ratings field baseline
              east_teams west_teams n_simulations k_factor home_court_adv seed h
              Hh HE HW SE SW Hn)
    as (out & h' & counts & team_lookup & Hrun & Hlookup & Hinv & Hcounted & Hout).
  destruct Hinv as (ce & cw & Hcc & Te & Tw & Tc & Ke & Kw & Kc & Ne & Nw & Nc).
  destruct Hcounted as (_ & _ & _ & Pc & _).
  destruct (odds_of_tally_Ok team_lookup n_simulations counts out ce cw Hcc Hout)
    as (east_odds & west_odds & _ & Hchamp & _).
  exists out, h'. split; [done|].
  assert (IZR n_simulations ≠ 0)%R as Hn' by (apply not_0_IZR; lia).
  split.
  { rewrite (odds_entries_total _ _ _ _ Hchamp), Tc. by apply Rdiv_diag. }
  split; [by rewrite (odds_entries_keys _ _ _ _ Hchamp)|].
  intros team_id name p Hin.
  destruct (odds_entries_range team_lookup n_simulations _ _ team_id name p
              Hn Pc Tc Hchamp Hin) as [Hp Hname].
  split; [done|].
  by apply (build_team_lookup_names field east_teams west_teams team_lookup).
Qed.

Lemma championship_odds_distribution_witness :
  (Spec.holds_inputs 1%positive 2%positive Examples.test_field Examples.conference_ratings
     Examples.test_store
   ∧ Examples.test_field !! "East"%string = Some Examples.east_teams
   ∧ Examples.test_field !! "West"%string = Some Examples.west_teams
   ∧ Spec.has_seeds_1_to_8 Examples.east_teams
   ∧ Spec.has_seeds_1_to_8 Examples.west_teams
   ∧ 0 < 300)
  ∧ ∃ out h',
      @Simulation.run_monte_carlo home_always_wins 1%positive 2%positive 300
        20%R 65%R 123 Examples.test_store = Ok (out, h')
      ∧ Spec.total_probability (Simulation.championship_odds out) = 1%R
      ∧ NoDup (Simulation.championship_odds out).*1
      ∧ ∀ (team_id : Z) (name : string) (p : R),
          (team_id, (name, p)) ∈ Simulation.championship_odds out →
          (0 < p <= 1)%R
          ∧ ∃ t, t ∈ Examples.east_teams ++ Examples.west_teams
                 ∧ SeededTeam.team_id t = team_id ∧ SeededTeam.team_name t = name.
Proof.
  assert (Spec.holds_inputs 1%positive 2%positive Examples.test_field
            Examples.conference_ratings Examples.test_store) as Hh
    by (split; reflexivity).
  assert (Spec.has_seeds_1_to_8 Examples.east_teams) as SE
    by (unfold Spec.has_seeds_1_to_8; apply (bool_decide_unpack _); vm_compute; exact I).
  assert (Spec.has_seeds_1_to_8 Examples.west_teams) as SW
    by (unfold Spec.has_seeds_1_to_8; apply (bool_decide_unpack _); vm_compute; exact I).
  split; [repeat split; (reflexivity || assumption)|].
  apply (@championship_odds_distribution home_always_wins 1%positive 2%positive
           Examples.test_field Examples.conference_ratings Examples.east_teams
           Examples.west_teams 300 20%R 65%R 123 Examples.test_store Hh);
    (reflexivity || assumption).
Defined.

(** X13: in the odds that [run_monte_carlo] returns no team is more
    likely to win the title than to win a conference: its championship
    probability is at most the sum of its probabilities in the East and
    in the West odds, a team without an entry counting as 0. *)
Theorem title_odds_at_most_conference_odds `{RandomGen}
    (playoff_field base_ratings : loc)
    (field : gmap string (list SeededTeam.t)) (baseline : gmap Z R)
    (east_teams west_teams : list SeededTeam.t)
    (n_simulations : Z) (k_factor home_court_adv : R) (seed : Z) (h : store) :
  Spec.holds_inputs playoff_field base_ratings field baseline h →
  field !! "East"%string = Some east_teams →
  field !! "West"%string = Some west_teams →
  Spec.has_seeds_1_to_8 east_teams →
  Spec.has_seeds_1_to_8 west_teams →
  0 < n_simulations →
  ∃ out h' east_odds west_odds,
    Simulation.run_monte_carlo playoff_field base_ratings n_simulations
      k_factor home_court_adv seed h = Ok (out, h')
    ∧ Simulation.conference_odds out
      = [("East"%string, east_odds); ("West"%string, west_odds)]
    ∧ ∀ team_id : Z,
        (Spec.probability_of (Simulation.championship_odds out) team_id
         <= Spec.probability_of east_odds team_id
            + Spec.probability_of west_odds team_id)%R.
Proof.
  intros Hh HE HW SE SW Hn.
  destruct (run_monte_carlo_counts playoff_field base_ratings field baseline
              east_teams west_teams n_simulations k_factor home_court_adv seed h
              Hh HE HW SE SW Hn)
    as (out & h' & counts & team_lookup & Hrun & Hlookup & Hinv & Hcounted & Hout).
  destruct Hinv as (ce & cw & Hcc & _).
  destruct Hcounted as (_ & _ & _ & _ & _ & _ & Hle).
  destruct (odds_of_tally_Ok team_lookup n_simulations counts out ce cw Hcc Hout)
    as (east_odds & west_odds & Hco & Hchamp & Heast & Hwest & _).
  exists out, h', east_odds, west_odds. split; [done|]. split; [done|].
  intros team_id.
  rewrite (odds_entries_probability _ _ _ _ team_id Hchamp),
    (odds_entries_probability _ _ _ _ team_id Heast),
    (odds_entries_probability _ _ _ _ team_id Hwest).
  specialize (Hle team_id). rewrite Hcc in Hle. unfold Counts.conference_count in Hle.
  cbn [foldr snd] in Hle.
  assert (0 < IZR n_simulations)%R as Hn' by (by apply (IZR_lt 0)).
  apply IZR_le in Hle. rewrite !plus_IZR in Hle.
  apply (Rmult_le_reg_r (IZR n_simulations)); [done|].
  unfold Rdiv. rewrite Rmult_plus_distr_r, !Rmult_assoc, Rinv_l by lra. lra.
Qed.

Lemma title_odds_at_most_conference_odds_witness :
  (Spec.holds_inputs 1%positive 2%positive Examples.test_field Examples.conference_ratings
     Examples.test_store
   ∧ Examples.test_field !! "East"%string = Some Examples.east_teams
   ∧ Examples.test_field !! "West"%string = Some Examples.west_teams
   ∧ Spec.has_seeds_1_to_8 Examples.east_teams
   ∧ Spec.has_seeds_1_to_8 Examples.west_teams
   ∧ 0 < 300)
  ∧ ∃ out h' east_odds west_odds,
      @Simulation.run_monte_carlo home_always_wins 1%positive 2%positive 300
        20%R 65%R 123 Examples.test_store = Ok (out, h')
      ∧ Simulation.conference_odds out
        = [("East"%string, east_odds); ("West"%string, west_odds)]
      ∧ ∀ team_id : Z,
          (Spec.probability_of (Simulation.championship_odds out) team_id
           <= Spec.probability_of east_odds team_id
              + Spec.probability_of west_odds team_id)%R.
Proof.
  assert (Spec.holds_inputs 1%positive 2%positive Examples.test_field
            Examples.conference_ratings Examples.test_store) as Hh
    by (split; reflexivity).
  assert (Spec.has_seeds_1_to_8 Examples.east_teams) as SE
    by (unfold Spec.has_seeds_1_to_8; apply (bool_decide_unpack _); vm_compute; exact I).
  assert (Spec.has_seeds_1_to_8 Examples.west_teams) as SW
    by (unfold Spec.has_seeds_1_to_8; apply (bool_decide_unpack _); vm_compute; exact I).
  split; [repeat split; (reflexivity || assumption)|].
  apply (@title_odds_at_most_conference_odds home_always_wins 1%positive 2%positive
           Examples.test_field Examples.conference_ratings Examples.east_teams
           Examples.west_teams 300 20%R 65%R 123 Examples.test_store Hh);
    (reflexivity || assumption).
Defined.

(** X14: the list of finals matchups that [run_monte_carlo] returns has
    at most ten entries, ranked by descending probability, no label
    twice; every entry has a probability above 0 and at most 1 and is
    labelled with the names of an East team and of a West team; the
    probabilities add up to at most 1, and to exactly 1 when fewer than
    ten matchups are listed. *)
Theorem finals_top_10_ranked `{RandomGen}
    (playoff_field base_ratings : loc)
    (field : gmap string (list SeededTeam.t)) (baseline : gmap Z R)
    (east_teams west_teams : list SeededTeam.t)
    (n_simulations : Z) (k_factor home_court_adv : R) (seed : Z) (h : store) :
  Spec.holds_inputs playoff_field base_ratings field baseline h →
  field !! "East"%string = Some east_teams →
  field !! "West"%string = Some west_teams →
  Spec.has_seeds_1_to_8 east_teams →
  Spec.has_seeds_1_to_8 west_teams →
  0 < n_simulations →
  ∃ out h',
    Simulation.run_monte_carlo playoff_field base_ratings n_simulations
      k_factor home_court_adv seed h = Ok (out, h')
    ∧ (length (Simulation.finals_top_10 out) ≤ 10)%nat
    ∧ StronglySorted (λ a b : string * R, (b.2 <= a.2)%R) (Simulation.finals_top_10 out)
    ∧ NoDup (Simulation.finals_top_10 out).*1
    ∧ (Counts.total_of (Simulation.finals_top_10 out) <= 1)%R
    ∧ ((length (Simulation.finals_top_10 out) < 10)%nat →
       Counts.total_of (Simulation.finals_top_10 out) = 1%R)
    ∧ ∀ (label : string) (p : R),
        (label, p) ∈ Simulation.finals_top_10 out →
        (0 < p <= 1)%R
        ∧ ∃ east_champ west_champ,
            east_champ ∈ east_teams ∧ west_champ ∈ west_teams
            ∧ label = Counts.matchup east_champ west_champ.
Proof.
  intros Hh HE HW SE SW Hn.
  destruct (run_monte_carlo_counts playoff_field base_ratings field baseline
              east_teams west_teams n_simulations k_factor home_court_adv seed h
              Hh HE HW SE SW Hn)
    as (out & h' & counts & team_lookup & Hrun & Hlookup & Hinv & Hcounted & Hout).
  destruct Hinv as (ce & cw & Hcc & _).
  destruct Hcounted as (Tf & Nf & Lf & _ & Pf & _).
  destruct (odds_of_tally_Ok team_lookup n_simulations counts out ce cw Hcc Hout)
    as (east_odds & west_odds & _ & _ & _ & _ & Htop).
  destruct (most_common_ranked 10 (Simulation.finals_counts counts))
    as (Hsorted & Hlen & Hsub & Hnodup & Htotal & Hall).
  set (top := Counter.most_common 10 (Simulation.finals_counts counts)) in *.
  assert (0 < IZR n_simulations)%R as Hn' by (by apply (IZR_lt 0)).
  assert (Counts.total_of
            (map (λ kv : string * Z, (kv.1, (IZR kv.2 / IZR n_simulations)%R)) top)
          = (IZR (Counter.total top) / IZR n_simulations)%R) as Hsum.
  { unfold Counts.total_of, Counter.total. clear.
    induction top as [|kv top IH]; cbn [map foldr snd].
    - unfold Rdiv. by rewrite Rmult_0_l.
    - rewrite IH, plus_IZR. unfold Rdiv. lra. }
  exists out, h'. split; [done|]. rewrite Htop.
  split; [by rewrite length_map|].
  split.
  { apply (StronglySorted_map (λ a b : string * Z, b.2 ≤ a.2)); [|done].
    intros a b Hab. cbn [snd]. apply IZR_le in Hab.
    unfold Rdiv. apply Rmult_le_compat_r; [|done].
    left. by apply Rinv_0_lt_compat. }
  split.
  { rewrite <- list_fmap_compose.
    replace (fst ∘ (λ kv : string * Z, (kv.1, (IZR kv.2 / IZR n_simulations)%R)))
      with (@fst string Z) by done.
    by apply Hnodup. }
  split.
  { rewrite Hsum. specialize (Htotal Pf). rewrite Tf in Htotal. apply IZR_le in Htotal.
    apply (Rmult_le_reg_r (IZR n_simulations)); [done|].
    unfold Rdiv. rewrite Rmult_assoc, Rinv_l by lra. lra. }
  split.
  { rewrite length_map. intros Hshort. rewrite Hsum.
    assert (length (Simulation.finals_counts counts) ≤ 10)%nat as Hfew.
    { subst top. unfold Counter.most_common in Hshort. rewrite length_take in Hshort.
      change Z.ltb with (Order.ltb_of Z.compare) in Hshort.
      rewrite (Permutation_length
                 (sorted_perm (λ kv : string * Z, - kv.2) Z.compare
                    (Simulation.finals_counts counts))) in Hshort.
      lia. }
    rewrite (Hall Hfew), Tf. apply Rdiv_diag. lra. }
  intros label p Hin.
  apply list_elem_of_fmap in Hin as ([label' count] & [= -> ->] & Hin).
  apply Hsub in Hin. cbn [fst snd].
  destruct (counter_entry_le_total _ _ Pf Hin) as [Hlo Hhi]. cbn [snd] in Hlo, Hhi.
  rewrite Tf in Hhi.
  split.
  - apply (IZR_lt 0) in Hlo. apply IZR_le in Hhi. split.
    + by apply Rdiv_lt_0_compat.
    + apply (Rmult_le_reg_r (IZR n_simulations)); [done|].
      unfold Rdiv. rewrite Rmult_assoc, Rinv_l by lra. lra.
  - eapply Forall_forall in Lf; [|exact Hin]. exact Lf.
Qed.

Lemma finals_top_10_ranked_witness :
  (Spec.holds_inputs 1%positive 2%positive Examples.test_field Examples.conference_ratings
     Examples.test_store
   ∧ Examples.test_field !! "East"%string = Some Examples.east_teams
   ∧ Examples.test_field !! "West"%string = Some Examples.west_teams
   ∧ Spec.has_seeds_1_to_8 Examples.east_teams
   ∧ Spec.has_seeds_1_to_8 Examples.west_teams
   ∧ 0 < 300)
  ∧ ∃ out h',
      @Simulation.run_monte_carlo home_always_wins 1%positive 2%positive 300
        20%R 65%R 123 Examples.test_store = Ok (out, h')
      ∧ (length (Simulation.finals_top_10 out) ≤ 10)%nat
      ∧ StronglySorted (λ a b : string * R, (b.2 <= a.2)%R)
          (Simulation.finals_top_10 out)
      ∧ NoDup (Simulation.finals_top_10 out).*1
      ∧ (Counts.total_of (Simulation.finals_top_10 out) <= 1)%R
      ∧ ((length (Simulation.finals_top_10 out) < 10)%nat →
         Counts.total_of (Simulation.finals_top_10 out) = 1%R)
      ∧ ∀ (label : string) (p : R),
          (label, p) ∈ Simulation.finals_top_10 out →
          (0 < p <= 1)%R
          ∧ ∃ east_champ west_champ,
              east_champ ∈ Examples.east_teams ∧ west_champ ∈ Examples.west_teams
              ∧ label = Counts.matchup east_champ west_champ.
Proof.
  assert (Spec.holds_inputs 1%positive 2%positive Examples.test_field
            Examples.conference_ratings Examples.test_store) as Hh
    by (split; reflexivity).
  assert (Spec.has_seeds_1_to_8 Examples.east_teams) as SE
    by (unfold Spec.has_seeds_1_to_8; apply (bool_decide_unpack _); vm_compute; exact I).
  assert (Spec.has_seeds_1_to_8 Examples.west_teams) as SW
    by (unfold Spec.has_seeds_1_to_8; apply (bool_decide_unpack _); vm_compute; exact I).
  split; [repeat split; (reflexivity || assumption)|].
  apply (@finals_top_10_ranked home_always_wins 1%positive 2%positive
           Examples.test_field Examples.conference_ratings Examples.east_teams
           Examples.west_teams 300 20%R 65%R 123 Examples.test_store Hh);
    (reflexivity || assumption).
Defined.

(** ** What the aggregation raises *)

Section run_errors.
Context `{RandomGen}.
Import Simulation.

Lemma simulate_playoffs_raises (field : gmap string (list SeededTeam.t))
    (ratings : gmap Z R) (g : rng) (k_factor home_court_adv : R) :
  ¬ More.playable field →
  Bracket.simulate_playoffs field ratings g k_factor home_court_adv = Err KeyError.
Proof.
  intros Hno.
  pose proof (simulate_playoffs_cases field ratings g k_factor home_court_adv) as Hcases.
  destruct (Bracket.simulate_playoffs field ratings g k_factor home_court_adv)
    as [[[[[champion east] west] r] g']|e].
  - destruct Hcases as (east_teams & west_teams & ? & ? & ? & ? & _).
    exfalso. apply Hno. by exists east_teams, west_teams.
  - by destruct Hcases as [-> _].
Qed.

Lemma build_team_lookup_raises (field : gmap string (list SeededTeam.t)) (e : error) :
  build_team_lookup field = Err e → e = KeyError.
Proof.
  unfold build_team_lookup, getitem. cbn [foldl mbind result_bind].
  destruct (field !! "East"%string); cbn [mbind result_bind]; [|congruence].
  destruct (field !! "West"%string); cbn [mbind result_bind]; congruence.
Qed.

Lemma independent_trials_raises (field : gmap string (list SeededTeam.t))
    (baseline : gmap Z R) (n_simulations : Z) (k_factor home_court_adv : R) (seed : Z) :
  0 < n_simulations →
  ¬ More.playable field →
  Spec.independent_trials field baseline n_simulations k_factor home_court_adv seed
  = Err KeyError.
Proof.
  intros Hn Hno. unfold Spec.independent_trials.
  destruct (Z.leb_spec n_simulations 0) as [Hle|_]; [lia|].
  destruct (build_team_lookup field) as [team_lookup|e] eqn:Hlookup;
    cbn [mbind result_bind]; [|by rewrite (build_team_lookup_raises field e)].
  destruct (Z.to_nat n_simulations) as [|n] eqn:Hnat; [lia|].
  cbn [Spec.trials]. unfold Spec.trial.
  destruct (randint 0 (10 ^ 9) (Random seed)) as [sim_seed parent_rng].
  by rewrite (simulate_playoffs_raises field baseline _ _ _ Hno).
Qed.

End run_errors.

(** What [run_monte_carlo] returns or raises in the model, in which the
    rating arithmetic raises nothing. *)
Lemma run_monte_carlo_cases `{RandomGen}
    (playoff_field base_ratings : loc)
    (field : gmap string (list SeededTeam.t)) (baseline : gmap Z R)
    (n_simulations : Z) (k_factor home_court_adv : R) (seed : Z) (h : store) :
  Spec.holds_inputs playoff_field base_ratings field baseline h →
  match Simulation.run_monte_carlo playoff_field base_ratings n_simulations
          k_factor home_court_adv seed h with
  | Ok _ => 0 < n_simulations ∧ More.playable field
  | Err e =>
      (n_simulations ≤ 0 ∧ e = ValueError "n_simulations must be greater than 0")
      ∨ (0 < n_simulations ∧ e = KeyError ∧ ¬ More.playable field)
  end.
Proof.
  intros Hh. destruct (Z.leb_spec n_simulations 0) as [Hle|Hn].
  { unfold Simulation.run_monte_carlo. apply Z.leb_le in Hle as Hleb. rewrite Hleb.
    by left. }
  pose proof (simulate_playoffs_cases field baseline (Random seed) k_factor home_court_adv)
    as Hcases.
  destruct (Bracket.simulate_playoffs field baseline (Random seed) k_factor home_court_adv)
    as [[[[[champion east] west] r] g']|e].
  - destruct Hcases as (east_teams & west_teams & HE & HW & SE & SW & _).
    destruct (run_monte_carlo_counts playoff_field base_ratings field baseline
                east_teams west_teams n_simulations k_factor home_court_adv seed h
                Hh HE HW SE SW Hn) as (out & h' & _ & _ & -> & _).
    split; [done|]. by exists east_teams, west_teams.
  - destruct Hcases as [_ Hno].
    pose proof (run_monte_carlo_store playoff_field base_ratings field baseline
                  k_factor home_court_adv n_simulations seed h Hh) as Hrun.
    rewrite (independent_trials_raises field baseline n_simulations k_factor
               home_court_adv seed Hn Hno) in Hrun.
    rewrite Hrun. by right.
Qed.

(** X15: the exceptions of [run_monte_carlo] that come from its own
    checks and lookups.  It raises [ValueError] exactly when the number
    of trials is not positive, whatever the field holds; a [KeyError]
    is raised only with a positive number of trials on a field that
    lacks a conference or a seed from 1 to 8 in one of them, and always
    when a conference is missing; and when the call returns, the number
    of trials is positive and the field has both conferences with all
    eight seeds. *)
Theorem run_monte_carlo_raises `{RandomGen}
    (playoff_field base_ratings : loc)
    (field : gmap string (list SeededTeam.t)) (baseline : gmap Z R)
    (n_simulations : Z) (k_factor home_court_adv : R) (seed : Z) (h : store) :
  Spec.holds_inputs playoff_field base_ratings field baseline h →
  match Simulation.run_monte_carlo playoff_field base_ratings n_simulations
          k_factor home_court_adv seed h with
  | Ok _ => 0 < n_simulations ∧ More.playable field
  | Err e =>
      (n_simulations ≤ 0 → e = ValueError "n_simulations must be greater than 0")
      ∧ ((∃ msg, e = ValueError msg) → n_simulations ≤ 0)
      ∧ (e = KeyError → 0 < n_simulations ∧ ¬ More.playable field)
      ∧ (0 < n_simulations →
         field !! "East"%string = None ∨ field !! "West"%string = None →
         e = KeyError)
  end.
Proof.
  intros Hh.
  pose proof (run_monte_carlo_cases playoff_field base_ratings field baseline
                n_simulations k_factor home_court_adv seed h Hh) as Hcases.
  destruct (Simulation.run_monte_carlo playoff_field base_ratings n_simulations
              k_factor home_court_adv seed h) as [out|e]; [exact Hcases|].
  destruct Hcases as [[Hn ->]|(Hn & -> & Hno)].
  - split; [done|]. split; [done|]. split; [done|]. intros Hpos. lia.
  - split; [intros Hle; lia|]. split; [by intros [msg Hmsg]|]. split; done.
Qed.

Lemma run_monte_carlo_raises_witness :
  Spec.holds_inputs 1%positive 2%positive Examples.test_field Examples.conference_ratings
    Examples.test_store
  ∧ match @Simulation.run_monte_carlo home_always_wins 1%positive 2%positive 0
            20%R 65%R 123 Examples.test_store with
    | Ok _ => 0 < 0 ∧ More.playable Examples.test_field
    | Err e =>
        (0 ≤ 0 → e = ValueError "n_simulations must be greater than 0")
        ∧ ((∃ msg, e = ValueError msg) → 0 ≤ 0)
        ∧ (e = KeyError → 0 < 0 ∧ ¬ More.playable Examples.test_field)
        ∧ (0 < 0 →
           Examples.test_field !! "East"%string = None
           ∨ Examples.test_field !! "West"%string = None →
           e = KeyError)
    end.
Proof.
  assert (Spec.holds_inputs 1%positive 2%positive Examples.test_field
            Examples.conference_ratings Examples.test_store) as Hh
    by (split; reflexivity).
  split; [done|].
  apply (@run_monte_carlo_raises home_always_wins 1%positive 2%positive
           Examples.test_field Examples.conference_ratings 0 20%R 65%R 123
           Examples.test_store Hh).
Defined.

(** ** The ratings of the regular season *)

Section season_facts.
Import Pipeline.

Lemma key_compare_order_like_games : Order.order_like Pipeline.key_compare.
Proof. apply lex_order_like; apply Z_compare_order_like. Qed.

Lemma key_compare_eq (a b : Z * Z) : Pipeline.key_compare a b = Eq → a = b.
Proof.
  destruct a as [a1 a2], b as [b1 b2]. unfold Pipeline.key_compare, Order.lex. cbn [fst snd].
  destruct (Z.compare_spec a1 b1); try done.
  destruct (Z.compare_spec a2 b2); try done. by subst.
Qed.

Lemma teams_of_cons (g : GameResult.t) (games : list GameResult.t) :
  teams_of (g :: games)
  = {[GameResult.home_team_id g; GameResult.away_team_id g]} ∪ teams_of games.
Proof.
  unfold teams_of. cbn [mbind list_bind app list_to_set].
  apply set_eq. intros x.
  rewrite !elem_of_union, !elem_of_singleton, !elem_of_list_to_set. tauto.
Qed.

Lemma teams_of_perm (games games' : list GameResult.t) :
  Permutation games games' → teams_of games = teams_of games'.
Proof.
  intros Hperm. unfold teams_of. apply set_eq. intros x.
  rewrite !elem_of_list_to_set, !list_elem_of_bind.
  split; intros (g & Hx & Hg); exists g; (split; [done|]);
    [by rewrite <- Hperm | by rewrite Hperm].
Qed.

Variables (k_factor home_court_adv : R).

Lemma rate_game_ratings (ratings : gmap Z R) (game : GameResult.t) :
  ∃ new_home new_away,
    rate_game k_factor home_court_adv ratings game
    = <[GameResult.away_team_id game := new_away]>
        (<[GameResult.home_team_id game := new_home]> ratings)
    ∧ (new_home + new_away
       = Bracket.rating_of ratings (GameResult.home_team_id game)
         + Bracket.rating_of ratings (GameResult.away_team_id game))%R.
Proof.
  unfold rate_game, Elo.update_elo, Bracket.rating_of. cbv zeta.
  eexists _, _. split; [done|]. lra.
Qed.

Lemma rate_game_dom (ratings : gmap Z R) (game : GameResult.t) :
  dom (rate_game k_factor home_court_adv ratings game)
  = {[GameResult.home_team_id game; GameResult.away_team_id game]} ∪ dom ratings.
Proof.
  destruct (rate_game_ratings ratings game) as (nh & na & -> & _).
  rewrite !dom_insert_L. apply set_eq. intros x.
  rewrite !elem_of_union, !elem_of_singleton. tauto.
Qed.

Lemma rate_game_conserved (ids : list Z) (ratings : gmap Z R) (game : GameResult.t) :
  GameResult.home_team_id game ∈ ids →
  GameResult.away_team_id game ∈ ids →
  GameResult.home_team_id game ≠ GameResult.away_team_id game →
  More.conserved ids ratings (rate_game k_factor home_court_adv ratings game).
Proof.
  intros Hh Ha Hne.
  destruct (rate_game_ratings ratings game) as (nh & na & -> & Hsum).
  assert (More.agree_except
            {[GameResult.home_team_id game; GameResult.away_team_id game]} ratings
            (<[GameResult.away_team_id game := na]>
               (<[GameResult.home_team_id game := nh]> ratings))) as Hagree.
  { intros x Hx. apply not_elem_of_pair in Hx as [Hx1 Hx2].
    by rewrite !lookup_insert_ne. }
  split.
  - intros x Hx. apply Hagree. intros Hin. apply Hx. apply elem_of_list_to_set.
    apply elem_of_union in Hin as [Hin|Hin]; apply elem_of_singleton in Hin; by subst x.
  - intros Hnodup.
    apply (total_rating_exchange ids (GameResult.home_team_id game)
             (GameResult.away_team_id game)); try done.
    unfold Bracket.rating_of in *.
    set (a := default 1500%R (ratings !! GameResult.home_team_id game)) in *.
    set (c := default 1500%R (ratings !! GameResult.away_team_id game)) in *.
    clearbody a c.
    rewrite lookup_insert_ne, lookup_insert_eq, lookup_insert_eq by done.
    cbn [default from_option]. unfold Datatypes.id. lra.
Qed.

Lemma rate_games_dom (games : list GameResult.t) (ratings : gmap Z R) :
  dom (foldl (rate_game k_factor home_court_adv) ratings games)
  = teams_of games ∪ dom ratings.
Proof.
  revert ratings. induction games as [|g games IH]; intros ratings; cbn [foldl].
  - unfold teams_of. cbn. apply set_eq. intros x. rewrite elem_of_union.
    rewrite elem_of_empty. tauto.
  - rewrite IH, rate_game_dom, teams_of_cons. apply set_eq. intros x.
    rewrite !elem_of_union. tauto.
Qed.

Lemma rate_games_conserved (ids : list Z) (games : list GameResult.t)
    (ratings : gmap Z R) :
  two_sided games →
  teams_of games ⊆ list_to_set ids →
  More.conserved ids ratings (foldl (rate_game k_factor home_court_adv) ratings games).
Proof.
  revert ratings. induction games as [|g games IH]; intros ratings Hsided Hteams;
    cbn [foldl]; [apply conserved_refl|].
  apply Forall_cons in Hsided as [Hg Hsided]. rewrite teams_of_cons in Hteams.
  apply (conserved_trans ids _ (rate_game k_factor home_court_adv ratings g)).
  - assert (∀ x, x = GameResult.home_team_id g ∨ x = GameResult.away_team_id g →
                 x ∈ ids) as Hin.
    { intros x Hx. apply (elem_of_list_to_set (C := gset Z)). apply Hteams.
      rewrite !elem_of_union, !elem_of_singleton. tauto. }
    apply rate_game_conserved; [apply Hin; by left | apply Hin; by right | done].
  - apply IH; [done|]. intros x Hx. apply Hteams. apply elem_of_union. by right.
Qed.

Lemma total_rating_empty (ids : list Z) :
  More.total_rating ids ∅ = (1500 * INR (length ids))%R.
Proof.
  unfold More.total_rating. induction ids as [|x ids IH]; [cbn; lra|].
  cbn [foldr length]. rewrite IH, S_INR. unfold Bracket.rating_of.
  rewrite lookup_empty. cbn. lra.
Qed.

End season_facts.

(** X16: the ratings of the regular season have an entry for exactly
    the teams that played a game, and no game creates or destroys
    rating points: when no game is between a team and itself, the
    ratings of any teams that include all that played, each listed
    once and a team without an entry counting with 1500, add up to
    1500 for each team. *)
Theorem regular_season_ratings_zero_sum (games : list GameResult.t)
    (k_factor home_court_adv : R) (ids : list Z) :
  dom (Pipeline.build_regular_season_ratings games k_factor home_court_adv)
  = Pipeline.teams_of games
  ∧ (Pipeline.two_sided games →
     NoDup ids →
     Pipeline.teams_of games ⊆ list_to_set ids →
     More.total_rating ids
       (Pipeline.build_regular_season_ratings games k_factor home_court_adv)
     = (1500 * INR (length ids))%R).
Proof.
  unfold Pipeline.build_regular_season_ratings.
  pose proof (sorted_perm Pipeline.game_key Pipeline.key_compare games) as Hperm.
  fold Pipeline.key_lt in Hperm.
  split.
  - rewrite rate_games_dom, dom_empty_L, (teams_of_perm _ _ Hperm).
    apply set_eq. intros x. rewrite elem_of_union, elem_of_empty. tauto.
  - intros Hsided Hnodup Hteams. rewrite <- total_rating_empty.
    apply (rate_games_conserved k_factor home_court_adv ids); [| |done].
    + unfold Pipeline.two_sided. by rewrite Hperm.
    + by rewrite (teams_of_perm _ _ Hperm).
Qed.

Lemma regular_season_ratings_zero_sum_witness :
  (Pipeline.two_sided Pipeline.example_games
   ∧ NoDup [1; 2; 3; 4]
   ∧ Pipeline.teams_of Pipeline.example_games ⊆ list_to_set [1; 2; 3; 4])
  ∧ dom (Pipeline.build_regular_season_ratings Pipeline.example_games 20 65)
    = Pipeline.teams_of Pipeline.example_games
  ∧ More.total_rating [1; 2; 3; 4]
      (Pipeline.build_regular_season_ratings Pipeline.example_games 20 65)
    = (1500 * INR (length [1; 2; 3; 4]))%R.
Proof.
  assert (Pipeline.two_sided Pipeline.example_games) as Hsided
    by (unfold Pipeline.two_sided; apply (bool_decide_unpack _); vm_compute; exact I).
  assert (NoDup [1; 2; 3; 4]) as Hnodup
    by (apply (bool_decide_unpack _); vm_compute; exact I).
  assert (Pipeline.teams_of Pipeline.example_games ⊆ list_to_set [1; 2; 3; 4]) as Hteams
    by (apply (bool_decide_unpack _); vm_compute; exact I).
  split; [done|].
  destruct (regular_season_ratings_zero_sum Pipeline.example_games 20 65 [1; 2; 3; 4])
    as [Hdom Htotal].
  split; [exact Hdom | exact (Htotal Hsided Hnodup Hteams)].
Defined.

(** X17: the ratings of the regular season do not depend on the order
    in which the games are listed, when no two different games have
    the same date and the same identifier: the games are replayed in
    the order of their dates and, on one date, of their identifiers. *)
Theorem regular_season_ratings_order_independent (games games' : list GameResult.t)
    (k_factor home_court_adv : R) :
  Permutation games games' →
  Pipeline.distinct_keys games →
  Pipeline.build_regular_season_ratings games k_factor home_court_adv
  = Pipeline.build_regular_season_ratings games' k_factor home_court_adv.
Proof.
  intros Hperm Hkeys. unfold Pipeline.build_regular_season_ratings, Pipeline.key_lt.
  rewrite (sorted_perm_eq Pipeline.game_key Pipeline.key_compare
             key_compare_order_like_games games games' Hperm); [done|].
  intros x y Hx Hy Heq. apply Hkeys; [done | done |]. by apply key_compare_eq.
Qed.

Lemma regular_season_ratings_order_independent_witness :
  (Permutation Pipeline.example_games (reverse Pipeline.example_games)
   ∧ Pipeline.distinct_keys Pipeline.example_games)
  ∧ Pipeline.build_regular_season_ratings Pipeline.example_games 20 65
    = Pipeline.build_regular_season_ratings (reverse Pipeline.example_games) 20 65.
Proof.
  assert (Permutation Pipeline.example_games (reverse Pipeline.example_games)) as Hperm
    by (symmetry; apply reverse_Permutation).
  assert (Pipeline.distinct_keys Pipeline.example_games) as Hkeys.
  { intros x y Hx Hy Heq. unfold Pipeline.example_games in Hx, Hy.
    rewrite !elem_of_cons, elem_of_nil in Hx, Hy.
    destruct Hx as [->|[->|[->|[]]]], Hy as [->|[->|[->|[]]]];
      (reflexivity || (vm_compute in Heq; discriminate)). }
  split; [done|].
  apply (regular_season_ratings_order_independent Pipeline.example_games
           (reverse Pipeline.example_games) 20 65 Hperm Hkeys).
Defined.

(** What the simulation step returns or raises in the model, in which
    the rating arithmetic raises nothing. *)
Lemma simulate_season_cases `{RandomGen}
    (games : list GameResult.t) (standings : list TeamStanding.t)
    (n_simulations : Z) (k_factor home_court_adv : R) (seed : Z) :
  match Pipeline.simulate_season games standings n_simulations
          k_factor home_court_adv seed with
  | Ok _ =>
      0 < n_simulations
      ∧ (8 ≤ length (Spec.qualifying "East" standings))%nat
      ∧ (8 ≤ length (Spec.qualifying "West" standings))%nat
  | Err e =>
      (∃ msg, e = ValueError msg)
      ∧ (n_simulations ≤ 0
         ∨ (length (Spec.qualifying "East" standings) < 8)%nat
         ∨ (length (Spec.qualifying "West" standings) < 8)%nat)
  end.
Proof.
  unfold Pipeline.simulate_season.
  pose proof (build_playoff_field_unfold standings) as Hbuild. cbv zeta in Hbuild.
  destruct (Bracket.build_playoff_field standings) as [field|e] eqn:Hfield;
    cbn [mbind result_bind].
  2: { destruct (Nat.ltb_spec (length (Spec.qualifying "East" standings)) 8) as [HE|HE];
         [injection Hbuild as ->; split; [by eexists | auto]|].
       destruct (Nat.ltb_spec (length (Spec.qualifying "West" standings)) 8) as [HW|HW];
         [injection Hbuild as ->; split; [by eexists | auto]|].
       done. }
  destruct (Nat.ltb_spec (length (Spec.qualifying "East" standings)) 8) as [HE|HE];
    [done|].
  destruct (Nat.ltb_spec (length (Spec.qualifying "West" standings)) 8) as [HW|HW];
    [done|].
  clear Hbuild.
  destruct (build_playoff_field_Ok standings field Hfield)
    as (east_rows & west_rows & Heast & Hwest & LE & LW & _ & _).
  set (ratings := Pipeline.build_regular_season_ratings games k_factor home_court_adv).
  set (h := <[2%positive := FieldObj field]> {[1%positive := RatingsObj ratings]}).
  assert (Spec.holds_inputs 2%positive 1%positive field ratings h) as Hh.
  { split; subst h; [by rewrite lookup_insert_eq|].
    by rewrite lookup_insert_ne, lookup_singleton_eq. }
  destruct (Z.leb_spec n_simulations 0) as [Hle|Hn].
  - unfold Simulation.run_monte_carlo. apply Z.leb_le in Hle as Hleb. rewrite Hleb.
    cbn [Spec.outcome]. split; [by eexists | auto].
  - destruct (run_monte_carlo_counts 2%positive 1%positive field ratings _ _
                n_simulations k_factor home_court_adv seed h Hh Heast Hwest
                (seed_rows_has_seeds "East" east_rows LE)
                (seed_rows_has_seeds "West" west_rows LW) Hn)
      as (out & h' & _ & _ & -> & _).
    by cbn [Spec.outcome].
Qed.

(** X18: the simulation step of the daily pipeline never raises
    [KeyError]: a field that [build_playoff_field] returns is one whose
    lookups [run_monte_carlo] can all make, with whatever ratings the
    games give.  A [ValueError] is raised only when the standings have
    fewer than eight rows for the East or for the West or when the
    number of trials is not positive, and the step returns only when
    neither is the case. *)
Theorem simulate_season_raises `{RandomGen}
    (games : list GameResult.t) (standings : list TeamStanding.t)
    (n_simulations : Z) (k_factor home_court_adv : R) (seed : Z) :
  match Pipeline.simulate_season games standings n_simulations
          k_factor home_court_adv seed with
  | Ok _ =>
      0 < n_simulations
      ∧ (8 ≤ length (Spec.qualifying "East" standings))%nat
      ∧ (8 ≤ length (Spec.qualifying "West" standings))%nat
  | Err e =>
      e ≠ KeyError
      ∧ ((∃ msg, e = ValueError msg) →
         n_simulations ≤ 0
         ∨ (length (Spec.qualifying "East" standings) < 8)%nat
         ∨ (length (Spec.qualifying "West" standings) < 8)%nat)
  end.
Proof.
  pose proof (simulate_season_cases games standings n_simulations k_factor
                home_court_adv seed) as Hcases.
  destruct (Pipeline.simulate_season games standings n_simulations k_factor
              home_court_adv seed) as [out|e]; [exact Hcases|].
  destruct Hcases as [[msg ->] Hwhy]. split; [discriminate | done].
Qed.

(** ** Conference labels *)

Section label_facts.

Lemma lower_islower_cased (c : ascii) :
  Py.islower (Py.lower c) = true → Py.iscased c = true.
Proof. destruct c as [[] [] [] [] [] [] [] []]; vm_compute; congruence. Qed.

Lemma capital_E : Labels.capital "E".
Proof.
  intros c. destruct c as [[] [] [] [] [] [] [] []];
    (split; [split|]); intros Hc; vm_compute in Hc |- *;
    (reflexivity || discriminate Hc).
Qed.

Lemma capital_W : Labels.capital "W".
Proof.
  intros c. destruct c as [[] [] [] [] [] [] [] []];
    (split; [split|]); intros Hc; vm_compute in Hc |- *;
    (reflexivity || discriminate Hc).
Qed.

Lemma title_from_cased (x w : string) :
  Labels.all_lower w = true →
  Py.title_from true x = w ↔ Labels.lower_string x = w.
Proof.
  revert w. induction x as [|c x IH]; intros w Hw; [done|].
  cbn [Py.title_from Labels.lower_string].
  destruct w as [|d w]; [done|].
  cbn [Labels.all_lower] in Hw. apply andb_true_iff in Hw as [Hd Hw].
  split; intros [= Hc Hx]; f_equal; try done.
  - apply IH; [done|]. rewrite <- Hc in Hd.
    by rewrite (lower_islower_cased c Hd) in Hx.
  - rewrite <- Hc in Hd. rewrite (lower_islower_cased c Hd). by apply IH.
Qed.

(** A string is put by [title] into a capitalised word exactly when it
    is that word up to the case of its letters. *)
Lemma title_word (x : string) (d : ascii) (w : string) :
  Labels.capital d → Labels.all_lower w = true →
  Py.title x = String d w ↔ Labels.lower_string x = String (Py.lower d) w.
Proof.
  intros Hd Hw. unfold Py.title. destruct x as [|c x]; [done|].
  cbn [Py.title_from Labels.lower_string].
  destruct (Hd c) as [Hiff Hcased].
  split; intros [= Hc Hx]; f_equal.
  - by apply Hiff.
  - apply (title_from_cased x w Hw). by rewrite (Hcased Hc) in Hx.
  - by apply Hiff.
  - apply Hiff in Hc. rewrite (Hcased Hc). by apply title_from_cased.
Qed.

End label_facts.

(** X19: the seeder matches conference labels without regard to case
    and to surrounding white space: a row counts for the East exactly
    when its label, stripped, reads east in any mix of upper and lower
    case, and likewise for the West. *)
Theorem conference_label_matching (conference : string) :
  (Bracket.normalize_conference conference = "East"%string
   ↔ Labels.lower_string (Py.strip conference) = "east"%string)
  ∧ (Bracket.normalize_conference conference = "West"%string
     ↔ Labels.lower_string (Py.strip conference) = "west"%string).
Proof.
  unfold Bracket.normalize_conference. split.
  - apply (title_word (Py.strip conference) "E" "ast"); [apply capital_E | reflexivity].
  - apply (title_word (Py.strip conference) "W" "est"); [apply capital_W | reflexivity].
Qed.

(** ** Ratings that read alike *)

Section agreement_facts.
Context `{RandomGen}.
Import Bracket Agreement.

Variable ids : list Z.

Lemma agree_on_insert (r1 r2 : gmap Z R) (k : Z) (v : R) :
  agree_on ids r1 r2 → agree_on ids (<[k := v]> r1) (<[k := v]> r2).
Proof.
  intros Hag id Hid. unfold rating_of. destruct (decide (k = id)) as [->|Hne].
  - by rewrite !lookup_insert_eq.
  - rewrite !lookup_insert_ne by done. by apply Hag.
Qed.

Lemma play_game_related (high low : SeededTeam.t) (k_factor home_court_adv : R)
    (high_is_home : bool) (s1 s2 : series_state) :
  SeededTeam.team_id high ∈ ids → SeededTeam.team_id low ∈ ids →
  related ids s1 s2 →
  related ids (play_game high low k_factor home_court_adv high_is_home s1)
    (play_game high low k_factor home_court_adv high_is_home s2).
Proof.
  intros Hhi Hlo (Hhw & Hlw & Hrng & Hag). unfold play_game. cbv zeta.
  rewrite Hrng, Hhw, Hlw.
  rewrite (Hag (SeededTeam.team_id (if high_is_home then high else low)))
    by (by destruct high_is_home).
  rewrite (Hag (SeededTeam.team_id (if high_is_home then low else high)))
    by (by destruct high_is_home).
  destruct (random (cur_rng s2)) as [draw g].
  destruct (Elo.update_elo _ _ _ _ _) as [new_home new_away].
  match goal with |- context [if ?b then SeriesState _ _ _ _ else _] => destruct b end;
    (split; [done|]; split; [done|]; split; [done|]);
    cbn [cur_ratings]; by repeat apply agree_on_insert.
Qed.

Lemma series_loop_related (high low : SeededTeam.t) (k_factor home_court_adv : R)
    (schedule : list bool) (s1 s2 : series_state) :
  SeededTeam.team_id high ∈ ids → SeededTeam.team_id low ∈ ids →
  related ids s1 s2 →
  related ids (series_loop high low k_factor home_court_adv schedule s1)
    (series_loop high low k_factor home_court_adv schedule s2).
Proof.
  intros Hhi Hlo. revert s1 s2.
  induction schedule as [|b schedule IH]; intros s1 s2 Hrel; [done|].
  cbn [series_loop]. pose proof Hrel as (Hhw & Hlw & _).
  rewrite Hhw, Hlw.
  destruct ((high_wins s2 =? 4) || (low_wins s2 =? 4)); [exact Hrel|].
  apply IH. apply play_game_related; assumption.
Qed.

Lemma simulate_series_related (high low : SeededTeam.t) (r1 r2 : gmap Z R) (g : rng)
    (k_factor home_court_adv : R) :
  SeededTeam.team_id high ∈ ids → SeededTeam.team_id low ∈ ids →
  agree_on ids r1 r2 →
  same_series ids (_simulate_series high low r1 g k_factor home_court_adv)
    (_simulate_series high low r2 g k_factor home_court_adv).
Proof.
  intros Hhi Hlo Hag. unfold _simulate_series, series_final. cbv zeta.
  destruct (series_loop_related high low k_factor home_court_adv schedule_high_home
              (SeriesState 0 0 r1 g) (SeriesState 0 0 r2 g) Hhi Hlo)
    as (Hhw & Hlw & Hrng & Hag').
  { repeat split. exact Hag. }
  unfold same_series. cbn [fst snd]. rewrite Hhw, Hlw.
  split; [reflexivity|]. split; [exact Hrng | exact Hag'].
Qed.

Lemma series_with_home_court_related (team_a team_b : SeededTeam.t)
    (r1 r2 : gmap Z R) (g : rng) (k_factor home_court_adv : R) :
  SeededTeam.team_id team_a ∈ ids → SeededTeam.team_id team_b ∈ ids →
  agree_on ids r1 r2 →
  same_series ids (_series_with_home_court team_a team_b r1 g k_factor home_court_adv)
    (_series_with_home_court team_a team_b r2 g k_factor home_court_adv).
Proof.
  intros Ha Hb Hag. unfold _series_with_home_court.
  rewrite (Hag _ Ha), (Hag _ Hb).
  destruct (SeededTeam.seed team_a <? SeededTeam.seed team_b);
    [apply simulate_series_related; assumption|].
  destruct (SeededTeam.seed team_b <? SeededTeam.seed team_a);
    [apply simulate_series_related; assumption|].
  destruct (Rgeb _ _); apply simulate_series_related; assumption.
Qed.

Lemma finals_series_related (east west : SeededTeam.t)
    (r1 r2 : gmap Z R) (g : rng) (k_factor home_court_adv : R) :
  SeededTeam.team_id east ∈ ids → SeededTeam.team_id west ∈ ids →
  agree_on ids r1 r2 →
  same_series ids (finals_series east west r1 g k_factor home_court_adv)
    (finals_series east west r2 g k_factor home_court_adv).
Proof.
  intros Ha Hb Hag. unfold finals_series. cbv zeta.
  rewrite (Hag _ Ha), (Hag _ Hb).
  destruct (Rgeb _ _); apply simulate_series_related; assumption.
Qed.

(** The step of a bracket from one series to the next. *)
Lemma same_series_step (x1 x2 : SeededTeam.t * gmap Z R * rng) :
  same_series ids x1 x2 →
  ∃ winner g r1 r2, x1 = (winner, r1, g) ∧ x2 = (winner, r2, g) ∧ agree_on ids r1 r2.
Proof.
  destruct x1 as [[w1 r1] g1], x2 as [[w2 r2] g2]. intros (Hw & Hg & Hag).
  cbn [fst snd] in *. subst. exists w2, g2, r1, r2. by repeat split.
Qed.

Lemma conference_bracket_related (playoff_field : gmap string (list SeededTeam.t))
    (conference : string) (r1 r2 : gmap Z R) (g : rng) (k_factor home_court_adv : R) :
  (∀ teams t, playoff_field !! conference = Some teams → t ∈ teams →
              SeededTeam.team_id t ∈ ids) →
  agree_on ids r1 r2 →
  same_bracket ids
    (conference_bracket playoff_field conference r1 g k_factor home_court_adv)
    (conference_bracket playoff_field conference r2 g k_factor home_court_adv)
  ∧ ∀ champ r' g',
      conference_bracket playoff_field conference r1 g k_factor home_court_adv
      = Ok (champ, r', g') →
      SeededTeam.team_id champ ∈ ids.
Proof.
  intros Hids Hag. unfold conference_bracket, getitem.
  destruct (playoff_field !! conference) as [teams|] eqn:Hteams; cbn [mbind result_bind];
    [|done].
  assert (∀ s t, index_by_seed teams !! s = Some t → SeededTeam.team_id t ∈ ids) as Hin.
  { intros s t Ht. apply (Hids teams); [done|]. by eapply present_seed. }
  destruct (index_by_seed teams !! 1) as [s1|] eqn:E1; cbn [mbind result_bind]; [|done].
  destruct (index_by_seed teams !! 8) as [s8|] eqn:E8; cbn [mbind result_bind]; [|done].
  pose proof (simulate_series_winner s1 s8 r1 g k_factor home_court_adv) as W1.
  destruct (same_series_step _ _
              (simulate_series_related s1 s8 r1 r2 g k_factor home_court_adv
                 (Hin _ _ E1) (Hin _ _ E8) Hag))
    as (qf1 & g1 & ra1 & rb1 & Qa1 & Qb1 & Hag1).
  rewrite Qa1 in W1 |- *. rewrite Qb1. cbn [fst] in W1.
  assert (SeededTeam.team_id qf1 ∈ ids) as I1 by (destruct W1 as [->| ->]; eauto).
  destruct (index_by_seed teams !! 4) as [s4|] eqn:E4; cbn [mbind result_bind]; [|done].
  destruct (index_by_seed teams !! 5) as [s5|] eqn:E5; cbn [mbind result_bind]; [|done].
  pose proof (simulate_series_winner s4 s5 ra1 g1 k_factor home_court_adv) as W2.
  destruct (same_series_step _ _
              (simulate_series_related s4 s5 ra1 rb1 g1 k_factor home_court_adv
                 (Hin _ _ E4) (Hin _ _ E5) Hag1))
    as (qf2 & g2 & ra2 & rb2 & Qa2 & Qb2 & Hag2).
  rewrite Qa2 in W2 |- *. rewrite Qb2. cbn [fst] in W2.
  assert (SeededTeam.team_id qf2 ∈ ids) as I2 by (destruct W2 as [->| ->]; eauto).
  destruct (index_by_seed teams !! 2) as [s2|] eqn:E2; cbn [mbind result_bind]; [|done].
  destruct (index_by_seed teams !! 7) as [s7|] eqn:E7; cbn [mbind result_bind]; [|done].
  pose proof (simulate_series_winner s2 s7 ra2 g2 k_factor home_court_adv) as W3.
  destruct (same_series_step _ _
              (simulate_series_related s2 s7 ra2 rb2 g2 k_factor home_court_adv
                 (Hin _ _ E2) (Hin _ _ E7) Hag2))
    as (qf3 & g3 & ra3 & rb3 & Qa3 & Qb3 & Hag3).
  rewrite Qa3 in W3 |- *. rewrite Qb3. cbn [fst] in W3.
  assert (SeededTeam.team_id qf3 ∈ ids) as I3 by (destruct W3 as [->| ->]; eauto).
  destruct (index_by_seed teams !! 3) as [s3|] eqn:E3; cbn [mbind result_bind]; [|done].
  destruct (index_by_seed teams !! 6) as [s6|] eqn:E6; cbn [mbind result_bind]; [|done].
  pose proof (simulate_series_winner s3 s6 ra3 g3 k_factor home_court_adv) as W4.
  destruct (same_series_step _ _
              (simulate_series_related s3 s6 ra3 rb3 g3 k_factor home_court_adv
                 (Hin _ _ E3) (Hin _ _ E6) Hag3))
    as (qf4 & g4 & ra4 & rb4 & Qa4 & Qb4 & Hag4).
  rewrite Qa4 in W4 |- *. rewrite Qb4. cbn [fst] in W4.
  assert (SeededTeam.team_id qf4 ∈ ids) as I4 by (destruct W4 as [->| ->]; eauto).
  pose proof (series_with_home_court_winner qf1 qf2 ra4 g4 k_factor home_court_adv) as W5.
  destruct (same_series_step _ _
              (series_with_home_court_related qf1 qf2 ra4 rb4 g4 k_factor home_court_adv
                 I1 I2 Hag4))
    as (sf1 & g5 & ra5 & rb5 & Qa5 & Qb5 & Hag5).
  rewrite Qa5 in W5 |- *. rewrite Qb5. cbn [fst] in W5.
  assert (SeededTeam.team_id sf1 ∈ ids) as I5 by (destruct W5 as [->| ->]; done).
  pose proof (series_with_home_court_winner qf3 qf4 ra5 g5 k_factor home_court_adv) as W6.
  destruct (same_series_step _ _
              (series_with_home_court_related qf3 qf4 ra5 rb5 g5 k_factor home_court_adv
                 I3 I4 Hag5))
    as (sf2 & g6 & ra6 & rb6 & Qa6 & Qb6 & Hag6).
  rewrite Qa6 in W6 |- *. rewrite Qb6. cbn [fst] in W6.
  assert (SeededTeam.team_id sf2 ∈ ids) as I6 by (destruct W6 as [->| ->]; done).
  pose proof (series_with_home_court_winner sf1 sf2 ra6 g6 k_factor home_court_adv) as W7.
  pose proof (series_with_home_court_related sf1 sf2 ra6 rb6 g6 k_factor home_court_adv
                I5 I6 Hag6) as Hlast.
  split; [exact Hlast|].
  intros champ r' g' [= Hchamp]. rewrite Hchamp in W7. cbn [fst] in W7.
  destruct W7 as [->| ->]; done.
Qed.

End agreement_facts.

Section agreement_runs.
Context `{RandomGen}.
Import Bracket Agreement.

Variable playoff_field : gmap string (list SeededTeam.t).
Variables (r1 r2 : gmap Z R).
Hypothesis agree : agree_on (field_ids playoff_field) r1 r2.

Lemma field_ids_conference (conference : string) (teams : list SeededTeam.t)
    (t : SeededTeam.t) :
  conference = "East"%string ∨ conference = "West"%string →
  playoff_field !! conference = Some teams → t ∈ teams →
  SeededTeam.team_id t ∈ field_ids playoff_field.
Proof.
  intros Hc Hteams Ht. unfold field_ids. apply list_elem_of_fmap_2. apply elem_of_app.
  destruct Hc as [-> | ->]; rewrite Hteams; cbn [default from_option]; auto.
Qed.

Lemma simulate_playoffs_related (g : rng) (k_factor home_court_adv : R) :
  verdict (simulate_playoffs playoff_field r1 g k_factor home_court_adv)
  = verdict (simulate_playoffs playoff_field r2 g k_factor home_court_adv).
Proof.
  unfold simulate_playoffs. cbn [foldl mbind result_bind].
  destruct (conference_bracket_related (field_ids playoff_field) playoff_field "East"
              r1 r2 g k_factor home_court_adv) as [Hsame Hin]; [|exact agree|].
  { intros teams t. apply field_ids_conference. by left. }
  destruct (conference_bracket playoff_field "East" r1 g k_factor home_court_adv)
    as [[[east ra] ga]|e1];
    destruct (conference_bracket playoff_field "East" r2 g k_factor home_court_adv)
      as [[[east' rb] gb]|e2]; cbn [same_bracket] in Hsame; try contradiction.
  2: { cbn [mbind result_bind verdict]. by rewrite Hsame. }
  destruct Hsame as (He & Hg & Hag). cbn [fst snd] in He, Hg, Hag. subst east' gb.
  specialize (Hin east ra ga eq_refl). cbn [mbind result_bind].
  destruct (conference_bracket_related (field_ids playoff_field) playoff_field "West"
              ra rb ga k_factor home_court_adv) as [Hsame Hin']; [|exact Hag|].
  { intros teams t. apply field_ids_conference. by right. }
  destruct (conference_bracket playoff_field "West" ra ga k_factor home_court_adv)
    as [[[west ra'] ga']|e1];
    destruct (conference_bracket playoff_field "West" rb ga k_factor home_court_adv)
      as [[[west' rb'] gb']|e2]; cbn [same_bracket] in Hsame; try contradiction.
  2: { cbn [mbind result_bind verdict]. by rewrite Hsame. }
  destruct Hsame as (Hw & Hg & Hag'). cbn [fst snd] in Hw, Hg, Hag'. subst west' gb'.
  specialize (Hin' west ra' ga' eq_refl). cbn [mbind result_bind].
  rewrite (getitem_Some _ "East"%string east), (getitem_Some _ "West"%string west);
    [| by rewrite lookup_insert_eq | by rewrite lookup_insert_ne, lookup_insert_eq].
  cbn [mbind result_bind].
  destruct (same_series_step _ _ _
              (finals_series_related (field_ids playoff_field) east west ra' rb' ga'
                 k_factor home_court_adv Hin Hin' Hag'))
    as (champion & g' & rc & rd & -> & -> & _).
  reflexivity.
Qed.

Lemma trials_related (k_factor home_court_adv : R) (n : nat)
    (acc : Simulation.tally * rng) :
  Spec.trials n playoff_field r1 k_factor home_court_adv acc
  = Spec.trials n playoff_field r2 k_factor home_court_adv acc.
Proof.
  revert acc. induction n as [|n IH]; intros [counts parent_rng]; [reflexivity|].
  cbn [Spec.trials]. unfold Spec.trial.
  destruct (randint 0 (10 ^ 9) parent_rng) as [sim_seed parent_rng'].
  pose proof (simulate_playoffs_related (Random sim_seed) k_factor home_court_adv) as Hv.
  destruct (simulate_playoffs playoff_field r1 _ _ _) as [[[[[c1 e1] w1] d1] g1]|err1];
    destruct (simulate_playoffs playoff_field r2 _ _ _) as [[[[[c2 e2] w2] d2] g2]|err2];
    cbn [verdict] in Hv; try discriminate Hv.
  - injection Hv as -> -> -> _. cbn [mbind result_bind].
    destruct (Simulation.record_outcome counts c2 e2 w2) as [counts'|e];
      cbn [mbind result_bind]; [apply IH | reflexivity].
  - injection Hv as ->. reflexivity.
Qed.

Lemma independent_trials_related (n_simulations : Z) (k_factor home_court_adv : R)
    (seed : Z) :
  Spec.independent_trials playoff_field r1 n_simulations k_factor home_court_adv seed
  = Spec.independent_trials playoff_field r2 n_simulations k_factor home_court_adv seed.
Proof.
  unfold Spec.independent_trials. destruct (n_simulations <=? 0); [reflexivity|].
  destruct (Simulation.build_team_lookup playoff_field) as [team_lookup|e];
    cbn [mbind result_bind]; [|reflexivity].
  by rewrite trials_related.
Qed.

End agreement_runs.

(** X20: the odds depend on the baseline ratings only through what the
    teams of the field read from them: two calls of [run_monte_carlo]
    with the same field, number of trials, k-factor, home-court
    advantage and seed return the same odds, or raise the same
    exception, whenever every team of the East and West lists has the
    same rating in both baselines, a team without an entry reading as
    one rated 1500.  Ratings of other teams have no influence. *)
Theorem run_monte_carlo_reads_field_ratings `{RandomGen}
    (playoff_field base_ratings playoff_field' base_ratings' : loc)
    (field : gmap string (list SeededTeam.t)) (baseline baseline' : gmap Z R)
    (n_simulations : Z) (k_factor home_court_adv : R) (seed : Z) (h h' : store) :
  Spec.holds_inputs playoff_field base_ratings field baseline h →
  Spec.holds_inputs playoff_field' base_ratings' field baseline' h' →
  Agreement.agree_on (Agreement.field_ids field) baseline baseline' →
  Spec.outcome (Simulation.run_monte_carlo playoff_field base_ratings n_simulations
                  k_factor home_court_adv seed h)
  = Spec.outcome (Simulation.run_monte_carlo playoff_field' base_ratings' n_simulations
                    k_factor home_court_adv seed h').
Proof.
  intros Hh Hh' Hagree.
  pose proof (run_monte_carlo_store playoff_field base_ratings field baseline
                k_factor home_court_adv n_simulations seed h Hh) as Hrun.
  pose proof (run_monte_carlo_store playoff_field' base_ratings' field baseline'
                k_factor home_court_adv n_simulations seed h' Hh') as Hrun'.
  rewrite <- (independent_trials_related field baseline baseline' Hagree) in Hrun'.
  destruct (Spec.independent_trials field baseline n_simulations k_factor
              home_court_adv seed) as [out|e].
  - destruct Hrun as (h1 & -> & _). destruct Hrun' as (h2 & -> & _). reflexivity.
  - by rewrite Hrun, Hrun'.
Qed.

Lemma run_monte_carlo_reads_field_ratings_witness :
  (Spec.holds_inputs 1%positive 2%positive Examples.test_field Examples.conference_ratings
     Examples.test_store
   ∧ Spec.holds_inputs 5%positive 7%positive Examples.test_field Agreement.other_ratings
       Agreement.other_store
   ∧ Agreement.agree_on (Agreement.field_ids Examples.test_field)
       Examples.conference_ratings Agreement.other_ratings)
  ∧ Spec.outcome (@Simulation.run_monte_carlo home_always_wins 1%positive 2%positive 300
                    20%R 65%R 123 Examples.test_store)
    = Spec.outcome (@Simulation.run_monte_carlo home_always_wins 5%positive 7%positive 300
                      20%R 65%R 123 Agreement.other_store).
Proof.
  assert (Spec.holds_inputs 1%positive 2%positive Examples.test_field
            Examples.conference_ratings Examples.test_store) as Hh
    by (split; reflexivity).
  assert (Spec.holds_inputs 5%positive 7%positive Examples.test_field
            Agreement.other_ratings Agreement.other_store) as Hh'
    by (split; reflexivity).
  assert (Agreement.agree_on (Agreement.field_ids Examples.test_field)
            Examples.conference_ratings Agreement.other_ratings) as Hagree.
  { intros team_id Hid. unfold Bracket.rating_of, Agreement.other_ratings.
    rewrite lookup_insert_ne; [reflexivity|].
    intros <-. revert Hid. apply (bool_decide_unpack _). vm_compute. exact I. }
  split; [done|].
  apply (@run_monte_carlo_reads_field_ratings home_always_wins 1%positive 2%positive
           5%positive 7%positive Examples.test_field Examples.conference_ratings
           Agreement.other_ratings 300 20%R 65%R 123 Examples.test_store
           Agreement.other_store Hh Hh' Hagree).
Defined.
